(** * podiffutils: three-way merge of translation catalogs

    A shallow embedding of [podiffutils.py]: the order-preserving set
    matchers ([SetMatcher2], [SetMatcher3]), the scalar and list merges of
    [DiffUtils], and the PO-specific unit merger of [_PoFileDiff].

    Python exceptions are made explicit in the result type; a generator
    is the sequence of the values it yields together with the way it
    ended.  The first part of the file holds the embedding, the second
    part the properties. *)

From Stdlib Require Import ZArith Ascii String List Lia.
From stdpp Require Import base option list gmap strings.

Local Open Scope string_scope.
Local Open Scope list_scope.
Local Open Scope nat_scope.

(** * Part I: the embedding *)

(** ** Exceptions, results, generators *)

(** The exceptions the code can raise.  The last two are not Python
    exceptions: [OutOfFuel] is what the bounded unrolling of a [while]
    loop answers when its bound was too small, and [Unmodelled] is the
    answer of a library operation on an input this embedding does not
    interpret. *)
Inductive exn : Type :=
  | AssertionError
  | KeyError
  | TypeError
  | ValueError
  | AttributeError
  | IndexError
  | OutOfFuel
  | Unmodelled.

Inductive result (A : Type) : Type :=
  | Ok (a : A)
  | Raise (e : exn).
Arguments Ok {A} a.
Arguments Raise {A} e.

Definition rbind {A B} (r : result A) (f : A → result B) : result B :=
  match r with
  | Ok a => f a
  | Raise e => Raise e
  end.

Definition returns {A} (r : result A) : Prop := ∃ a, r = Ok a.

(** A generator that yields values of type [Y]: the values yielded so
    far, and how the run ended (a value of type [A], or an exception
    raised after the yields). *)
Definition gen (Y A : Type) : Type := (list Y * result A)%type.

Definition gret {Y A} (a : A) : gen Y A := ([], Ok a).
Definition glift {Y A} (r : result A) : gen Y A := ([], r).
Definition yield {Y} (y : Y) : gen Y unit := ([y], Ok tt).
Definition gassert {Y} (b : bool) : gen Y unit :=
  if b then gret tt else glift (Raise AssertionError).

Definition gbind {Y A B} (g : gen Y A) (f : A → gen Y B) : gen Y B :=
  match g with
  | (ys, Ok a) => let '(ys', r) := f a in (ys ++ ys', r)
  | (ys, Raise e) => (ys, Raise e)
  end.

Declare Scope gen_scope.
Delimit Scope gen_scope with gen.
Notation "x ← g ; k" := (gbind g (λ x, k))
  (at level 20, g at level 100, k at level 200, only parsing) : gen_scope.
Notation "' p ← g ; k" := (gbind g (λ x, match x with p => k end))
  (at level 20, p pattern, g at level 100, k at level 200, only parsing) : gen_scope.
Notation "g ;; k" := (gbind g (λ _, k))
  (at level 100, k at level 200, right associativity, only parsing) : gen_scope.

Declare Scope result_scope.
Delimit Scope result_scope with res.
Notation "x ← r ; k" := (rbind r (λ x, k))
  (at level 20, r at level 100, k at level 200, only parsing) : result_scope.
Notation "' p ← r ; k" := (rbind r (λ x, match x with p => k end))
  (at level 20, p pattern, r at level 100, k at level 200, only parsing) : result_scope.

(** ** _Walker

    An iterator with one element of lookahead.  The walker is represented
    by the elements it has not passed yet: [_current] is the head of that
    list, [_valid] says that the list is not empty, and [next] drops the
    head ([__init__] fetches the first element, so a fresh walker over
    [it] is [it] itself; [next] on an exhausted walker does nothing). *)
Module _Walker.
Section Walker.
Context {U : Type}.
Definition t : Type := list U.
Definition init (it : list U) : t := it.
Definition valid (w : t) : bool := match w with [] => false | _ :: _ => true end.
Definition get (w : t) : option U := head w.
Definition next (w : t) : t := tail w.
End Walker.
Arguments t : clear implicits.
End _Walker.

(** ** The set matchers *)

(** Slot of [SetMatcher3]: [_Item3] with the [done] flag of [_Item]. *)
Record _Item3 (U : Type) : Type := MkItem3 {
i3_done : bool;
i3_base : option U;
i3_local : option U;
i3_remote : option U;
}.
Arguments MkItem3 {U}.
Arguments i3_done {U}.
Arguments i3_base {U}.
Arguments i3_local {U}.
Arguments i3_remote {U}.

(** Slot of [SetMatcher2]: [_Item2]. *)
Record _Item2 (U : Type) : Type := MkItem2 {
i2_done : bool;
i2_old : option U;
i2_new : option U;
}.
Arguments MkItem2 {U}.
Arguments i2_done {U}.
Arguments i2_old {U}.
Arguments i2_new {U}.

(** The attribute names passed to [_fill_item_map]. *)
Inductive field3 : Type := Fbase | Flocal | Fremote.
Inductive field2 : Type := Fold | Fnew.

Module SetMatcher3.
Section Matcher3.
Context {U K : Type} `{Countable K}.
Variable keyfunc : U → K.
Variable deletedfunc : U → bool.

Definition triple : Type := (option U * option U * option U)%type.

(** [_Item3.__init__] *)
Definition new_item : _Item3 U := MkItem3 false None None None.

Definition setattr (item : _Item3 U) (field : field3) (unit : U) : _Item3 U :=
  match field with
  | Fbase => MkItem3 (i3_done item) (Some unit) (i3_local item) (i3_remote item)
  | Flocal => MkItem3 (i3_done item) (i3_base item) (Some unit) (i3_remote item)
  | Fremote => MkItem3 (i3_done item) (i3_base item) (i3_local item) (Some unit)
  end.

Definition set_done (item : _Item3 U) : _Item3 U :=
  MkItem3 true (i3_base item) (i3_local item) (i3_remote item).

(** [_SetMatcherBase._fill_item_map] *)
Fixpoint _fill_item_map (field : field3) (units : list U)
    (item_map : gmap K (_Item3 U)) : gmap K (_Item3 U) :=
  match units with
  | [] => item_map
  | unit :: units' =>
      let key := keyfunc unit in
      let item := match item_map !! key with
                  | Some item => item
                  | None => new_item
                  end in
      _fill_item_map field units' (<[key := setattr item field unit]> item_map)
  end.

(** [_SetMatcherBase._item]: [self.item_map[self.keyfunc(unit)]] *)
Definition _item (item_map : gmap K (_Item3 U)) (unit : U) : result (_Item3 U) :=
  match item_map !! keyfunc unit with
  | Some item => Ok item
  | None => Raise KeyError
  end.

(** The local function [not_local] of [match].  [deletedfunc] is only
    defined on units; the slot of a unit taken from [remote] always
    has its [remote] field set, the other case is a [TypeError]. *)
Definition not_local (item_map : gmap K (_Item3 U)) (unit : U) : result bool :=
  (i ← _item item_map unit;
   match i3_local i with
   | None => Ok true
   | Some l =>
       if deletedfunc l then
         match i3_remote i with
         | Some r => Ok (negb (deletedfunc r))
         | None => Raise TypeError
         end
       else Ok false
   end)%res.

(** [i = self._item(unit); assert not i.done;
     yield (i.base, i.local, i.remote); i.done = True] *)
Definition emit (item_map : gmap K (_Item3 U)) (unit : U)
    : gen triple (gmap K (_Item3 U)) :=
  (i ← glift (_item item_map unit);
   gassert (negb (i3_done i));;
   yield (i3_base i, i3_local i, i3_remote i);;
   gret (<[keyfunc unit := set_done i]> item_map))%gen.

(** [while w.valid() and self._item(w.get()).done: w.next()] *)
Fixpoint skip_done (item_map : gmap K (_Item3 U)) (w : _Walker.t U)
    : result (_Walker.t U) :=
  match w with
  | [] => Ok w
  | unit :: w' =>
      (i ← _item item_map unit;
       if i3_done i then skip_done item_map w' else Ok w)%res
  end.

(** The main loop of [match], [while lw.valid() or rw.valid()],
    unrolled at most [fuel] times. *)
Fixpoint main_loop (fuel : nat) (item_map : gmap K (_Item3 U))
    (lw rw : _Walker.t U)
    : gen triple (gmap K (_Item3 U) * _Walker.t U * _Walker.t U) :=
  if _Walker.valid lw || _Walker.valid rw then
    match fuel with
    | O => glift (Raise OutOfFuel)
    | S fuel' =>
        (inject ← glift (match _Walker.get rw with
                         | Some unit => not_local item_map unit
                         | None => Ok false
                         end);
         '(item_map, lw, rw) ←
           (if inject : bool then
              match _Walker.get rw with
              | Some unit =>
                  item_map ← emit item_map unit;
                  gret (item_map, lw, _Walker.next rw)
              | None => glift (Raise TypeError)
              end
            else
              match _Walker.get lw with
              | Some unit =>
                  item_map ← emit item_map unit;
                  gret (item_map, _Walker.next lw, rw)
              | None => gret (item_map, lw, rw)
              end);
         rw ← glift (skip_done item_map rw);
         lw ← glift (skip_done item_map lw);
         main_loop fuel' item_map lw rw)%gen
    end
  else gret (item_map, lw, rw).

(** [while bw.valid(): ...], emitting the slots of [base] that are not
    done; the loop ends with [bw] exhausted. *)
Fixpoint drain_base (item_map : gmap K (_Item3 U)) (bw : _Walker.t U)
    : gen triple (gmap K (_Item3 U) * _Walker.t U) :=
  match bw with
  | [] => gret (item_map, bw)
  | unit :: bw' =>
      (i ← glift (_item item_map unit);
       (if i3_done i then gret tt
        else yield (i3_base i, i3_local i, i3_remote i));;
       drain_base (<[keyfunc unit := set_done i]> item_map) bw')%gen
  end.

(** [assert not [i for i in self.item_map.itervalues() if not i.done]] *)
Definition all_done (item_map : gmap K (_Item3 U)) : bool :=
  bool_decide (map_Forall (λ _ i, i3_done i = true) item_map).

(** [SetMatcher3.match].  The main loop is unrolled at most
    [length local + length remote] times: every round passes an element
    of [local] or of [remote], so the bound is never reached. *)
Definition match_ (base local remote : list U) : gen triple unit :=
  let item_map := _fill_item_map Fbase base ∅ in
  let item_map := _fill_item_map Flocal local item_map in
  let item_map := _fill_item_map Fremote remote item_map in
  let bw := _Walker.init base in
  let lw := _Walker.init local in
  let rw := _Walker.init remote in
  ('(item_map, lw, rw) ← main_loop (length local + length remote) item_map lw rw;
   '(item_map, bw) ← drain_base item_map bw;
   gassert (negb (_Walker.valid lw));;
   gassert (negb (_Walker.valid rw));;
   gassert (negb (_Walker.valid bw));;
   gassert (all_done item_map))%gen.

End Matcher3.
End SetMatcher3.

Module SetMatcher2.
Section Matcher2.
Context {U K : Type} `{Countable K}.
Variable keyfunc : U → K.
Variable deletedfunc : U → bool.

Definition pair : Type := (option U * option U)%type.

(** [_Item2.__init__] *)
Definition new_item : _Item2 U := MkItem2 false None None.

Definition setattr (item : _Item2 U) (field : field2) (unit : U) : _Item2 U :=
  match field with
  | Fold => MkItem2 (i2_done item) (Some unit) (i2_new item)
  | Fnew => MkItem2 (i2_done item) (i2_old item) (Some unit)
  end.

Definition set_done (item : _Item2 U) : _Item2 U :=
  MkItem2 true (i2_old item) (i2_new item).

(** [_SetMatcherBase._fill_item_map] *)
Fixpoint _fill_item_map (field : field2) (units : list U)
    (item_map : gmap K (_Item2 U)) : gmap K (_Item2 U) :=
  match units with
  | [] => item_map
  | unit :: units' =>
      let key := keyfunc unit in
      let item := match item_map !! key with
                  | Some item => item
                  | None => new_item
                  end in
      _fill_item_map field units' (<[key := setattr item field unit]> item_map)
  end.

(** [_SetMatcherBase._item] *)
Definition _item (item_map : gmap K (_Item2 U)) (unit : U) : result (_Item2 U) :=
  match item_map !! keyfunc unit with
  | Some item => Ok item
  | None => Raise KeyError
  end.

(** The local function [not_old] of [match]. *)
Definition not_old (item_map : gmap K (_Item2 U)) (unit : U) : result bool :=
  (i ← _item item_map unit;
   match i2_old i with
   | None => Ok true
   | Some o =>
       if deletedfunc o then
         match i2_new i with
         | Some n => Ok (negb (deletedfunc n))
         | None => Raise TypeError
         end
       else Ok false
   end)%res.

(** [i = self._item(unit); assert not i.done; yield (i.old, i.new);
     i.done = True] *)
Definition emit (item_map : gmap K (_Item2 U)) (unit : U)
    : gen pair (gmap K (_Item2 U)) :=
  (i ← glift (_item item_map unit);
   gassert (negb (i2_done i));;
   yield (i2_old i, i2_new i);;
   gret (<[keyfunc unit := set_done i]> item_map))%gen.

(** [while w.valid() and self._item(w.get()).done: w.next()] *)
Fixpoint skip_done (item_map : gmap K (_Item2 U)) (w : _Walker.t U)
    : result (_Walker.t U) :=
  match w with
  | [] => Ok w
  | unit :: w' =>
      (i ← _item item_map unit;
       if i2_done i then skip_done item_map w' else Ok w)%res
  end.

(** The loop of [match], [while ow.valid() and nw.valid()], unrolled at
    most [fuel] times. *)
Fixpoint main_loop (fuel : nat) (item_map : gmap K (_Item2 U))
    (ow nw : _Walker.t U)
    : gen pair (gmap K (_Item2 U) * _Walker.t U * _Walker.t U) :=
  if _Walker.valid ow && _Walker.valid nw then
    match fuel with
    | O => glift (Raise OutOfFuel)
    | S fuel' =>
        (inject ← glift (match _Walker.get nw with
                         | Some unit => not_old item_map unit
                         | None => Ok false
                         end);
         '(item_map, ow, nw) ←
           (if inject : bool then
              match _Walker.get nw with
              | Some unit =>
                  item_map ← emit item_map unit;
                  gret (item_map, ow, _Walker.next nw)
              | None => glift (Raise TypeError)
              end
            else
              match _Walker.get ow with
              | Some unit =>
                  item_map ← emit item_map unit;
                  gret (item_map, _Walker.next ow, nw)
              | None => gret (item_map, ow, nw)
              end);
         nw ← glift (skip_done item_map nw);
         ow ← glift (skip_done item_map ow);
         main_loop fuel' item_map ow nw)%gen
    end
  else gret (item_map, ow, nw).

(** [assert not [i for i in self.item_map.itervalues() if not i.done]] *)
Definition all_done (item_map : gmap K (_Item2 U)) : bool :=
  bool_decide (map_Forall (λ _ i, i2_done i = true) item_map).

(** [SetMatcher2.match].  The loop is unrolled at most
    [length old + length new] times: every round passes an element of
    [old] or of [new]. *)
Definition match_ (old new : list U) : gen pair unit :=
  let item_map := _fill_item_map Fold old ∅ in
  let item_map := _fill_item_map Fnew new item_map in
  let ow := _Walker.init old in
  let nw := _Walker.init new in
  ('(item_map, ow, nw) ← main_loop (length old + length new) item_map ow nw;
   gassert (negb (_Walker.valid ow));;
   gassert (negb (_Walker.valid nw));;
   gassert (all_done item_map))%gen.

End Matcher2.
End SetMatcher2.

(** ** Timestamps of the header

    [time.mktime] and [time.timezone] belong to the machine the merge
    runs on. *)
Definition struct_time : Type := (Z * Z * Z * Z * Z * Z * Z * Z * Z)%type.

Class Clock : Type := {
  (** [time.mktime]: seconds since the epoch of a local time, or an
      exception for a time it cannot represent. *)
  mktime : struct_time → result Z;
  (** [time.timezone]: offset of the local zone, seconds west of UTC. *)
  timezone : Z;
}.

Module Re.

(** The character classes of [_time_pattern], for a pattern compiled
    without flags: [[0-9]] and [\s]. *)
Definition is_digit (c : ascii) : bool :=
  let n := nat_of_ascii c in (48 <=? n) && (n <=? 57).
Definition is_space (c : ascii) : bool :=
  let n := nat_of_ascii c in
  (n =? 32) || (n =? 9) || (n =? 10) || (n =? 13) || (n =? 12) || (n =? 11).

Section Backtracking.
Context {R : Type}.

(** A literal character. *)
Definition chr (a : ascii) (s : string) (k : string → option R) : option R :=
  match s with
  | String c s' => if Ascii.eqb c a then k s' else None
  | EmptyString => None
  end.

(** Greedy [p{min,max}]: the longest run first, then the shorter ones;
    the continuation gets the text matched and the rest. *)
Fixpoint rep (p : ascii → bool) (min max : nat) (s : string) (acc : string)
    (k : string → string → option R) : option R :=
  let stop := match min with O => k acc s | S _ => None end in
  match max with
  | O => stop
  | S max' =>
      match s with
      | String c s' =>
          if p c then
            match rep p (pred min) max' s' (acc +:+ String c EmptyString) k with
            | Some r => Some r
            | None => stop
            end
          else stop
      | EmptyString => stop
      end
  end.

(** Greedy [p*] and [p+]. *)
Fixpoint star (p : ascii → bool) (s : string) (k : string → option R) : option R :=
  match s with
  | String c s' =>
      if p c then
        match star p s' k with
        | Some r => Some r
        | None => k s
        end
      else k s
  | EmptyString => k s
  end.

Definition plus (p : ascii → bool) (s : string) (k : string → option R) : option R :=
  match s with
  | String c s' => if p c then star p s' k else None
  | EmptyString => None
  end.

(** Greedy [(?:e)?]: with [e] first, then without. *)
Definition opt (e : string → (string → option R) → option R) (s : string)
    (k : string → option R) : option R :=
  match e s k with
  | Some r => Some r
  | None => k s
  end.

End Backtracking.

(** [[+-]] *)
Definition is_sign (c : ascii) : bool := Ascii.eqb c "+" || Ascii.eqb c "-".

(** [int()] of a run of decimal digits with an optional sign. *)
Definition digit_value (c : ascii) : Z := Z.of_nat (nat_of_ascii c) - 48.
Fixpoint int_digits (s : string) (acc : Z) : Z :=
  match s with
  | String c s' => int_digits s' (acc * 10 + digit_value c)
  | EmptyString => acc
  end.
Definition int (s : string) : Z :=
  match s with
  | String "+" s' => int_digits s' 0
  | String "-" s' => - int_digits s' 0
  | _ => int_digits s 0
  end.

End Re.

Module Time.
Import Re.

(** The groups 1 to 7 of a match of [_time_pattern]. *)
Definition groups : Type :=
  (string * string * string * string * string * string * string)%type.

(** [_time_pattern.match]:
    [([0-9]{4})-([0-9]{1,2})-([0-9]{1,2})\s+([0-9]{1,2}):([0-9]{1,2})(?::[0-9]{1,2})?\s*([+-][0-9]{2})([0-9]{2})],
    anchored at the start of the string only. *)
Definition _time_pattern_match (timestr : string) : option groups :=
  rep is_digit 4 4 timestr "" (λ g1 s,
  chr "-" s (λ s,
  rep is_digit 1 2 s "" (λ g2 s,
  chr "-" s (λ s,
  rep is_digit 1 2 s "" (λ g3 s,
  plus is_space s (λ s,
  rep is_digit 1 2 s "" (λ g4 s,
  chr ":" s (λ s,
  rep is_digit 1 2 s "" (λ g5 s,
  opt (λ s k, chr ":" s (λ s, rep is_digit 1 2 s "" (λ _ s, k s))) s (λ s,
  star is_space s (λ s,
  rep is_sign 1 1 s "" (λ sg s,
  rep is_digit 2 2 s sg (λ g6 s,
  rep is_digit 2 2 s "" (λ g7 _,
  Some (g1, g2, g3, g4, g5, g6, g7))))))))))))))).

Section GetTime.
Context `{Clock}.

(** [_PoFileDiff._get_time].  The argument is what [dict.get] returned:
    a string, or [None], which [re] refuses with a [TypeError]. *)
Definition _get_time (timestr : option string) : result Z :=
  match timestr with
  | None => Raise TypeError
  | Some timestr =>
      match _time_pattern_match timestr with
      | Some (g1, g2, g3, g4, g5, g6, g7) =>
          (t ← mktime (int g1, int g2, int g3, int g4, int g5, 0, 0, 0, 0)%Z;
           let t := (t + timezone)%Z in
           sixty ← match g6 with
                   | String "+" _ => Ok 60%Z
                   | String "-" _ => Ok (-60)%Z
                   | _ => Raise KeyError
                   end;
           Ok (t + int g6 * 3600 + int g6 * sixty)%Z)%res
      | None => Ok 0%Z
      end
  end.

End GetTime.
End Time.

(** ** Python strings and dictionaries *)

Module Py.

(** The newline character. *)
Definition nl : string := String (ascii_of_nat 10) EmptyString.

(** [sep.join(l)] *)
Fixpoint join (sep : string) (l : list string) : string :=
  match l with
  | [] => ""
  | [x] => x
  | x :: l' => x +:+ sep +:+ join sep l'
  end.

(** Characters that start a conversion specification other than [%s]
    and [%%]: mapping keys, flags, widths, precisions, length modifiers
    and the other conversion types. *)
Definition is_conversion_syntax (c : ascii) : bool :=
  match index 0 (String c EmptyString) "(#0- +123456789*.hlLdiouxXeEfFgGcr" with
  | Some _ => true
  | None => false
  end.

(** [format % args] for a tuple [args] of strings.  [%s] takes the next
    argument and [%%] is a percent sign.  A [%] at the end of the format
    is a [ValueError] (incomplete format); a [%] before a character that
    starts no conversion is a [TypeError] when no argument is left and a
    [ValueError] (unsupported format character) otherwise; arguments
    left over at the end are a [TypeError].  The other conversions are
    not interpreted: the answer for them is [Unmodelled]. *)
Fixpoint format (fmt : string) (args : list string) : result string :=
  match fmt with
  | EmptyString =>
      match args with
      | [] => Ok ""
      | _ :: _ => Raise TypeError
      end
  | String "%" rest =>
      match rest with
      | EmptyString => Raise ValueError
      | String "%" rest' =>
          (s ← format rest' args; Ok (String "%" s))%res
      | String "s" rest' =>
          match args with
          | [] => Raise TypeError
          | a :: args' => (s ← format rest' args'; Ok (a +:+ s))%res
          end
      | String c _ =>
          if is_conversion_syntax c then Raise Unmodelled
          else match args with
               | [] => Raise TypeError
               | _ :: _ => Raise ValueError
               end
      end
  | String c rest => (s ← format rest args; Ok (String c s))%res
  end.

(** An ordered dictionary with string keys and values, as the list of
    its items; a well-formed one has no key twice. *)
Definition dict : Type := list (string * string).

(** [d.get(key)], [None] for a missing key. *)
Fixpoint get (d : dict) (key : string) : option string :=
  match d with
  | [] => None
  | (k, v) :: d' => if decide (k = key) then Some v else get d' key
  end.

(** [d.get(key, other)] *)
Definition get_default (d : dict) (key : string) (other : string) : string :=
  match get d key with
  | Some v => v
  | None => other
  end.

(** [d.keys()] *)
Definition keys (d : dict) : list string := d.*1.

(** [key in s] for a set of strings *)
Definition mem (key : string) (s : list string) : bool := bool_decide (key ∈ s).

End Py.

(** ** Catalog units

    The catalog layer ([translate.storage.pypo]) is not part of the
    merge engine.  A unit is the record of the attributes the engine
    reads and writes, with the meaning the unit contract gives them: an
    attribute holds what was assigned to it.  The plural strings of a
    [multistring] target are a Python list, a mutable object that
    several references can share, and live in a heap. *)

Definition loc : Type := nat.

(** [unit.target]: a plain string, or a [multistring], which is known by
    the place of its [strings] list in the heap. *)
Inductive target_t : Type :=
  | TStr (s : string)
  | TMulti (l : loc).

(** The heap: the [strings] lists of the multistrings allocated so far,
    in the order of their allocation. *)
Definition heap : Type := list (list string).

(** The attributes of the catalog a unit belongs to ([unit._store]) that
    the engine reads: [filename], which may be missing, and what
    [parseheader()] returns. *)
Record pofile : Type := MkPofile {
  filename : option string;
  parseheader : Py.dict;
}.

Record pounit : Type := MkUnit {
  source : string;
  source_plural : string;
  context : string;
  target : target_t;
  fuzzy : bool;
  obsolete : bool;
  locations : list string;
  notes_developer : list string;
  notes_translator : list string;
  typecomments : list string;
  prev_msgctxt : list string;
  prev_msgid : list string;
  prev_msgid_plural : list string;
  _store : option pofile;
}.

Inductive origin : Type := developer | translator.

(** What the engine asks of the catalog layer without fixing it: the
    classification of a unit (a function of the unit, not of the strings
    of a multistring), the parser of a header and the tokens of the type
    comments ([re.findall(r"\b[-\w]+\b", text)]). *)
Class CatalogLayer : Type := {
  isheader : pounit → bool;
  isblank : pounit → bool;
  hasplural : pounit → bool;
  parseheaderstring : string → Py.dict;
  findall_types : string → list string;
}.

Module Unit.

(** [UnitClass.getid]: the identity of an entry, context and source. *)
Definition getid (u : pounit) : string * string := (context u, source u).

Definition isobsolete (u : pounit) : bool := obsolete u.
Definition isfuzzy (u : pounit) : bool := fuzzy u.

(** A new unit of the class, [type(template)()]. *)
Definition new : pounit :=
  MkUnit "" "" "" (TStr "") false false [] [] [] [] [] [] [] None.

Definition setsource (src : string * string) (u : pounit) : pounit :=
  MkUnit src.1 src.2 (context u) (target u) (fuzzy u) (obsolete u)
    (locations u) (notes_developer u) (notes_translator u) (typecomments u)
    (prev_msgctxt u) (prev_msgid u) (prev_msgid_plural u) (_store u).

Definition getsource (u : pounit) : string * string := (source u, source_plural u).

Definition setcontext (ctx : string) (u : pounit) : pounit :=
  MkUnit (source u) (source_plural u) ctx (target u) (fuzzy u) (obsolete u)
    (locations u) (notes_developer u) (notes_translator u) (typecomments u)
    (prev_msgctxt u) (prev_msgid u) (prev_msgid_plural u) (_store u).

Definition settarget (t : target_t) (u : pounit) : pounit :=
  MkUnit (source u) (source_plural u) (context u) t (fuzzy u) (obsolete u)
    (locations u) (notes_developer u) (notes_translator u) (typecomments u)
    (prev_msgctxt u) (prev_msgid u) (prev_msgid_plural u) (_store u).

Definition markfuzzy (present : bool) (u : pounit) : pounit :=
  MkUnit (source u) (source_plural u) (context u) (target u) present (obsolete u)
    (locations u) (notes_developer u) (notes_translator u) (typecomments u)
    (prev_msgctxt u) (prev_msgid u) (prev_msgid_plural u) (_store u).

Definition makeobsolete (u : pounit) : pounit :=
  MkUnit (source u) (source_plural u) (context u) (target u) (fuzzy u) true
    (locations u) (notes_developer u) (notes_translator u) (typecomments u)
    (prev_msgctxt u) (prev_msgid u) (prev_msgid_plural u) (_store u).

Definition getlocations (u : pounit) : list string := locations u.

Definition addlocation (l : string) (u : pounit) : pounit :=
  MkUnit (source u) (source_plural u) (context u) (target u) (fuzzy u) (obsolete u)
    (locations u ++ [l]) (notes_developer u) (notes_translator u) (typecomments u)
    (prev_msgctxt u) (prev_msgid u) (prev_msgid_plural u) (_store u).

(** The lines of [getnotes(origin)]. *)
Definition notes (o : origin) (u : pounit) : list string :=
  match o with
  | developer => notes_developer u
  | translator => notes_translator u
  end.

(** [getnotes(origin).split('\n')]: the lines of the notes, and one
    empty line when there is no note. *)
Definition getnotes_split (o : origin) (u : pounit) : list string :=
  match notes o u with
  | [] => [""]
  | lines => lines
  end.

(** A text without a character other than white space. *)
Fixpoint is_blank_text (s : string) : bool :=
  match s with
  | EmptyString => true
  | String c s' => Re.is_space c && is_blank_text s'
  end.

(** [addnote(text, origin)]: one more line of notes; a text without a
    visible character is ignored. *)
Definition addnote (text : string) (o : origin) (u : pounit) : pounit :=
  if is_blank_text text then u
  else match o with
       | developer =>
           MkUnit (source u) (source_plural u) (context u) (target u) (fuzzy u)
             (obsolete u) (locations u) (notes_developer u ++ [text])
             (notes_translator u) (typecomments u)
             (prev_msgctxt u) (prev_msgid u) (prev_msgid_plural u) (_store u)
       | translator =>
           MkUnit (source u) (source_plural u) (context u) (target u) (fuzzy u)
             (obsolete u) (locations u) (notes_developer u)
             (notes_translator u ++ [text]) (typecomments u)
             (prev_msgctxt u) (prev_msgid u) (prev_msgid_plural u) (_store u)
       end.

Definition set_typecomments (tc : list string) (u : pounit) : pounit :=
  MkUnit (source u) (source_plural u) (context u) (target u) (fuzzy u) (obsolete u)
    (locations u) (notes_developer u) (notes_translator u) tc
    (prev_msgctxt u) (prev_msgid u) (prev_msgid_plural u) (_store u).

(** The three assignments [out.prev_msgctxt = unit.prev_msgctxt], ... *)
Definition set_prev (from : pounit) (u : pounit) : pounit :=
  MkUnit (source u) (source_plural u) (context u) (target u) (fuzzy u) (obsolete u)
    (locations u) (notes_developer u) (notes_translator u) (typecomments u)
    (prev_msgctxt from) (prev_msgid from) (prev_msgid_plural from) (_store u).

(** The [strings] of a multistring. *)
Definition strings_at (h : heap) (l : loc) : list string :=
  match h !! l with
  | Some ss => ss
  | None => []
  end.

(** The text of a target: the string itself, or the first of the
    [strings] of a multistring. *)
Definition target_text (h : heap) (t : target_t) : string :=
  match t with
  | TStr s => s
  | TMulti l => match strings_at h l with s :: _ => s | [] => "" end
  end.

(** [left == right] on targets: two multistrings are equal when all
    their strings are; a multistring and a string are compared on the
    text. *)
Definition target_eq (h : heap) (left right : target_t) : bool :=
  match left, right with
  | TMulti l1, TMulti l2 => bool_decide (strings_at h l1 = strings_at h l2)
  | _, _ => bool_decide (target_text h left = target_text h right)
  end.

(** [bool(target)] *)
Definition target_bool (h : heap) (t : target_t) : bool :=
  negb (bool_decide (target_text h t = "")).

End Unit.

(** ** The state of the merge: the heap, with exceptions *)

Definition M (A : Type) : Type := heap → result (A * heap).

Definition mret {A} (a : A) : M A := λ h, Ok (a, h).
Definition mraise {A} (e : exn) : M A := λ _, Raise e.
Definition mlift {A} (r : result A) : M A :=
  λ h, match r with Ok a => Ok (a, h) | Raise e => Raise e end.
Definition mbind {A B} (x : M A) (f : A → M B) : M B :=
  λ h, match x h with
       | Ok (a, h') => f a h'
       | Raise e => Raise e
       end.
(** Reading the heap. *)
Definition mread {A} (f : heap → A) : M A := λ h, Ok (f h, h).
(** [multistring(strings)]: a new object. *)
Definition malloc (ss : list string) : M loc := λ h, Ok (length h, h ++ [ss]).
(** Replacing the contents of the list at [l], as a run of [append]s does. *)
Definition mstore (l : loc) (ss : list string) : M unit := λ h, Ok (tt, <[l := ss]> h).

Declare Scope m_scope.
Delimit Scope m_scope with M.
Notation "x ← g ; k" := (mbind g (λ x, k))
  (at level 20, g at level 100, k at level 200, only parsing) : m_scope.
Notation "' p ← g ; k" := (mbind g (λ x, match x with p => k end))
  (at level 20, p pattern, g at level 100, k at level 200, only parsing) : m_scope.
Notation "g ;; k" := (mbind g (λ _, k))
  (at level 100, k at level 200, right associativity, only parsing) : m_scope.

(** ** DiffUtils *)

Module DiffUtils.

(** [DiffUtils.merge_simple]: three-way merge of a scalar compared with
    [==]; the three values are of one type with decidable equality
    (booleans, or [None] and the elements of a list). *)
Definition merge_simple {A} `{EqDecision A} (base local remote : A) : result A :=
  if decide (base = remote) then Ok local
  else if decide (base = local) then Ok remote
  else if decide (local = remote) then Ok local
  else Raise ValueError.

(** The list comprehension of [merge_list] over the triples the matcher
    yields: [merge_simple] on each triple, in order, dropping [None]. *)
Fixpoint merge_triples {A} `{EqDecision A}
    (ts : list (option A * option A * option A)) : result (list A) :=
  match ts with
  | [] => Ok []
  | (b, l, r) :: ts' =>
      (o ← merge_simple b l r;
       os ← merge_triples ts';
       Ok (match o with Some x => x :: os | None => os end))%res
  end.

(** [DiffUtils.merge_list]: the matcher with its default key function
    [lambda x: x] and deleted function [lambda x: False].  The
    comprehension consumes the generator as it goes, so an exception of
    [merge_simple] comes before the one the matcher may end with. *)
Definition merge_list {A} `{Countable A} (base local remote : list A)
    : result (list A) :=
  let '(ts, fin) := SetMatcher3.match_ (λ x : A, x) (λ _, false) base local remote in
  (os ← merge_triples ts;
   _ ← fin;
   Ok os)%res.

Section Abstract.
Context `{CatalogLayer}.

(** The methods a concrete differ supplies: [empty_unit(template)] and
    [_merge_unit(base, local, remote)]. *)
Variable empty_unit : pounit → pounit.
Variable _merge_unit : pounit → pounit → pounit → M (pounit * nat).

(** [DiffUtils.clone_unit]: [deepcopy(unit)].  The copy of a unit has a
    multistring of its own; the copy of [None] is [None]. *)
Definition clone_unit (unit : option pounit) : M (option pounit) :=
  match unit with
  | None => mret None
  | Some u =>
      match target u with
      | TStr _ => mret (Some u)
      | TMulti l =>
          (ss ← mread (λ h, Unit.strings_at h l);
           l' ← malloc ss;
           mret (Some (Unit.settarget (TMulti l') u)))%M
      end
  end.

(** [u.makeobsolete()] on what [clone_unit] returned. *)
Definition makeobsolete (u : option pounit) : M (option pounit) :=
  match u with
  | Some u => mret (Some (Unit.makeobsolete u))
  | None => mraise AttributeError
  end.

(** [DiffUtils.merge_unit] *)
Definition merge_unit (base local remote : option pounit)
    : M (option pounit * nat) :=
  match base, local, remote with
  | None, None, None => mraise AssertionError
  | None, _, None => (u ← clone_unit local; mret (u, 0))%M
  | None, None, _ => (u ← clone_unit remote; mret (u, 0))%M
  | None, Some l, Some r =>
      ('(u, c) ← _merge_unit (empty_unit l) l r; mret (Some u, c))%M
  | Some b, _, None =>
      (u ← clone_unit local;
       u ← (if negb (Unit.isobsolete b) then makeobsolete u else mret u);
       mret (u, 0))%M
  | Some b, None, _ =>
      (u ← clone_unit remote;
       u ← (if negb (Unit.isobsolete b) then makeobsolete u else mret u);
       mret (u, 0))%M
  | Some b, Some l, Some r =>
      ('(u, c) ← _merge_unit b l r; mret (Some u, c))%M
  end.

(** The three lists and the counter that the loop of [merge] fills. *)
Record buckets : Type := MkBuckets {
  headers : list pounit;
  normal : list pounit;
  obsolete_units : list pounit;
  conflicts : nat;
}.

(** The body of the loop of [merge] for one triple. *)
Definition merge_step (bk : buckets) (t : option pounit * option pounit * option pounit)
    : M buckets :=
  let '(bu, lu, ru) := t in
  ('(u, c) ← merge_unit bu lu ru;
   bk ← match u with
        | Some u =>
            if isheader u then
              mret (MkBuckets (headers bk ++ [u]) (normal bk) (obsolete_units bk)
                      (conflicts bk))
            else if Unit.isobsolete u then
              mret (MkBuckets (headers bk) (normal bk) (obsolete_units bk ++ [u])
                      (conflicts bk))
            else
              mret (MkBuckets (headers bk) (normal bk ++ [u]) (obsolete_units bk)
                      (conflicts bk))
        | None => mret bk
        end;
   mret (MkBuckets (headers bk) (normal bk) (obsolete_units bk) (conflicts bk + c)))%M.

Fixpoint merge_loop (bk : buckets)
    (ts : list (option pounit * option pounit * option pounit)) : M buckets :=
  match ts with
  | [] => mret bk
  | t :: ts' => (bk ← merge_step bk t; merge_loop bk ts')%M
  end.

(** [DiffUtils.merge] on the unit sequences of the three catalogs; the
    result is the unit sequence of the new catalog and the number of
    conflicts.  The loop takes the triples as the matcher yields them, so
    an exception of [merge_unit] comes before the one the matcher may end
    with. *)
Definition merge (base local remote : list pounit) : M (list pounit * nat) :=
  let '(ts, fin) := SetMatcher3.match_ Unit.getid Unit.isobsolete base local remote in
  (bk ← merge_loop (MkBuckets [] [] [] 0) ts;
   _ ← mlift fin;
   mret (headers bk ++ normal bk ++ obsolete_units bk, conflicts bk))%M.

End Abstract.

End DiffUtils.

(** ** _PoFileDiff: the differ of PO catalogs *)

Module _PoFileDiff.
Section PoFileDiff.
Context `{CatalogLayer} `{Clock}.

(** [_PoFileDiff.empty_unit] *)
Definition empty_unit (template : pounit) : pounit :=
  let unit := Unit.new in
  let unit := Unit.setsource (Unit.getsource template) unit in
  let unit := Unit.setcontext (context template) unit in
  unit.

(** [_PoFileDiff._equal_translation] *)
Definition _equal_translation (h : heap) (left right : pounit) : bool :=
  Unit.target_eq h (target left) (target right)
  && (bool_decide (Unit.isfuzzy left = Unit.isfuzzy right)
      || negb (Unit.target_bool h (target left))).

(** [_PoFileDiff._get_types] *)
Definition _get_types (unit : pounit) : list string :=
  filter (λ t, t ≠ "fuzzy") (findall_types (Py.join Py.nl (typecomments unit))).

(** [_PoFileDiff._set_types] *)
Definition _set_types (unit : pounit) (types : list string) : result pounit :=
  match types with
  | _ :: _ =>
      (line ← Py.format ("#, %s" +:+ Py.nl) [Py.join ", " types];
       Ok (Unit.set_typecomments [line] unit))%res
  | [] => Ok (Unit.set_typecomments [] unit)
  end.

(** [_PoFileDiff._template_headers] *)
Definition _template_headers : list string :=
  ["Project-Id-Version"; "Report-Msgid-Bugs-To"; "POT-Creation-Date";
   "Language-Team"].

(** The local function [newer] of [_merge_header]. *)
Definition newer (left right : Py.dict) (attribute : string) : result bool :=
  (tl ← Time._get_time (Py.get left attribute);
   tr ← Time._get_time (Py.get right attribute);
   Ok (bool_decide (tr ≤ tl)%Z))%res.

(** [getattr(unit._store, 'filename', other)] *)
Definition store_filename (unit : pounit) (other : string) : string :=
  match _store unit with
  | Some st => match filename st with Some f => f | None => other end
  | None => other
  end.

(** The text of the note of a header conflict,
    [u'(conflict) %(file)s (%(project)s): %(key)s: %(value)s' % {...}]. *)
Definition conflict_note (file project key value : string) : string :=
  "(conflict) " +:+ file +:+ " (" +:+ project +:+ "): " +:+ key +:+ ": " +:+ value.

(** [out.target += text] *)
Definition target_append (h : heap) (text : string) (out : pounit) : pounit :=
  Unit.settarget (TStr (Unit.target_text h (target out) +:+ text)) out.

(** The body of the loop of [_merge_header] for one key: the unit [out]
    and the counter [c] after it. *)
Definition merge_header_key (base_dict local_dict remote_dict : Py.dict)
    (local remote : pounit) (key : string) (st : pounit * nat)
    : M (pounit * nat) :=
  let '(out, c) := st in
  let b := Py.get base_dict key in
  let l := Py.get local_dict key in
  let r := Py.get remote_dict key in
  ('(res, out, c) ←
     (if decide (b = l) then mret (r, out, c)
      else if decide (b = r ∨ l = r) then mret (l, out, c)
      else
        use_local ← mlift (if Py.mem key _template_headers
                           then newer local_dict remote_dict "POT-Creation-Date"
                           else newer local_dict remote_dict "PO-Revision-Date");
        let '(used, other, ofile) :=
          if use_local : bool then (local_dict, remote_dict, remote)
          else (remote_dict, local_dict, local) in
        let res := Py.get used key in
        let out :=
          Unit.addnote
            (conflict_note
               (store_filename ofile (if use_local then "remote" else "local"))
               (Py.get_default other "Project-Id-Version" "???")
               key
               (Py.get_default other key "<unset>"))
            translator out in
        mret (res, out, 1));
   match res with
   | Some res =>
       line ← mlift (Py.format ("%s: %s" +:+ Py.nl) [key; res]);
       out ← mread (λ h, target_append h line out);
       mret (out, c)
   | None => mret (out, c)
   end)%M.

Fixpoint merge_header_keys (base_dict local_dict remote_dict : Py.dict)
    (local remote : pounit) (allkeys : list string) (st : pounit * nat)
    : M (pounit * nat) :=
  match allkeys with
  | [] => mret st
  | key :: allkeys' =>
      (st ← merge_header_key base_dict local_dict remote_dict local remote key st;
       merge_header_keys base_dict local_dict remote_dict local remote allkeys' st)%M
  end.

(** [_PoFileDiff._merge_header]: the unit [out] as the method leaves
    it, and the number it returns. *)
Definition _merge_header (out base local remote : pounit) : M (pounit * nat) :=
  (base_dict ← mread (λ h, parseheaderstring (Unit.target_text h (target base)));
   local_dict ← mread (λ h, parseheaderstring (Unit.target_text h (target local)));
   remote_dict ← mread (λ h, parseheaderstring (Unit.target_text h (target remote)));
   let out := Unit.settarget (TStr "") out in
   let c := 0 in
   allkeys ← mlift (DiffUtils.merge_list (Py.keys base_dict) (Py.keys local_dict)
                      (Py.keys remote_dict));
   '(out, c) ← merge_header_keys base_dict local_dict remote_dict local remote
                 allkeys (out, c);
   fz ← mlift (DiffUtils.merge_simple (Unit.isfuzzy base) (Unit.isfuzzy local)
                 (Unit.isfuzzy remote));
   mret (Unit.markfuzzy fz out, c))%M.

(** The local function [set_translation_from] of [_merge_target]. *)
Definition set_translation_from (unit out : pounit) : pounit :=
  let out := Unit.settarget (target unit) out in
  let out := match prev_msgid unit with
             | _ :: _ => Unit.set_prev unit out
             | [] => out
             end in
  Unit.markfuzzy (Unit.isfuzzy unit) out.

(** [0 if unit.isblank() else 1 if unit.isfuzzy() else 2] *)
Definition quality (unit : pounit) : nat :=
  if isblank unit then 0 else if Unit.isfuzzy unit then 1 else 2.

(** What [getattr(unit.target, "strings", [unit.target])] is bound to: the
    [strings] list of the multistring itself, or a new list. *)
Inductive strings_ref : Type :=
  | Shared (l : loc)
  | Fresh (ss : list string).

Definition getattr_strings (t : target_t) : strings_ref :=
  match t with
  | TMulti l => Shared l
  | TStr s => Fresh [s]
  end.

Definition ref_strings (h : heap) (r : strings_ref) : list string :=
  match r with
  | Shared l => Unit.strings_at h l
  | Fresh ss => ss
  end.

(** [while len(xs) < n: xs.append(u"")] *)
Definition pad_to (n : nat) (xs : strings_ref) : M strings_ref :=
  (ss ← mread (λ h, ref_strings h xs);
   let ss' := ss ++ replicate (n - length ss) "" in
   match xs with
   | Shared l => (mstore l ss';; mret xs)
   | Fresh _ => mret (Fresh ss')
   end)%M.

(** [unit._store.parseheader().get("Project-Id-Version", u"???")] *)
Definition store_project (unit : pounit) : result string :=
  match _store unit with
  | Some st => Ok (Py.get_default (parseheader st) "Project-Id-Version" "???")
  | None => Raise AttributeError
  end.

(** The format the conflict marker is made from, before its first [%]. *)
Definition marker_format : string :=
  "#-#-#-#-#  %s (%s)  #-#-#-#-#" +:+ Py.nl +:+ "%%s" +:+ Py.nl +:+
  "#-#-#-#-#  %s (%s)  #-#-#-#-#" +:+ Py.nl +:+ "%%s" +:+ Py.nl.

(** [[tmpl % (l, r) for l, r in zip(ls, rs)]] *)
Fixpoint format_pairs (tmpl : string) (ls rs : list string) : result (list string) :=
  match ls, rs with
  | l :: ls', r :: rs' =>
      (s ← Py.format tmpl [l; r];
       ss ← format_pairs tmpl ls' rs';
       Ok (s :: ss))%res
  | _, _ => Ok []
  end.

(** [multistring(strings)] *)
Definition multistring (ss : list string) : M target_t :=
  match ss with
  | [] => mraise ValueError
  | _ :: _ => (l ← malloc ss; mret (TMulti l))%M
  end.

(** [xs[0]] *)
Definition first (ss : list string) : result string :=
  match ss with
  | s :: _ => Ok s
  | [] => Raise IndexError
  end.

(** The last branch of [_merge_target]: the two sides have the same
    quality. *)
Definition conflict_marker (out local remote : pounit) : M (pounit * nat) :=
  (let ls := getattr_strings (target local) in
   let rs := getattr_strings (target remote) in
   tmpl ← mlift (pl ← store_project local;
                 pr ← store_project remote;
                 Py.format marker_format
                   [store_filename local "local"; pl;
                    store_filename remote "remote"; pr])%res;
   n ← mread (λ h, length (ref_strings h rs));
   ls ← pad_to n ls;
   n ← mread (λ h, length (ref_strings h ls));
   rs ← pad_to n rs;
   lss ← mread (λ h, ref_strings h ls);
   rss ← mread (λ h, ref_strings h rs);
   t ← (if hasplural local then
          ss ← mlift (format_pairs tmpl lss rss);
          multistring ss
        else
          l0 ← mlift (first lss);
          r0 ← mlift (first rss);
          s ← mlift (Py.format tmpl [l0; r0]);
          mret (TStr s));
   mret (Unit.markfuzzy true (Unit.settarget t out), 1))%M.

(** [_PoFileDiff._merge_target]: the unit [out] as the method leaves it,
    and the number it returns. *)
Definition _merge_target (out base local remote : pounit) : M (pounit * nat) :=
  (eq_bl ← mread (λ h, _equal_translation h base local);
   if eq_bl : bool then mret (set_translation_from remote out, 0)
   else
     eq_br ← mread (λ h, _equal_translation h base remote);
     if eq_br : bool then mret (set_translation_from local out, 0)
     else
       eq_lr ← mread (λ h, _equal_translation h local remote);
       if eq_lr : bool then mret (set_translation_from local out, 0)
       else
         let lqual := quality local in
         let rqual := quality remote in
         if decide (rqual < lqual) then mret (set_translation_from local out, 0)
         else if decide (lqual < rqual) then mret (set_translation_from remote out, 0)
         else conflict_marker out local remote)%M.

(** [_PoFileDiff._merge_unit] *)
Definition _merge_unit (base local remote : pounit) : M (pounit * nat) :=
  (let out := empty_unit local in
   ls ← mlift (DiffUtils.merge_list (Unit.getlocations base)
                 (Unit.getlocations local) (Unit.getlocations remote));
   let out := foldl (λ out l, Unit.addlocation l out) out ls in
   ns ← mlift (DiffUtils.merge_list (Unit.getnotes_split developer base)
                 (Unit.getnotes_split developer local)
                 (Unit.getnotes_split developer remote));
   let out := foldl (λ out n, Unit.addnote n developer out) out ns in
   ns ← mlift (DiffUtils.merge_list (Unit.getnotes_split translator base)
                 (Unit.getnotes_split translator local)
                 (Unit.getnotes_split translator remote));
   let out := foldl (λ out n, Unit.addnote n translator out) out ns in
   types ← mlift (DiffUtils.merge_list (_get_types base) (_get_types local)
                    (_get_types remote));
   out ← mlift (_set_types out types);
   obs ← mlift (DiffUtils.merge_simple (Unit.isobsolete base)
                  (Unit.isobsolete local) (Unit.isobsolete remote));
   let out := if obs : bool then Unit.makeobsolete out else out in
   if isheader local then _merge_header out base local remote
   else _merge_target out base local remote)%M.

(** The differ, with the methods of [DiffUtils] it inherits. *)
Definition merge_unit := DiffUtils.merge_unit empty_unit _merge_unit.
Definition merge := DiffUtils.merge empty_unit _merge_unit.

End PoFileDiff.
End _PoFileDiff.

(** ** A catalog layer and a clock to run the engine on

    The classification of units and the header parser of
    [translate.storage.pypo] and [translate.storage.poheader], and the
    clock of a machine whose local time is UTC.  The properties of the
    engine below hold for every catalog layer and every clock; these two
    are the ones the examples are run on. *)

Module PyPo.

(** A target with some text; a multistring counts as one. *)
Definition has_msgstr (u : pounit) : bool :=
  match target u with
  | TStr s => negb (bool_decide (s = ""))
  | TMulti _ => true
  end.

(** [isheader]: no [msgid], and a [msgstr]. *)
Definition isheader (u : pounit) : bool :=
  bool_decide (source u = "") && has_msgstr u.

(** [isblank]: no [msgid], no [msgstr], no [msgctxt]. *)
Definition isblank (u : pounit) : bool :=
  bool_decide (source u = "") && negb (has_msgstr u)
  && bool_decide (context u = "").

(** [hasplural]: a [msgid_plural]. *)
Definition hasplural (u : pounit) : bool :=
  negb (bool_decide (source_plural u = "")).

(** [s.split(sep)] for a separator of one character. *)
Fixpoint split (sep : ascii) (s : string) : list string :=
  match s with
  | EmptyString => [""]
  | String c s' =>
      if Ascii.eqb c sep then "" :: split sep s'
      else match split sep s' with
           | x :: xs => String c x :: xs
           | [] => [String c ""]
           end
  end.

(** [s.split(sep, 1)] when [sep] occurs in [s]. *)
Fixpoint split1 (sep : ascii) (s : string) : option (string * string) :=
  match s with
  | EmptyString => None
  | String c s' =>
      if Ascii.eqb c sep then Some ("", s')
      else match split1 sep s' with
           | Some (x, y) => Some (String c x, y)
           | None => None
           end
  end.

Fixpoint lstrip (s : string) : string :=
  match s with
  | String c s' => if Re.is_space c then lstrip s' else s
  | EmptyString => s
  end.

Fixpoint rstrip (s : string) : string :=
  match s with
  | String c s' =>
      match rstrip s' with
      | EmptyString => if Re.is_space c then "" else String c ""
      | r => String c r
      end
  | EmptyString => s
  end.

Definition strip (s : string) : string := rstrip (lstrip s).

(** [d[key] = value] on an ordered dictionary. *)
Fixpoint setitem (d : Py.dict) (key value : string) : Py.dict :=
  match d with
  | [] => [(key, value)]
  | (k, v) :: d' =>
      if decide (k = key) then (k, value) :: d' else (k, v) :: setitem d' key value
  end.

(** [poheader.parseheaderstring] *)
Definition parseheaderstring (input : string) : Py.dict :=
  foldl (λ headervalues line,
           match split1 ":" line with
           | Some (key, value) => setitem headervalues (strip key) (strip value)
           | None => headervalues
           end)
        [] (split (ascii_of_nat 10) input).

(** [\w] and [[-\w]] for a pattern compiled without flags. *)
Definition is_word (c : ascii) : bool :=
  let n := nat_of_ascii c in
  ((48 <=? n) && (n <=? 57)) || ((65 <=? n) && (n <=? 90))
  || ((97 <=? n) && (n <=? 122)) || (n =? 95).
Definition is_type_char (c : ascii) : bool := is_word c || Ascii.eqb c "-".

(** A run of [[-\w]] without the hyphens at its two ends. *)
Fixpoint drop_hyphens (s : string) : string :=
  match s with
  | String c s' => if is_word c then s else drop_hyphens s'
  | EmptyString => s
  end.
Fixpoint drop_hyphens_end (s : string) : string :=
  match s with
  | String c s' =>
      match drop_hyphens_end s' with
      | EmptyString => if is_word c then String c "" else ""
      | r => String c r
      end
  | EmptyString => s
  end.

(** The maximal runs of [[-\w]] of a text. *)
Fixpoint runs (s : string) (cur : string) : list string :=
  match s with
  | EmptyString => [cur]
  | String c s' =>
      if is_type_char c then runs s' (cur +:+ String c "")
      else cur :: runs s' ""
  end.

(** [re.findall(r"\b[-\w]+\b", text)] *)
Definition findall_types (text : string) : list string :=
  filter (λ t, t ≠ "")
    ((λ r, drop_hyphens_end (drop_hyphens r)) <$> runs text "").

#[export] Instance layer : CatalogLayer :=
  Build_CatalogLayer isheader isblank hasplural parseheaderstring findall_types.

(** Days from 1970-01-01 to a date of the proleptic Gregorian calendar. *)
Definition days_from_civil (y m d : Z) : Z :=
  let y := (if m <=? 2 then y - 1 else y)%Z in
  let era := (y / 400)%Z in
  let yoe := (y - era * 400)%Z in
  let mp := (if m <=? 2 then m + 9 else m - 3)%Z in
  let doy := ((153 * mp + 2) / 5 + d - 1)%Z in
  let doe := (yoe * 365 + yoe / 4 - yoe / 100 + doy)%Z in
  (era * 146097 + doe - 719468)%Z.

(** [time.mktime] where the local time is UTC. *)
Definition mktime_utc (t : struct_time) : result Z :=
  let '(y, mo, d, hh, mi, ss, _, _, _) := t in
  Ok (days_from_civil y mo d * 86400 + hh * 3600 + mi * 60 + ss)%Z.

#[export] Instance utc : Clock := Build_Clock mktime_utc 0%Z.

End PyPo.

(** * Part II: properties *)

(** ** The three-way set matcher *)

Module Matcher3Facts.
Import SetMatcher3.
Section Facts.
Context {U K : Type} `{Countable K}.
Variable keyfunc : U → K.
Variable deletedfunc : U → bool.

Local Abbreviation imap := (gmap K (_Item3 U)).
Local Abbreviation triple := (@SetMatcher3.triple U).
Implicit Types (m : imap) (u : U) (k : K) (w lw rw bw : list U).

(** The slot a key has, and whether it is done. *)
Definition slot_of (i : _Item3 U) : triple := (i3_base i, i3_local i, i3_remote i).
Definition sl m k : option triple := slot_of <$> m !! k.
Definition dn m k : bool :=
  match m !! k with Some i => i3_done i | None => false end.
Definition item_at m k : _Item3 U :=
  match m !! k with Some i => i | None => new_item end.

(** The unit that [_fill_item_map] leaves in the slot of [k]: the last
    unit of the sequence with this key. *)
Fixpoint find_key (k : K) (units : list U) : option U :=
  match units with
  | [] => None
  | u :: units' =>
      match find_key k units' with
      | Some x => Some x
      | None => if decide (keyfunc u = k) then Some u else None
      end
  end.

Lemma find_key_Some k units u :
  find_key k units = Some u → keyfunc u = k ∧ u ∈ units.
Proof.
  induction units as [|x units IH]; simpl; [done|].
  destruct (find_key k units) as [y|].
  - intros [= ->]. destruct IH as [? ?]; [done|]. split; [done|]. by right.
  - case_decide; [|done]. intros [= ->]. split; [done|]. by left.
Qed.

Lemma find_key_None k units :
  find_key k units = None ↔ k ∉ keyfunc <$> units.
Proof.
  induction units as [|x units IH]; simpl.
  - split; [|done]. intros _ Hin. by apply elem_of_nil in Hin.
  - rewrite not_elem_of_cons. destruct (find_key k units) as [y|].
    + split; [done|]. intros [_ Hn]. apply IH in Hn. done.
    + case_decide as Hk.
      * split; [done|]. intros [Hne _]. by subst.
      * split; [|done]. intros _. split; [congruence|]. by apply IH.
Qed.

Lemma find_key_is_Some k units :
  is_Some (find_key k units) ↔ k ∈ keyfunc <$> units.
Proof.
  destruct (find_key k units) as [u|] eqn:E.
  - split; [|by eauto]. intros _. apply find_key_Some in E as [<- Hin].
    by apply list_elem_of_fmap_2.
  - split; [by intros [? ?]|]. intros Hin. by apply find_key_None in E.
Qed.

Lemma find_key_NoDup units u :
  NoDup (keyfunc <$> units) → u ∈ units → find_key (keyfunc u) units = Some u.
Proof.
  induction units as [|x units IH]; simpl.
  - intros _ Hin. by apply elem_of_nil in Hin.
  - rewrite NoDup_cons. intros [Hx Hnd] Hin.
    apply elem_of_cons in Hin as [->|Hin].
    + assert (find_key (keyfunc x) units = None) as -> by by apply find_key_None.
      by rewrite decide_True.
    + by rewrite IH.
Qed.

Lemma setattr_setattr (i : _Item3 U) f u u' :
  setattr (setattr i f u) f u' = setattr i f u'.
Proof. by destruct f. Qed.

(** What [_fill_item_map] stores under each key. *)
Lemma fill_lookup f units m k :
  _fill_item_map keyfunc f units m !! k =
    match find_key k units with
    | Some u => Some (setattr (item_at m k) f u)
    | None => m !! k
    end.
Proof.
  revert m. induction units as [|x units IH]; intros m; simpl; [done|].
  rewrite IH. destruct (find_key k units) as [y|].
  - f_equal. unfold item_at at 1. rewrite lookup_insert. case_decide as Hk.
    + subst k. unfold item_at. by rewrite setattr_setattr.
    + done.
  - rewrite lookup_insert. case_decide as Hk; [subst k|]; done.
Qed.

(** The item map [match] starts from. *)
Definition initial_map (base local remote : list U) : imap :=
  _fill_item_map keyfunc Fremote remote
    (_fill_item_map keyfunc Flocal local
      (_fill_item_map keyfunc Fbase base ∅)).

Definition in_inputs (base local remote : list U) (k : K) : Prop :=
  k ∈ keyfunc <$> base ∨ k ∈ keyfunc <$> local ∨ k ∈ keyfunc <$> remote.

Lemma initial_map_lookup base local remote k :
  in_inputs base local remote k →
  initial_map base local remote !! k =
    Some (MkItem3 false (find_key k base) (find_key k local) (find_key k remote)).
Proof.
  intros Hin. unfold initial_map. rewrite !fill_lookup, lookup_empty.
  unfold item_at. rewrite !fill_lookup, lookup_empty.
  unfold item_at. rewrite !fill_lookup, lookup_empty.
  destruct (find_key k base) as [b|] eqn:Eb,
           (find_key k local) as [l|] eqn:El,
           (find_key k remote) as [r|] eqn:Er; try done.
  exfalso. apply find_key_None in Eb, El, Er.
  unfold in_inputs in Hin. tauto.
Qed.

Lemma initial_map_None base local remote k :
  ¬ in_inputs base local remote k → initial_map base local remote !! k = None.
Proof.
  intros Hin. unfold initial_map. rewrite !fill_lookup, lookup_empty.
  assert (find_key k base = None) as ->.
  { apply find_key_None. unfold in_inputs in Hin. tauto. }
  assert (find_key k local = None) as ->.
  { apply find_key_None. unfold in_inputs in Hin. tauto. }
  assert (find_key k remote = None) as ->.
  { apply find_key_None. unfold in_inputs in Hin. tauto. }
  done.
Qed.

(** *** Marking a slot done *)

Lemma sl_mark m k0 i k :
  m !! k0 = Some i → sl (<[k0 := set_done i]> m) k = sl m k.
Proof.
  intros Hi. unfold sl. rewrite lookup_insert. case_decide; [subst k|done].
  by rewrite Hi.
Qed.

Lemma dn_mark m k0 i k :
  dn (<[k0 := set_done i]> m) k = if decide (k0 = k) then true else dn m k.
Proof. unfold dn. rewrite lookup_insert. by case_decide. Qed.

Lemma lookup_mark_Some m k0 i0 k i :
  m !! k0 = Some i0 →
  <[k0 := set_done i0]> m !! k = Some i → i3_done i = false →
  k ≠ k0 ∧ m !! k = Some i.
Proof.
  intros Hi0. rewrite lookup_insert. case_decide.
  - intros [= <-]. done.
  - intros ? _. split; [congruence|done].
Qed.

Lemma is_Some_lookup_mark m k0 i0 k :
  is_Some (m !! k) → is_Some (<[k0 := set_done i0]> m !! k).
Proof. rewrite lookup_insert. case_decide; [by eauto|done]. Qed.

Lemma emit_eq m u i :
  m !! keyfunc u = Some i → i3_done i = false →
  emit keyfunc m u = ([slot_of i], Ok (<[keyfunc u := set_done i]> m)).
Proof.
  intros Hi Hd. unfold emit, _item. rewrite Hi. simpl. rewrite Hd. done.
Qed.

(** *** The sweep *)

Lemma skip_done_spec m w :
  (∀ u, u ∈ w → is_Some (m !! keyfunc u)) →
  ∃ w', skip_done keyfunc m w = Ok w'
    ∧ w' `suffix_of` w
    ∧ (∀ u, head w' = Some u → dn m (keyfunc u) = false)
    ∧ (∀ k, k ∈ keyfunc <$> w → dn m k = false → k ∈ keyfunc <$> w').
Proof.
  induction w as [|x w IH]; intros Hdom; simpl.
  - exists []. split_and!; done.
  - destruct (Hdom x) as [i Hi]; [by left|]. unfold _item. rewrite Hi. simpl.
    destruct (i3_done i) eqn:Hd.
    + destruct IH as (w' & Hw' & Hsuf & Hhead & Hkeys).
      { intros u Hu. apply Hdom. by right. }
      exists w'. split_and!; [done| by apply suffix_cons_r |done|].
      intros k Hk Hnd. apply Hkeys; [|done].
      rewrite ?fmap_cons in Hk. apply elem_of_cons in Hk as [->|Hk]; [|done].
      unfold dn in Hnd. rewrite Hi in Hnd. congruence.
    + exists (x :: w). split_and!; [done|done| |done].
      intros u [= <-]. unfold dn. by rewrite Hi.
Qed.

(** *** The main loop *)

(** The loop invariant: the units still ahead have a slot (with the field
    of their side set), the units under the two walkers are not done, and
    a slot that is not done and has a local (remote) unit still has its
    key ahead in the local (remote) walker. *)
Record loop_inv m lw rw : Prop := {
  inv_dom_l : ∀ u, u ∈ lw → is_Some (m !! keyfunc u);
  inv_dom_r : ∀ u, u ∈ rw → ∃ i, m !! keyfunc u = Some i ∧ is_Some (i3_remote i);
  inv_head_l : ∀ u, head lw = Some u → dn m (keyfunc u) = false;
  inv_head_r : ∀ u, head rw = Some u → dn m (keyfunc u) = false;
  inv_ahead_l : ∀ k i, m !! k = Some i → is_Some (i3_local i) →
                  i3_done i = false → k ∈ keyfunc <$> lw;
  inv_ahead_r : ∀ k i, m !! k = Some i → is_Some (i3_remote i) →
                  i3_done i = false → k ∈ keyfunc <$> rw;
}.

(** What a run of yields amounts to: the slots of the keys [ks], each
    emitted once, none of them done before, all of them done after. *)
Record emitted m (ks : list K) (out : list triple) m' : Prop := {
  em_slots : Forall2 (λ k t, sl m k = Some t) ks out;
  em_nodup : NoDup ks;
  em_fresh : ∀ k, k ∈ ks → dn m k = false;
  em_sl : ∀ k, sl m' k = sl m k;
  em_dn : ∀ k, k ∈ ks → dn m' k = true;
  em_dn_mono : ∀ k, dn m k = true → dn m' k = true;
  em_dn_inv : ∀ k, dn m' k = true → dn m k = true ∨ k ∈ ks;
}.

Lemma emitted_nil m : emitted m [] [] m.
Proof.
  split; first [done | by constructor | by left
               | intros k Hk; by apply elem_of_nil in Hk].
Qed.

Lemma emitted_cons m u i ks out m' :
  m !! keyfunc u = Some i → i3_done i = false →
  emitted (<[keyfunc u := set_done i]> m) ks out m' →
  emitted m (keyfunc u :: ks) (slot_of i :: out) m'.
Proof.
  intros Hi Hd [Hs Hn Hf Hsl Hdn Hmono Hdinv]. split.
  - constructor.
    + unfold sl. by rewrite Hi.
    + eapply Forall2_impl; [exact Hs|]. intros k t Hk. simpl in Hk.
      by rewrite sl_mark in Hk.
  - apply NoDup_cons. split; [|done]. intros Hin. apply Hf in Hin.
    rewrite dn_mark, decide_True in Hin; done.
  - intros k Hk. apply elem_of_cons in Hk as [->|Hk].
    + unfold dn. by rewrite Hi.
    + apply Hf in Hk. rewrite dn_mark in Hk. by case_decide.
  - intros k. rewrite Hsl. by apply sl_mark.
  - intros k Hk. apply elem_of_cons in Hk as [->|Hk].
    + apply Hmono. rewrite dn_mark. by rewrite decide_True.
    + by apply Hdn.
  - intros k Hk. apply Hmono. rewrite dn_mark. by case_decide.
  - intros k Hk. apply Hdinv in Hk as [Hk|Hk].
    + rewrite dn_mark in Hk. case_decide as Hku; [subst k|by left].
      right. by left.
    + right. by right.
Qed.

(** Marking again a slot that is done changes nothing that matters. *)
Lemma emitted_remark m k0 i ks out m' :
  m !! k0 = Some i → i3_done i = true →
  emitted (<[k0 := set_done i]> m) ks out m' → emitted m ks out m'.
Proof.
  intros Hi Hd [Hs Hn Hf Hsl Hdn Hmono Hdinv].
  assert (∀ k, dn (<[k0 := set_done i]> m) k = dn m k) as Hsame.
  { intros k. rewrite dn_mark. case_decide; [subst k|done].
    unfold dn. by rewrite Hi. }
  split.
  - eapply Forall2_impl; [exact Hs|]. intros k t Hk. simpl in Hk.
    by rewrite sl_mark in Hk.
  - done.
  - intros k Hk. rewrite <- Hsame. by apply Hf.
  - intros k. rewrite Hsl. by apply sl_mark.
  - done.
  - intros k Hk. apply Hmono. by rewrite Hsame.
  - intros k Hk. rewrite <- Hsame. by apply Hdinv.
Qed.

Lemma emitted_is_Some m ks out m' k :
  emitted m ks out m' → k ∈ ks → is_Some (m !! k).
Proof.
  intros [Hs _ _ _ _ _ _] Hk. induction Hs as [|k' t ks out Hkt _ IH].
  - by apply elem_of_nil in Hk.
  - apply elem_of_cons in Hk as [->|Hk]; [|by apply IH].
    unfold sl in Hkt. destruct (m !! k'); [by eauto|done].
Qed.

Lemma not_local_ok m u :
  (∃ i, m !! keyfunc u = Some i ∧ is_Some (i3_remote i)) →
  ∃ b, not_local keyfunc deletedfunc m u = Ok b
    ∧ (b = false → ∃ i, m !! keyfunc u = Some i ∧ is_Some (i3_local i)).
Proof.
  intros (i & Hi & [r Hr]). unfold not_local, _item. rewrite Hi. simpl.
  destruct (i3_local i) as [l|] eqn:Hl.
  - rewrite Hr. destruct (deletedfunc l).
    + eexists. split; [done|]. intros _. exists i. rewrite Hl. eauto.
    + eexists. split; [done|]. intros _. exists i. rewrite Hl. eauto.
  - eexists. split; [done|]. done.
Qed.

(** One round of the loop: a slot is marked done, the walkers move on to
    [lw1] and [rw1], and the two sweeps run. *)
Lemma loop_inv_advance m lw rw u i lw1 rw1 :
  loop_inv m lw rw → m !! keyfunc u = Some i →
  (∀ x, x ∈ lw1 → x ∈ lw) → (∀ x, x ∈ rw1 → x ∈ rw) →
  (∀ k, k ∈ keyfunc <$> lw → k ≠ keyfunc u → k ∈ keyfunc <$> lw1) →
  (∀ k, k ∈ keyfunc <$> rw → k ≠ keyfunc u → k ∈ keyfunc <$> rw1) →
  ∃ lw2 rw2,
    skip_done keyfunc (<[keyfunc u := set_done i]> m) rw1 = Ok rw2
    ∧ skip_done keyfunc (<[keyfunc u := set_done i]> m) lw1 = Ok lw2
    ∧ loop_inv (<[keyfunc u := set_done i]> m) lw2 rw2
    ∧ length lw2 ≤ length lw1 ∧ length rw2 ≤ length rw1.
Proof.
  intros [Hdl Hdr Hhl Hhr Hal Har] Hi Hsubl Hsubr Hkl Hkr.
  set (m1 := <[keyfunc u := set_done i]> m).
  destruct (skip_done_spec m1 rw1) as (rw2 & Er & Hsr & Hheadr & Hkeysr).
  { intros x Hx. apply is_Some_lookup_mark.
    destruct (Hdr x) as (j & Hj & _); [by apply Hsubr|]. by eauto. }
  destruct (skip_done_spec m1 lw1) as (lw2 & El & Hsl & Hheadl & Hkeysl).
  { intros x Hx. apply is_Some_lookup_mark. apply Hdl. by apply Hsubl. }
  exists lw2, rw2. split_and!; [done|done| |by apply suffix_length..].
  split.
  - intros x Hx. apply is_Some_lookup_mark, Hdl, Hsubl.
    destruct Hsl as [pre ->]. apply elem_of_app. by right.
  - intros x Hx. destruct (Hdr x) as (j & Hj & Hrj).
    { apply Hsubr. destruct Hsr as [pre ->]. apply elem_of_app. by right. }
    unfold m1. rewrite lookup_insert. case_decide as Hk.
    + exists (set_done i). split; [done|]. rewrite <- Hk, Hi in Hj.
      by injection Hj as <-.
    + by exists j.
  - done.
  - done.
  - intros k j Hj Hlj Hd. eapply lookup_mark_Some in Hj as [Hne Hj]; [|done..].
    apply Hkeysl.
    + apply Hkl; [|done]. by eapply Hal.
    + unfold m1. rewrite dn_mark, decide_False by done. unfold dn. by rewrite Hj.
  - intros k j Hj Hrj Hd. eapply lookup_mark_Some in Hj as [Hne Hj]; [|done..].
    apply Hkeysr.
    + apply Hkr; [|done]. by eapply Har.
    + unfold m1. rewrite dn_mark, decide_False by done. unfold dn. by rewrite Hj.
Qed.

Lemma keys_tail_ne u w k :
  k ∈ keyfunc <$> (u :: w) → k ≠ keyfunc u → k ∈ keyfunc <$> w.
Proof.
  rewrite fmap_cons. intros Hk Hne. apply elem_of_cons in Hk as [?|?]; done.
Qed.

(** The main loop ends with both walkers exhausted, within the bound. *)
Lemma main_loop_spec fuel m lw rw :
  loop_inv m lw rw → length lw + length rw ≤ fuel →
  ∃ ks out m',
    main_loop keyfunc deletedfunc fuel m lw rw = (out, Ok (m', [], []))
    ∧ emitted m ks out m'
    ∧ loop_inv m' [] [].
Proof.
  revert m lw rw. induction fuel as [|fuel IH]; intros m lw rw Hinv Hlen.
  - destruct lw, rw; simpl in Hlen; try lia.
    exists [], [], m. split_and!; [done|apply emitted_nil|done].
  - destruct (decide (lw = [] ∧ rw = [])) as [[-> ->]|Hne].
    { exists [], [], m. split_and!; [done|apply emitted_nil|done]. }
    assert (main_loop keyfunc deletedfunc (S fuel) m lw rw =
      (inject ← glift (match _Walker.get rw with
                       | Some unit => not_local keyfunc deletedfunc m unit
                       | None => Ok false
                       end);
       '(item_map, lw, rw) ←
         (if inject : bool then
            match _Walker.get rw with
            | Some unit =>
                item_map ← emit keyfunc m unit;
                gret (item_map, lw, _Walker.next rw)
            | None => glift (Raise TypeError)
            end
          else
            match _Walker.get lw with
            | Some unit =>
                item_map ← emit keyfunc m unit;
                gret (item_map, _Walker.next lw, rw)
            | None => gret (m, lw, rw)
            end);
       rw ← glift (skip_done keyfunc item_map rw);
       lw ← glift (skip_done keyfunc item_map lw);
       main_loop keyfunc deletedfunc fuel item_map lw rw)%gen) as ->.
    { destruct lw, rw; try done. exfalso. by apply Hne. }
    (* which branch runs *)
    assert (∃ u i lw1 rw1 (inject : bool),
      (match _Walker.get rw with
       | Some unit => not_local keyfunc deletedfunc m unit
       | None => Ok false
       end) = Ok inject
      ∧ m !! keyfunc u = Some i ∧ i3_done i = false
      ∧ (if inject then rw = u :: rw1 ∧ lw1 = lw else lw = u :: lw1 ∧ rw1 = rw))
      as (u & i & lw1 & rw1 & inject & Einj & Hi & Hd & Hbranch).
    { destruct rw as [|r rw'].
      - destruct lw as [|l lw']; [by destruct Hne|].
        destruct (inv_dom_l _ _ _ Hinv l) as [i Hi]; [by left|].
        exists l, i, lw', [], false. refine (conj _ (conj _ (conj _ _))); [done|done| |done].
        pose proof (inv_head_l _ _ _ Hinv l eq_refl) as Hd.
        unfold dn in Hd. by rewrite Hi in Hd.
      - simpl. destruct (not_local_ok m r) as (b & Eb & Hb).
        { apply (inv_dom_r _ _ _ Hinv). by left. }
        destruct b.
        + destruct (inv_dom_r _ _ _ Hinv r) as (i & Hi & _); [by left|].
          exists r, i, lw, rw', true. refine (conj _ (conj _ (conj _ _))); [done|done| |done].
          pose proof (inv_head_r _ _ _ Hinv r eq_refl) as Hd.
          unfold dn in Hd. by rewrite Hi in Hd.
        + destruct (Hb eq_refl) as (j & Hj & Hlj).
          pose proof (inv_head_r _ _ _ Hinv r eq_refl) as Hd.
          unfold dn in Hd. rewrite Hj in Hd.
          pose proof (inv_ahead_l _ _ _ Hinv _ _ Hj Hlj Hd) as Hahead.
          destruct lw as [|l lw'].
          { by apply elem_of_nil in Hahead. }
          destruct (inv_dom_l _ _ _ Hinv l) as [i Hi]; [by left|].
          exists l, i, lw', (r :: rw'), false. refine (conj _ (conj _ (conj _ _))); [done|done| |done].
          pose proof (inv_head_l _ _ _ Hinv l eq_refl) as Hdl.
          unfold dn in Hdl. by rewrite Hi in Hdl. }
    rewrite Einj.
    destruct (loop_inv_advance m lw rw u i lw1 rw1 Hinv Hi)
      as (lw2 & rw2 & Er & El & Hinv2 & Hl2 & Hr2).
    { destruct inject; destruct Hbranch as [-> ->]; [done|]. intros x Hx. by right. }
    { destruct inject; destruct Hbranch as [-> ->]; [|done]. intros x Hx. by right. }
    { destruct inject; destruct Hbranch as [-> ->]; [done|]. apply keys_tail_ne. }
    { destruct inject; destruct Hbranch as [-> ->]; [|done]. apply keys_tail_ne. }
    destruct (IH _ lw2 rw2 Hinv2) as (ks & out & m' & Eloop & Hem & Hfinal).
    { destruct inject; destruct Hbranch as [-> ->]; simpl in *; lia. }
    exists (keyfunc u :: ks), (slot_of i :: out), m'.
    split_and!; [|by apply emitted_cons|done].
    destruct inject; destruct Hbranch as [-> ->]; simpl.
    + rewrite (emit_eq _ _ _ Hi Hd). simpl. rewrite Er. simpl. rewrite El. simpl.
      rewrite Eloop. done.
    + rewrite (emit_eq _ _ _ Hi Hd). simpl. rewrite Er. simpl. rewrite El. simpl.
      rewrite Eloop. done.
Qed.

(** *** The base drain *)

Lemma drain_base_spec bw m :
  (∀ u, u ∈ bw → is_Some (m !! keyfunc u)) →
  ∃ ks out m',
    drain_base keyfunc m bw = (out, Ok (m', []))
    ∧ emitted m ks out m'
    ∧ (∀ k, k ∈ keyfunc <$> bw → dn m' k = true).
Proof.
  revert m. induction bw as [|u bw IH]; intros m Hdom.
  - exists [], [], m. split_and!; [done|apply emitted_nil|].
    intros k Hk. by apply elem_of_nil in Hk.
  - destruct (Hdom u) as [i Hi]; [by left|].
    destruct (IH (<[keyfunc u := set_done i]> m)) as (ks & out & m' & E & Hem & Hall).
    { intros x Hx. apply is_Some_lookup_mark, Hdom. by right. }
    assert (∀ k, k ∈ keyfunc <$> u :: bw → dn m' k = true) as Hall'.
    { intros k Hk. rewrite fmap_cons in Hk. apply elem_of_cons in Hk as [->|Hk].
      - apply (em_dn_mono _ _ _ _ Hem). rewrite dn_mark. by rewrite decide_True.
      - by apply Hall. }
    simpl. unfold _item. rewrite Hi. simpl.
    destruct (i3_done i) eqn:Hd; simpl; rewrite E.
    + exists ks, out, m'. split_and!; [done| |done]. by eapply emitted_remark.
    + exists (keyfunc u :: ks), (slot_of i :: out), m'.
      split_and!; [done| |done]. by apply emitted_cons.
Qed.

(** *** The whole of [match] *)

Lemma initial_map_lookup_inv base local remote k i :
  initial_map base local remote !! k = Some i →
  in_inputs base local remote k
  ∧ i = MkItem3 false (find_key k base) (find_key k local) (find_key k remote).
Proof.
  intros Hi.
  assert (Decision (in_inputs base local remote k)) as [Hin|Hin].
  { unfold in_inputs. apply _. }
  - rewrite initial_map_lookup in Hi by done. split; [done|congruence].
  - rewrite initial_map_None in Hi by done. done.
Qed.

Lemma initial_loop_inv base local remote :
  loop_inv (initial_map base local remote) local remote.
Proof.
  split.
  - intros u Hu. rewrite initial_map_lookup; [by eauto|].
    right; left. by apply list_elem_of_fmap_2.
  - intros u Hu. eexists. split.
    + apply initial_map_lookup. right; right. by apply list_elem_of_fmap_2.
    + simpl. apply find_key_is_Some. by apply list_elem_of_fmap_2.
  - intros u _. unfold dn.
    destruct (initial_map base local remote !! keyfunc u) as [i|] eqn:E; [|done].
    apply initial_map_lookup_inv in E as [_ ->]. done.
  - intros u _. unfold dn.
    destruct (initial_map base local remote !! keyfunc u) as [i|] eqn:E; [|done].
    apply initial_map_lookup_inv in E as [_ ->]. done.
  - intros k i Hi Hl _. apply initial_map_lookup_inv in Hi as [_ ->].
    simpl in Hl. by apply find_key_is_Some.
  - intros k i Hi Hr _. apply initial_map_lookup_inv in Hi as [_ ->].
    simpl in Hr. by apply find_key_is_Some.
Qed.

(** The triple [match] emits for a key. *)
Definition triple_of_key (base local remote : list U) (k : K) : triple :=
  (find_key k base, find_key k local, find_key k remote).

Lemma Forall2_slots base local remote ks out :
  Forall2 (λ k t, sl (initial_map base local remote) k = Some t) ks out →
  out = triple_of_key base local remote <$> ks.
Proof.
  induction 1 as [|k t ks out Hkt _ IH]; [done|].
  rewrite fmap_cons, <- IH. f_equal. unfold sl in Hkt.
  destruct (initial_map base local remote !! k) as [i|] eqn:E; [|done].
  apply initial_map_lookup_inv in E as [_ ->]. by injection Hkt as <-.
Qed.

Lemma sl_is_Some m m' k :
  (∀ k, sl m' k = sl m k) → is_Some (m !! k) → is_Some (m' !! k).
Proof.
  intros Hsl [i Hi]. specialize (Hsl k). unfold sl in Hsl. rewrite Hi in Hsl.
  destruct (m' !! k); [by eauto|done].
Qed.

(** [match] runs to its end without raising: it yields the slots of a
    duplicate-free list of keys that covers the three inputs, and its
    closing assertions hold. *)
Lemma match_spec base local remote :
  ∃ ks,
    match_ keyfunc deletedfunc base local remote =
      (triple_of_key base local remote <$> ks, Ok tt)
    ∧ NoDup ks
    ∧ (∀ k, k ∈ ks ↔ in_inputs base local remote k).
Proof.
  set (m0 := initial_map base local remote).
  destruct (main_loop_spec (length local + length remote) m0 local remote)
    as (ks1 & out1 & m1 & E1 & Hem1 & Hinv1);
    [apply initial_loop_inv|done|].
  destruct (drain_base_spec base m1) as (ks2 & out2 & m2 & E2 & Hem2 & Hbase).
  { intros u Hu. eapply sl_is_Some; [apply (em_sl _ _ _ _ Hem1)|].
    unfold m0. rewrite initial_map_lookup; [by eauto|].
    left. by apply list_elem_of_fmap_2. }
  (* every slot is done at the end *)
  assert (∀ k, in_inputs base local remote k → dn m2 k = true) as Hdone.
  { intros k Hin. destruct Hin as [Hb|Hlr]; [by apply Hbase|].
    apply (em_dn_mono _ _ _ _ Hem2).
    assert (is_Some (m1 !! k)) as [i1 Hi1].
    { eapply sl_is_Some; [apply (em_sl _ _ _ _ Hem1)|].
      unfold m0. rewrite initial_map_lookup; [by eauto|]. by right. }
    pose proof (em_sl _ _ _ _ Hem1 k) as Hsl. unfold sl in Hsl.
    rewrite Hi1 in Hsl. unfold m0 in Hsl.
    rewrite initial_map_lookup in Hsl by by right.
    unfold slot_of in Hsl. simpl in Hsl. injection Hsl as Hb Hl Hr.
    unfold dn. rewrite Hi1. destruct (i3_done i1) eqn:Hd; [done|]. exfalso.
    destruct Hlr as [Hl'|Hr'].
    - apply find_key_is_Some in Hl'. rewrite <- Hl in Hl'.
      pose proof (inv_ahead_l _ _ _ Hinv1 _ _ Hi1 Hl' Hd) as Hnil.
      by apply elem_of_nil in Hnil.
    - apply find_key_is_Some in Hr'. rewrite <- Hr in Hr'.
      pose proof (inv_ahead_r _ _ _ Hinv1 _ _ Hi1 Hr' Hd) as Hnil.
      by apply elem_of_nil in Hnil. }
  assert (∀ k, is_Some (m2 !! k) → in_inputs base local remote k) as Hdom.
  { intros k Hk.
    assert (is_Some (m0 !! k)) as [i0 Hi0].
    { eapply sl_is_Some; [|eapply sl_is_Some; [|exact Hk]].
      - intros k'. symmetry. apply (em_sl _ _ _ _ Hem1).
      - intros k'. symmetry. apply (em_sl _ _ _ _ Hem2). }
    by apply initial_map_lookup_inv in Hi0 as [? _]. }
  exists (ks1 ++ ks2). split_and!.
  - unfold match_. fold (initial_map base local remote). fold m0.
    unfold _Walker.init. rewrite E1. simpl. rewrite E2. simpl.
    assert (all_done m2 = true) as ->.
    { apply bool_decide_eq_true. intros k i Hi.
      specialize (Hdone k (Hdom k (mk_is_Some _ _ Hi))).
      unfold dn in Hdone. by rewrite Hi in Hdone. }
    simpl. rewrite app_nil_r, fmap_app. f_equal. f_equal.
    + apply Forall2_slots, (em_slots _ _ _ _ Hem1).
    + apply Forall2_slots. eapply Forall2_impl; [apply (em_slots _ _ _ _ Hem2)|].
      intros k t Hkt. simpl in Hkt. by rewrite (em_sl _ _ _ _ Hem1) in Hkt.
  - apply NoDup_app. split_and!; [apply (em_nodup _ _ _ _ Hem1)| |apply (em_nodup _ _ _ _ Hem2)].
    intros k Hk1 Hk2. apply (em_dn _ _ _ _ Hem1) in Hk1.
    apply (em_fresh _ _ _ _ Hem2) in Hk2. congruence.
  - intros k. rewrite elem_of_app. split.
    + intros [Hk|Hk].
      * eapply emitted_is_Some in Hk as [i Hi]; [|exact Hem1].
        by apply initial_map_lookup_inv in Hi as [? _].
      * eapply emitted_is_Some in Hk; [|exact Hem2]. apply Hdom.
        eapply sl_is_Some; [apply (em_sl _ _ _ _ Hem2)|done].
    + intros Hin. apply Hdone in Hin.
      apply (em_dn_inv _ _ _ _ Hem2) in Hin as [Hin|Hin]; [|by right].
      apply (em_dn_inv _ _ _ _ Hem1) in Hin as [Hin|Hin]; [|by left].
      exfalso. unfold dn in Hin.
      destruct (m0 !! k) as [i|] eqn:E; [|done].
      apply initial_map_lookup_inv in E as [_ ->]. done.
Qed.

(** *** Coverage *)

(** A component of a triple that is present and has key [k]. *)
Definition comp_has_key (k : K) (o : option U) : bool :=
  match o with
  | Some u => bool_decide (keyfunc u = k)
  | None => false
  end.

(** The triple holds a unit with key [k]. *)
Definition has_key (k : K) (t : triple) : bool :=
  comp_has_key k t.1.1 || comp_has_key k t.1.2 || comp_has_key k t.2.

(** At least one component is present. *)
Definition triple_present (t : triple) : Prop :=
  is_Some t.1.1 ∨ is_Some t.1.2 ∨ is_Some t.2.

(** Every component that is present has key [k]. *)
Definition triple_keyed (k : K) (t : triple) : Prop :=
  ∀ u, t.1.1 = Some u ∨ t.1.2 = Some u ∨ t.2 = Some u → keyfunc u = k.

(** The components come from the input of their position. *)
Definition triple_from (base local remote : list U) (t : triple) : Prop :=
  (∀ u, t.1.1 = Some u → u ∈ base)
  ∧ (∀ u, t.1.2 = Some u → u ∈ local)
  ∧ (∀ u, t.2 = Some u → u ∈ remote).

Lemma triple_of_key_keyed base local remote k :
  triple_keyed k (triple_of_key base local remote k).
Proof.
  intros u. unfold triple_of_key. simpl.
  intros [E|[E|E]]; by apply find_key_Some in E as [? _].
Qed.

Lemma triple_of_key_from base local remote k :
  triple_from base local remote (triple_of_key base local remote k).
Proof.
  unfold triple_from, triple_of_key. simpl.
  split_and!; intros u E; by apply find_key_Some in E as [_ ?].
Qed.

Lemma triple_of_key_present base local remote k :
  in_inputs base local remote k →
  triple_present (triple_of_key base local remote k).
Proof.
  unfold triple_present, triple_of_key, in_inputs. simpl.
  rewrite !find_key_is_Some. done.
Qed.

Lemma has_key_triple_of_key base local remote k k' :
  in_inputs base local remote k' →
  has_key k (triple_of_key base local remote k') = bool_decide (k' = k).
Proof.
  intros Hin. apply triple_of_key_present in Hin.
  pose proof (triple_of_key_keyed base local remote k') as Hkeyed.
  unfold has_key, triple_present, triple_keyed in *.
  destruct (triple_of_key base local remote k') as [[b l] r]. simpl in *.
  case_bool_decide as Hk.
  - assert (∀ o u, o = Some u → keyfunc u = k' → comp_has_key k o = true) as Hc.
    { intros o u -> <-. simpl. by apply bool_decide_eq_true_2. }
    destruct Hin as [[u E]|[[u E]|[u E]]].
    + by rewrite (Hc b u) by auto.
    + rewrite (Hc l u) by auto. by rewrite orb_true_r.
    + rewrite (Hc r u) by auto. by rewrite orb_true_r.
  - assert (∀ o, (∀ u, o = Some u → keyfunc u = k') → comp_has_key k o = false)
      as Hf.
    { intros [u|] Hu; [|done]. simpl. apply bool_decide_eq_false_2.
      rewrite (Hu u); done. }
    rewrite !Hf; auto.
Qed.

Lemma filter_has_key base local remote k ks :
  (∀ k', k' ∈ ks → in_inputs base local remote k') → NoDup ks →
  filter (λ t, has_key k t = true) (triple_of_key base local remote <$> ks) =
    if decide (k ∈ ks) then [triple_of_key base local remote k] else [].
Proof.
  induction ks as [|k' ks IH]; intros Hin Hnd.
  - rewrite decide_False; [done|]. intros Hk. by apply elem_of_nil in Hk.
  - apply NoDup_cons in Hnd as [Hk' Hnd]. rewrite fmap_cons, filter_cons.
    rewrite has_key_triple_of_key by (apply Hin; by left).
    rewrite IH; [|intros ? ?; apply Hin; by right|done].
    destruct (decide (k' = k)) as [->|Hne].
    + rewrite bool_decide_eq_true_2 by done. rewrite decide_True by done.
      rewrite decide_False by done. rewrite decide_True by by left. done.
    + rewrite bool_decide_eq_false_2 by done. rewrite decide_False by done.
      destruct (decide (k ∈ ks)) as [Hk|Hk].
      * rewrite decide_True by by right. done.
      * rewrite decide_False; [done|]. rewrite not_elem_of_cons. done.
Qed.

(** C1: on inputs without a repeated key, [SetMatcher3.match] yields
    finitely many triples and ends without raising; every key of the
    inputs is in exactly one of the triples; every triple has a component
    that is present; the present components of a triple share one key and
    come from the input of their position; and every unit of an input is
    the component of an emitted triple. *)
Theorem C1_match3_coverage (base local remote : list U) :
  NoDup (keyfunc <$> base) → NoDup (keyfunc <$> local) →
  NoDup (keyfunc <$> remote) →
  ∃ out : list triple,
    match_ keyfunc deletedfunc base local remote = (out, Ok tt)
    ∧ (∀ k, in_inputs base local remote k →
         ∃ t, filter (λ t, has_key k t = true) out = [t])
    ∧ (∀ k, ¬ in_inputs base local remote k →
         filter (λ t, has_key k t = true) out = [])
    ∧ Forall (λ t, triple_present t ∧ (∃ k, triple_keyed k t)
                   ∧ triple_from base local remote t) out
    ∧ (∀ u, u ∈ base → ∃ t, t ∈ out ∧ t.1.1 = Some u)
    ∧ (∀ u, u ∈ local → ∃ t, t ∈ out ∧ t.1.2 = Some u)
    ∧ (∀ u, u ∈ remote → ∃ t, t ∈ out ∧ t.2 = Some u).
Proof.
  intros Hb Hl Hr.
  destruct (match_spec base local remote) as (ks & E & Hnd & Hks).
  exists (triple_of_key base local remote <$> ks).
  assert (∀ k', k' ∈ ks → in_inputs base local remote k') as Hin
    by (intros ? ?; by apply Hks).
  split_and!.
  - done.
  - intros k Hk. rewrite filter_has_key by done.
    rewrite decide_True by by apply Hks. by eexists.
  - intros k Hk. rewrite filter_has_key by done.
    rewrite decide_False; [done|]. by rewrite Hks.
  - apply Forall_fmap, Forall_forall. intros k Hk. simpl. split_and!.
    + apply triple_of_key_present. by apply Hin.
    + exists k. apply triple_of_key_keyed.
    + apply triple_of_key_from.
  - intros u Hu. exists (triple_of_key base local remote (keyfunc u)). split.
    + apply list_elem_of_fmap_2, Hks. left. by apply list_elem_of_fmap_2.
    + simpl. by apply find_key_NoDup.
  - intros u Hu. exists (triple_of_key base local remote (keyfunc u)). split.
    + apply list_elem_of_fmap_2, Hks. right; left. by apply list_elem_of_fmap_2.
    + simpl. by apply find_key_NoDup.
  - intros u Hu. exists (triple_of_key base local remote (keyfunc u)). split.
    + apply list_elem_of_fmap_2, Hks. right; right. by apply list_elem_of_fmap_2.
    + simpl. by apply find_key_NoDup.
Qed.

End Facts.

(** The key and deleted functions of [test_set_matcher3]: a leading [~]
    marks a deleted element and is not part of the key. *)
Definition test_keyfunc (x : string) : string :=
  match x with String "~" r => r | _ => x end.
Definition test_deletedfunc (x : string) : bool :=
  match x with String "~" _ => true | _ => false end.

(** The matcher on the inputs of [test_set_matcher3] yields the expected
    triples. *)
Example test_set_matcher3 :
  match_ test_keyfunc test_deletedfunc
    ["a"; "b"; "c"; "d"] ["a"; "c"; "b"; "e"; "~d"] ["b"; "c"; "~d"; "~a"]
  = ([(Some "a", Some "a", Some "~a");
      (Some "c", Some "c", Some "c");
      (Some "b", Some "b", Some "b");
      (None, Some "e", None);
      (Some "d", Some "~d", Some "~d")], Ok tt).
Proof. vm_compute. reflexivity. Qed.

Lemma C1_match3_coverage_witness :
  let base := ["a"; "b"; "c"; "d"] in
  let local := ["a"; "c"; "b"; "e"; "~d"] in
  let remote := ["b"; "c"; "~d"; "~a"] in
  NoDup (test_keyfunc <$> base) ∧ NoDup (test_keyfunc <$> local)
  ∧ NoDup (test_keyfunc <$> remote)
  ∧ ∃ out : list (@SetMatcher3.triple string),
      match_ test_keyfunc test_deletedfunc base local remote = (out, Ok tt)
      ∧ (∀ k, in_inputs test_keyfunc base local remote k →
           ∃ t, filter (λ t, has_key test_keyfunc k t = true) out = [t])
      ∧ (∀ k, ¬ in_inputs test_keyfunc base local remote k →
           filter (λ t, has_key test_keyfunc k t = true) out = [])
      ∧ Forall (λ t, triple_present t ∧ (∃ k, triple_keyed test_keyfunc k t)
                     ∧ triple_from base local remote t) out
      ∧ (∀ u, u ∈ base → ∃ t, t ∈ out ∧ t.1.1 = Some u)
      ∧ (∀ u, u ∈ local → ∃ t, t ∈ out ∧ t.1.2 = Some u)
      ∧ (∀ u, u ∈ remote → ∃ t, t ∈ out ∧ t.2 = Some u).
Proof.
  cbv zeta.
  assert (NoDup (test_keyfunc <$> ["a"; "b"; "c"; "d"])) as Hb
    by (refine (bool_decide_unpack _ _); vm_compute; exact I).
  assert (NoDup (test_keyfunc <$> ["a"; "c"; "b"; "e"; "~d"])) as Hl
    by (refine (bool_decide_unpack _ _); vm_compute; exact I).
  assert (NoDup (test_keyfunc <$> ["b"; "c"; "~d"; "~a"])) as Hr
    by (refine (bool_decide_unpack _ _); vm_compute; exact I).
  split; [exact Hb|]. split; [exact Hl|]. split; [exact Hr|].
  exact (C1_match3_coverage test_keyfunc test_deletedfunc _ _ _ Hb Hl Hr).
Defined.

End Matcher3Facts.

(** ** The two-way set matcher *)

Module Matcher2Facts.
Import SetMatcher2.
Section Facts.
Context {U K : Type} `{Countable K}.
Variable keyfunc : U → K.
Variable deletedfunc : U → bool.

(** The loop of [SetMatcher2.match] stops as soon as one walker is
    exhausted, whatever is left under the other. *)
Lemma main_loop_old_exhausted fuel (m : gmap K (_Item2 U)) (nw : list U) :
  main_loop keyfunc deletedfunc fuel m [] nw = ([], Ok (m, [], nw)).
Proof. by destruct fuel. Qed.

Lemma main_loop_new_exhausted fuel (m : gmap K (_Item2 U)) (ow : list U) :
  main_loop keyfunc deletedfunc fuel m ow [] = ([], Ok (m, ow, [])).
Proof. destruct fuel, ow; done. Qed.

(** C9, on the code: with [old] empty and [new] not, [SetMatcher2.match]
    yields nothing and its closing assertion [assert not nw.valid()]
    fails; the keys of [new] are in no emitted pair. *)
Theorem C9_match2_new_only_raises (u : U) (new : list U) :
  match_ keyfunc deletedfunc [] (u :: new) = ([], Raise AssertionError).
Proof.
  unfold match_, _Walker.init. rewrite main_loop_old_exhausted. done.
Qed.

(** The same with [new] empty: [assert not ow.valid()] fails. *)
Lemma match2_old_only_raises (u : U) (old : list U) :
  match_ keyfunc deletedfunc (u :: old) [] = ([], Raise AssertionError).
Proof.
  unfold match_, _Walker.init. rewrite main_loop_new_exhausted. done.
Qed.

End Facts.

(** An element added at the end of [new]: the shared element is emitted,
    the added one is not, and the run ends in [AssertionError]; the
    three-way matcher emits both. *)
Example match2_added_at_end :
  match_ (λ x : string, x) (λ _, false) ["a"] ["a"; "b"]
  = ([(Some "a", Some "a")], Raise AssertionError).
Proof. vm_compute. reflexivity. Qed.

Example match3_added_at_end :
  SetMatcher3.match_ (λ x : string, x) (λ _, false) ["a"] ["a"] ["a"; "b"]
  = ([(Some "a", Some "a", Some "a"); (None, None, Some "b")], Ok tt).
Proof. vm_compute. reflexivity. Qed.

End Matcher2Facts.

(** ** The scalar merge *)

Module MergeSimpleFacts.
Section Facts.
Context {A : Type} `{EqDecision A}.
Implicit Types b l r : A.

Lemma merge_simple_base_remote b l r :
  b = r → DiffUtils.merge_simple b l r = Ok l.
Proof. intros ->. unfold DiffUtils.merge_simple. by rewrite decide_True. Qed.

Lemma merge_simple_base_local b l r :
  b ≠ r → b = l → DiffUtils.merge_simple b l r = Ok r.
Proof.
  intros Hbr ->. unfold DiffUtils.merge_simple.
  rewrite decide_False by done. by rewrite decide_True.
Qed.

Lemma merge_simple_same_change b l r :
  b ≠ r → b ≠ l → l = r → DiffUtils.merge_simple b l r = Ok l.
Proof.
  intros Hbr Hbl ->. unfold DiffUtils.merge_simple.
  rewrite !decide_False by done. by rewrite decide_True.
Qed.

Lemma merge_simple_raises_iff b l r :
  DiffUtils.merge_simple b l r = Raise ValueError ↔ (b ≠ l ∧ b ≠ r ∧ l ≠ r).
Proof.
  unfold DiffUtils.merge_simple.
  destruct (decide (b = r)), (decide (b = l)), (decide (l = r));
    split; first [done | by intros (? & ? & ?) | by intros _].
Qed.

Lemma merge_simple_raise_is_ValueError b l r e :
  DiffUtils.merge_simple b l r = Raise e → e = ValueError.
Proof.
  unfold DiffUtils.merge_simple.
  destruct (decide (b = r)), (decide (b = l)), (decide (l = r)); congruence.
Qed.

(** C6: [merge_simple b l r] is [l] when [b == r]; otherwise [r] when
    [b == l]; otherwise [l] when [l == r]; it raises (a [ValueError], and
    nothing else) if and only if the three values are pairwise distinct. *)
Theorem C6_merge_simple_cases b l r :
  (b = r → DiffUtils.merge_simple b l r = Ok l)
  ∧ (b ≠ r → b = l → DiffUtils.merge_simple b l r = Ok r)
  ∧ (b ≠ r → b ≠ l → l = r → DiffUtils.merge_simple b l r = Ok l)
  ∧ ((∃ e, DiffUtils.merge_simple b l r = Raise e) ↔ (b ≠ l ∧ b ≠ r ∧ l ≠ r))
  ∧ (∀ e, DiffUtils.merge_simple b l r = Raise e → e = ValueError).
Proof.
  split; [apply merge_simple_base_remote|].
  split; [apply merge_simple_base_local|].
  split; [apply merge_simple_same_change|].
  split; [|apply merge_simple_raise_is_ValueError].
  split.
  - intros [e He]. pose proof (merge_simple_raise_is_ValueError _ _ _ _ He) as ->.
    by apply merge_simple_raises_iff.
  - intros Hd. exists ValueError. by apply merge_simple_raises_iff.
Qed.

End Facts.

(** Booleans never make [merge_simple] raise: of three, two are equal. *)
Lemma merge_simple_bool (b l r : bool) :
  DiffUtils.merge_simple b l r = Ok (if bool_decide (b = r) then l else r).
Proof. by destruct b, l, r. Qed.

End MergeSimpleFacts.

(** ** The list merge *)

Module MergeListFacts.
Import Matcher3Facts.
Section Facts.
Context {A : Type} `{Countable A}.
Implicit Types (x : A) (base local remote ks : list A).

(** [Some x] when [x] is in the list, [None] otherwise: the component of
    the triple of [x] for that list. *)
Definition opt_in x (l : list A) : option A :=
  if decide (x ∈ l) then Some x else None.

Lemma find_key_id x (l : list A) : find_key (λ y : A, y) x l = opt_in x l.
Proof.
  unfold opt_in. destruct (find_key (λ y : A, y) x l) as [u|] eqn:E.
  - apply find_key_Some in E as [-> Hin]. by rewrite decide_True.
  - apply find_key_None in E. rewrite list_fmap_id in E. by rewrite decide_False.
Qed.

(** An element stays in the merged list when both sides have it, or when
    a side has it and the base has not. *)
Definition kept base local remote x : Prop :=
  (x ∈ local ∧ x ∈ remote) ∨ ((x ∉ base) ∧ (x ∈ local ∨ x ∈ remote)).

#[global] Instance kept_dec base local remote x : Decision (kept base local remote x).
Proof. unfold kept. apply _. Defined.

(** The scalar merge of the triple of an element never raises. *)
Lemma merge_simple_triple base local remote x :
  DiffUtils.merge_simple (opt_in x base) (opt_in x local) (opt_in x remote) =
    Ok (if decide (kept base local remote x) then Some x else None).
Proof.
  unfold DiffUtils.merge_simple, opt_in, kept.
  destruct (decide (x ∈ base)), (decide (x ∈ local)), (decide (x ∈ remote));
    simpl; repeat (case_decide; try done); tauto.
Qed.

Lemma merge_triples_of_keys base local remote ks :
  DiffUtils.merge_triples (triple_of_key (λ y : A, y) base local remote <$> ks) =
    Ok (filter (kept base local remote) ks).
Proof.
  induction ks as [|x ks IH]; [done|].
  rewrite fmap_cons. unfold triple_of_key at 1. rewrite !find_key_id. simpl.
  rewrite merge_simple_triple. simpl. rewrite IH. simpl.
  rewrite filter_cons. by case_decide.
Qed.

(** [merge_list] never raises: it returns, without repetition, the
    elements of the three lists that are kept. *)
Lemma merge_list_spec base local remote :
  ∃ ks,
    DiffUtils.merge_list base local remote = Ok (filter (kept base local remote) ks)
    ∧ NoDup ks
    ∧ (∀ x, x ∈ ks ↔ x ∈ base ∨ x ∈ local ∨ x ∈ remote).
Proof.
  destruct (match_spec (λ y : A, y) (λ _, false) base local remote)
    as (ks & E & Hnd & Hks).
  exists ks. split_and!; [|done|].
  - unfold DiffUtils.merge_list. rewrite E. by rewrite merge_triples_of_keys.
  - intros x. rewrite Hks. unfold in_inputs. by rewrite !list_fmap_id.
Qed.

Lemma merge_list_returns base local remote :
  ∃ merged,
    DiffUtils.merge_list base local remote = Ok merged
    ∧ NoDup merged
    ∧ (∀ x, x ∈ merged ↔ kept base local remote x).
Proof.
  destruct (merge_list_spec base local remote) as (ks & E & Hnd & Hks).
  eexists. split_and!; [exact E|by apply NoDup_filter|].
  intros x. rewrite list_elem_of_filter, Hks. unfold kept. tauto.
Qed.

End Facts.
End MergeListFacts.

(** ** The parser of time stamps *)

Module TimeFacts.
Import Time.

(** The offset the specification asks for, [sign * (HH * 3600 + MM * 60)]
    seconds, and the instant it gives: the offset is subtracted from the
    stated local time. *)
Definition spec_offset (sign hh mm : Z) : Z := (sign * (hh * 3600 + mm * 60))%Z.
Definition spec_instant (stated : Z) (sign hh mm : Z) : Z :=
  (stated - spec_offset sign hh mm)%Z.

Section Facts.
Context `{Clock}.

(** A string the pattern does not match is the epoch. *)
Lemma get_time_no_match (timestr : string) :
  _time_pattern_match timestr = None → _get_time (Some timestr) = Ok 0%Z.
Proof. intros E. unfold _get_time. by rewrite E. Qed.

(** The placeholder of a template is such a string. *)
Example get_time_placeholder :
  _get_time (Some "YEAR-MO-DA HO:MI+ZONE") = Ok 0%Z.
Proof. apply get_time_no_match. vm_compute. reflexivity. Qed.

(** A header field that is absent raises in [newer], whatever the other
    side holds. *)
Lemma newer_absent_left (left right : Py.dict) (attribute : string) :
  Py.get left attribute = None →
  _PoFileDiff.newer left right attribute = Raise TypeError.
Proof. intros E. unfold _PoFileDiff.newer. by rewrite E. Qed.

Lemma newer_absent_right (left right : Py.dict) (attribute : string) :
  returns (_get_time (Py.get left attribute)) →
  Py.get right attribute = None →
  _PoFileDiff.newer left right attribute = Raise TypeError.
Proof.
  intros [t Et] E. unfold _PoFileDiff.newer. by rewrite Et, E.
Qed.

(** C7, on the code: a string that does not match parses to the epoch,
    but the value of an absent header field is [None], on which
    [_get_time] raises [TypeError]; so does the arbitration [newer]
    between a header without the field and any other. *)
Theorem C7_get_time_absent_raises :
  _get_time None = Raise TypeError
  ∧ _get_time (Some "YEAR-MO-DA HO:MI+ZONE") = Ok 0%Z
  ∧ _PoFileDiff.newer [("Language", "cs")]
      [("PO-Revision-Date", "2013-12-11 11:40+0100")] "PO-Revision-Date"
    = Raise TypeError.
Proof.
  split; [done|]. split; [apply get_time_placeholder|].
  by apply newer_absent_left.
Qed.

(** What the parser computes for a time stamp at 11:30 on 2013-12-11
    with a given zone: the clock's value for the fields, [time.timezone],
    and the term the code adds for the zone. *)
Definition at_1130 (added : Z) : result Z :=
  (t ← mktime (2013, 12, 11, 11, 30, 0, 0, 0, 0)%Z;
   Ok (t + timezone + added)%Z)%res.

Lemma get_time_groups (timestr : string) g1 g2 g3 g4 g5 g6 g7 sixty :
  _time_pattern_match timestr = Some (g1, g2, g3, g4, g5, g6, g7) →
  match g6 with
  | String "+" _ => Ok 60%Z
  | String "-" _ => Ok (-60)%Z
  | _ => Raise KeyError
  end = Ok sixty →
  _get_time (Some timestr) =
    (t ← mktime (Re.int g1, Re.int g2, Re.int g3, Re.int g4, Re.int g5, 0, 0, 0, 0)%Z;
     Ok (t + timezone + Re.int g6 * 3600 + Re.int g6 * sixty)%Z)%res.
Proof.
  intros E E6. unfold _get_time. rewrite E.
  destruct (mktime _) as [t|e]; simpl; [|done]. by rewrite E6.
Qed.

(** C8, on the code: for a zone of [+0100] the parser adds 3660 seconds
    (the hours once as hours and once more as minutes), for [+0130] the
    same (the minutes of the zone are not read), for [-0500] it adds
    -17700; the specification asks for 3600, 5400 and -18000 seconds
    subtracted. *)
Theorem C8_get_time_offset :
  _get_time (Some "2013-12-11 11:30+0000") = at_1130 0
  ∧ _get_time (Some "2013-12-11 11:30+0100") = at_1130 3660
  ∧ _get_time (Some "2013-12-11 11:30+0130") = at_1130 3660
  ∧ _get_time (Some "2013-12-11 11:30-0500") = at_1130 (-17700)
  ∧ (∀ stated : Z,
       (stated + 3660)%Z ≠ spec_instant stated 1 1 0
       ∧ (stated + 3660)%Z ≠ spec_instant stated 1 1 30
       ∧ (stated - 17700)%Z ≠ spec_instant stated (-1) 5 0).
Proof.
  unfold at_1130. split_and!.
  - erewrite get_time_groups; [|vm_compute; reflexivity|reflexivity].
    vm_compute Re.int. destruct (mktime _); simpl; [f_equal; lia|done].
  - erewrite get_time_groups; [|vm_compute; reflexivity|reflexivity].
    vm_compute Re.int. destruct (mktime _); simpl; [f_equal; lia|done].
  - erewrite get_time_groups; [|vm_compute; reflexivity|reflexivity].
    vm_compute Re.int. destruct (mktime _); simpl; [f_equal; lia|done].
  - erewrite get_time_groups; [|vm_compute; reflexivity|reflexivity].
    vm_compute Re.int. destruct (mktime _); simpl; [f_equal; lia|done].
  - intros stated. unfold spec_instant, spec_offset. lia.
Qed.

End Facts.

(** On a machine whose local time is UTC, where the clock's value is the
    stated time itself: 11:30 at [+0100] is 10:30 UTC, and the parser
    answers 12:31. *)
Example get_time_utc_plus_0100 :
  @_get_time PyPo.utc (Some "2013-12-11 11:30+0100") = Ok 1386765060%Z
  ∧ spec_instant 1386761400 1 1 0 = 1386757800%Z.
Proof. split; vm_compute; reflexivity. Qed.

End TimeFacts.

(** ** String formatting *)

Module FormatFacts.

Lemma append_assoc (a b c : string) : (a +:+ b) +:+ c = a +:+ (b +:+ c).
Proof.
  induction a as [|x a IH]; [done|].
  change ((String x a +:+ b) +:+ c) with (String x ((a +:+ b) +:+ c)).
  change (String x a +:+ (b +:+ c)) with (String x (a +:+ (b +:+ c))).
  by rewrite IH.
Qed.

(** A text without a percent sign. *)
Fixpoint no_percent (s : string) : bool :=
  match s with
  | EmptyString => true
  | String c s' => negb (Ascii.eqb c "%") && no_percent s'
  end.

Lemma format_cons_plain (c : ascii) (fmt : string) (args : list string) :
  Ascii.eqb c "%" = false →
  Py.format (String c fmt) args = (s ← Py.format fmt args; Ok (String c s))%res.
Proof.
  intros Hc. destruct c as [[] [] [] [] [] [] [] []]; first [done | reflexivity].
Qed.

(** A piece of the format without a percent sign is copied. *)
Lemma format_plain_app (a fmt : string) (args : list string) :
  no_percent a = true →
  Py.format (a +:+ fmt) args = (s ← Py.format fmt args; Ok (a +:+ s))%res.
Proof.
  induction a as [|c a IH]; intros Ha; simpl in Ha.
  - change ("" +:+ fmt) with fmt. by destruct (Py.format fmt args).
  - apply andb_true_iff in Ha as [Hc Ha]. apply negb_true_iff in Hc.
    change (String c a +:+ fmt) with (String c (a +:+ fmt)).
    rewrite format_cons_plain by done. rewrite IH by done.
    by destruct (Py.format fmt args).
Qed.

Lemma format_s (fmt a : string) (args : list string) :
  Py.format ("%s" +:+ fmt) (a :: args) = (s ← Py.format fmt args; Ok (a +:+ s))%res.
Proof. reflexivity. Qed.

(** The line of a header: [%s: %s\n]. *)
Lemma format_header_line (key value : string) :
  Py.format ("%s: %s" +:+ Py.nl) [key; value] =
    Ok (key +:+ ": " +:+ value +:+ Py.nl).
Proof.
  change ("%s: %s" +:+ Py.nl) with ("%s" +:+ (": " +:+ ("%s" +:+ Py.nl))).
  rewrite format_s. rewrite (format_plain_app ": ") by done.
  rewrite format_s. reflexivity.
Qed.

(** The template of the conflict marker: what the first [%] returns. *)
Definition marker_template (lfile lproject rfile rproject : string) : string :=
  "#-#-#-#-#  " +:+ lfile +:+ " (" +:+ lproject +:+ ")  #-#-#-#-#" +:+ Py.nl +:+
  "%s" +:+ Py.nl +:+
  "#-#-#-#-#  " +:+ rfile +:+ " (" +:+ rproject +:+ ")  #-#-#-#-#" +:+ Py.nl +:+
  "%s" +:+ Py.nl.

(** The conflict marker of the specification. *)
Definition marker (lfile lproject rfile rproject l r : string) : string :=
  "#-#-#-#-#  " +:+ lfile +:+ " (" +:+ lproject +:+ ")  #-#-#-#-#" +:+ Py.nl +:+
  l +:+ Py.nl +:+
  "#-#-#-#-#  " +:+ rfile +:+ " (" +:+ rproject +:+ ")  #-#-#-#-#" +:+ Py.nl +:+
  r +:+ Py.nl.

(** The first [%] never raises. *)
Lemma format_marker_format (lfile lproject rfile rproject : string) :
  Py.format _PoFileDiff.marker_format [lfile; lproject; rfile; rproject] =
    Ok (marker_template lfile lproject rfile rproject).
Proof. reflexivity. Qed.

(** The second [%], when no label holds a percent sign. *)
Lemma format_marker_template (lfile lproject rfile rproject l r : string) :
  no_percent lfile = true → no_percent lproject = true →
  no_percent rfile = true → no_percent rproject = true →
  Py.format (marker_template lfile lproject rfile rproject) [l; r] =
    Ok (marker lfile lproject rfile rproject l r).
Proof.
  intros Hlf Hlp Hrf Hrp. unfold marker_template.
  rewrite (format_plain_app "#-#-#-#-#  ") by done.
  rewrite (format_plain_app lfile) by done.
  rewrite (format_plain_app " (") by done.
  rewrite (format_plain_app lproject) by done.
  rewrite (format_plain_app ")  #-#-#-#-#") by done.
  rewrite (format_plain_app Py.nl) by done.
  rewrite format_s.
  rewrite (format_plain_app Py.nl) by done.
  rewrite (format_plain_app "#-#-#-#-#  ") by done.
  rewrite (format_plain_app rfile) by done.
  rewrite (format_plain_app " (") by done.
  rewrite (format_plain_app rproject) by done.
  rewrite (format_plain_app ")  #-#-#-#-#") by done.
  rewrite (format_plain_app Py.nl) by done.
  rewrite format_s. reflexivity.
Qed.

(** The second [%], when the local project version ends with a percent
    sign: the sign comes before the closing parenthesis of the label. *)
Lemma format_marker_template_percent (lfile p rfile rproject l r : string) :
  no_percent lfile = true → no_percent p = true →
  Py.format (marker_template lfile (p +:+ "%") rfile rproject) [l; r] =
    Raise ValueError.
Proof.
  intros Hlf Hp. unfold marker_template.
  rewrite (format_plain_app "#-#-#-#-#  ") by done.
  rewrite (format_plain_app lfile) by done.
  rewrite (format_plain_app " (") by done.
  rewrite append_assoc.
  rewrite (format_plain_app p) by done.
  reflexivity.
Qed.

End FormatFacts.

(** ** The test battery

    The scenarios of [test_podifutils.py] on the units their PO texts
    parse to, run with the catalog layer [PyPo.layer] and the clock
    [PyPo.utc]. *)

Module Battery.
#[local] Existing Instance PyPo.layer.
#[local] Existing Instance PyPo.utc.

(** A catalog read from a stream: no [filename], no header. *)
Definition stream : option pofile := Some (MkPofile None []).

(** [msgid src], [msgstr tgt]. *)
Definition entry (src tgt : string) : pounit :=
  MkUnit src "" "" (TStr tgt) false false [] [] [] [] [] [] [] stream.

(** An entry with a plural, whose [msgstr]s are the multistring at [l]. *)
Definition plural_entry (src plural : string) (l : loc) : pounit :=
  MkUnit src plural "" (TMulti l) false false [] [] [] [] [] [] [] stream.

(** The same entry in a catalog whose header is [header]. *)
Definition in_catalog (header : Py.dict) (u : pounit) : pounit :=
  MkUnit (source u) (source_plural u) (context u) (target u) (fuzzy u)
    (obsolete u) (locations u) (notes_developer u) (notes_translator u)
    (typecomments u) (prev_msgctxt u) (prev_msgid u) (prev_msgid_plural u)
    (Some (MkPofile None header)).

Definition fuzzy_ (u : pounit) : pounit := Unit.markfuzzy true u.
Definition obsolete_ (u : pounit) : pounit := Unit.makeobsolete u.
Definition at_ (locs : list string) (u : pounit) : pounit :=
  foldl (λ u l, Unit.addlocation l u) u locs.
Definition noted (o : origin) (lines : list string) (u : pounit) : pounit :=
  foldl (λ u n, Unit.addnote n o u) u lines.
Definition typed (line : string) (u : pounit) : pounit :=
  Unit.set_typecomments [line +:+ Py.nl] u.

(** The header entry of a catalog, from the lines of its [msgstr]. *)
Definition text (lines : list string) : string :=
  Py.join "" ((λ line, line +:+ Py.nl) <$> lines).
Definition header_entry (lines : list string) : pounit :=
  MkUnit "" "" "" (TStr (text lines)) false false [] [] [] [] [] [] []
    (Some (MkPofile None (PyPo.parseheaderstring (text lines)))).

(** What a test compares: the entries of the merged catalog as they are
    printed, and the number of conflicts. *)
Record printed : Type := Printed {
  p_msgid : string;
  p_msgstr : target_t;
  p_fuzzy : bool;
  p_obsolete : bool;
  p_locations : list string;
  p_developer : list string;
  p_translator : list string;
  p_types : list string;
}.

Definition print (u : pounit) : printed :=
  Printed (source u) (target u) (fuzzy u) (obsolete u) (locations u)
    (notes_developer u) (notes_translator u) (typecomments u).

Definition plain (src tgt : string) : printed :=
  Printed src (TStr tgt) false false [] [] [] [].

Definition run (base local remote : list pounit) : result (list printed * nat) :=
  match _PoFileDiff.merge base local remote [] with
  | Ok ((out, c), _) => Ok (print <$> out, c)
  | Raise e => Raise e
  end.

Example test_po_add :
  run [entry "foo" "foo"]
      [entry "foo" "foo"; entry "bar" "bar"]
      [entry "foo" "foo"; entry "baz" "baz"]
  = Ok ([plain "foo" "foo"; plain "baz" "baz"; plain "bar" "bar"], 0).
Proof. vm_compute. reflexivity. Qed.

Example test_po_change_translation :
  run [entry "original" "translation"] [entry "original" "translation"]
      [entry "original" "modified"]
  = Ok ([plain "original" "modified"], 0)
  ∧ run [entry "original" "translation"] [entry "original" "modified"]
        [entry "original" "translation"]
    = Ok ([plain "original" "modified"], 0).
Proof. split; vm_compute; reflexivity. Qed.

Example test_po_conflict :
  run [entry "foo" "bar"] [entry "foo" "baz"] [entry "foo" "qyzzy"]
  = Ok ([Printed "foo"
           (TStr (text ["#-#-#-#-#  local (???)  #-#-#-#-#"; "baz";
                        "#-#-#-#-#  remote (???)  #-#-#-#-#"; "qyzzy"]))
           true false [] [] [] []], 1).
Proof. vm_compute. reflexivity. Qed.

Example test_po_delete :
  run [entry "foo" "FOO"; entry "bar" "bar"]
      [entry "foo" "FOO"; entry "bar" "BAR"]
      [entry "foo" "FOO"]
  = Ok ([plain "foo" "FOO"; Printed "bar" (TStr "BAR") false true [] [] [] []], 0).
Proof. vm_compute. reflexivity. Qed.

Example test_po_obsolete :
  run [entry "foo" "FOO"] [obsolete_ (entry "foo" "FOO")]
      [fuzzy_ (entry "foo" "Foo!")]
  = Ok ([Printed "foo" (TStr "Foo!") true true [] [] [] []], 0).
Proof. vm_compute. reflexivity. Qed.

Example test_po_resurrect :
  run [obsolete_ (entry "foo" "Foo")] [entry "foo" "Foo"]
      [obsolete_ (entry "foo" "FOO")]
  = Ok ([plain "foo" "FOO"], 0).
Proof. vm_compute. reflexivity. Qed.

Example test_po_prefer_nonfuzzy :
  run [entry "foo" ""] [fuzzy_ (entry "foo" "Foo")] [entry "foo" "FOO"]
  = Ok ([plain "foo" "FOO"], 0).
Proof. vm_compute. reflexivity. Qed.

Example test_po_markfuzzy :
  run [entry "foo" "FOO"] [fuzzy_ (entry "foo" "Foo")] [entry "foo" "FOO"]
  = Ok ([Printed "foo" (TStr "Foo") true false [] [] [] []], 0).
Proof. vm_compute. reflexivity. Qed.

Example test_locations :
  run [at_ ["here:4"; "there:5"] (entry "foo" "bar")]
      [at_ ["there:5"; "here:8"] (entry "foo" "bar")]
      [at_ ["here:4"; "there:8"] (entry "foo" "bar")]
  = Ok ([Printed "foo" (TStr "bar") false false ["there:8"; "here:8"] [] [] []], 0).
Proof. vm_compute. reflexivity. Qed.

Example test_comments :
  run [noted translator ["this is a"; "rather silly"; "comment"]
         (noted developer ["Translator, please"; "make a silly comment."]
            (entry "foo" "bar"))]
      [noted translator ["this is a"; "rather silly comment"]
         (noted developer ["Translator, please"; "make a silly comment."]
            (entry "foo" "bar"))]
      [noted translator ["a really silly"; "comment"]
         (noted developer ["Translator, please"; "DON'T make silly comments."]
            (entry "foo" "bar"))]
  = Ok ([Printed "foo" (TStr "bar") false false []
           ["Translator, please"; "DON'T make silly comments."]
           ["a really silly"; "rather silly comment"] []], 0).
Proof. vm_compute. reflexivity. Qed.

Example test_types :
  run [typed "#, python-brace-format" (entry "{foo}++" "{foo}*")]
      [typed "#, java-format" (entry "{foo}++" "{foo}*")]
      [typed "#, python-brace-format, no-c-sharp-format" (entry "{foo}++" "{foo}*")]
  = Ok ([Printed "{foo}++" (TStr "{foo}*") false false [] [] []
           ["#, no-c-sharp-format, java-format" +:+ Py.nl]], 0).
Proof. vm_compute. reflexivity. Qed.

Example test_parallel_creation :
  run [entry "foo" "Foo"]
      [entry "bar" "Bar"; entry "foo" "Foo"]
      [entry "bar" "Bar"; entry "foo" "Foo"]
  = Ok ([plain "bar" "Bar"; plain "foo" "Foo"], 0).
Proof. vm_compute. reflexivity. Qed.

(** The three headers of [test_header_conflicts]. *)
Definition header_base : pounit :=
  noted translator ["The Project."]
    (header_entry
       ["Project-Id-Version: Package -42";
        "Report-Msgid-Bugs-To: /dev/null";
        "POT-Creation-Date: 2013-12-11 11:30+0100";
        "PO-Revision-Date: YEAR-MO-DA HO:MI+ZONE";
        "Last-Translator: FULL NAME <EMAIL@ADDRESS>";
        "Language: ";
        "MIME-Version: 1.0";
        "Content-Type: text/plain; charset=utf-8";
        "Content-Transfer-Encoding: 8bit"]).

Definition header_local : pounit :=
  noted translator ["The Project."]
    (header_entry
       ["Project-Id-Version: Package -41";
        "Report-Msgid-Bugs-To: /dev/zero";
        "POT-Creation-Date: 2013-12-11 11:40+0100";
        "PO-Revision-Date: 2013-12-11 11:50+0100";
        "Last-Translator: Trans Lator <trans.lator@wherever>";
        "Language: cs";
        "MIME-Version: 1.0";
        "Content-Type: text/plain; charset=utf-8";
        "Content-Transfer-Encoding: 8bit";
        "X-Whatever: this"]).

Definition header_remote : pounit :=
  noted translator ["The Project."]
    (header_entry
       ["Project-Id-Version: Package -40";
        "Report-Msgid-Bugs-To: /dev/null";
        "POT-Creation-Date: 2013-12-11 11:50+0100";
        "PO-Revision-Date: 2013-12-11 11:40+0100";
        "Last-Translator: Previous Lator <previous.lator@wherever>";
        "Language: cs_CZ";
        "MIME-Version: 1.0";
        "Content-Type: text/plain; charset=utf-8";
        "Content-Transfer-Encoding: 8bit";
        "X-Whatever: that"]).

Example test_header_conflicts :
  run [header_base; at_ ["test.c:2"] (entry "foo" "")]
      [header_local; at_ ["test.c:2"] (entry "foo" "")]
      [header_remote; at_ ["test.c:2"] (entry "foo" "")]
  = Ok ([Printed ""
           (TStr (text
              ["Project-Id-Version: Package -40";
               "Report-Msgid-Bugs-To: /dev/zero";
               "POT-Creation-Date: 2013-12-11 11:50+0100";
               "PO-Revision-Date: 2013-12-11 11:50+0100";
               "Last-Translator: Trans Lator <trans.lator@wherever>";
               "Language: cs";
               "MIME-Version: 1.0";
               "Content-Type: text/plain; charset=utf-8";
               "Content-Transfer-Encoding: 8bit";
               "X-Whatever: this"]))
           false false [] []
           ["The Project.";
            "(conflict) local (Package -41): Project-Id-Version: Package -41";
            "(conflict) local (Package -41): POT-Creation-Date: 2013-12-11 11:40+0100";
            "(conflict) remote (Package -40): PO-Revision-Date: 2013-12-11 11:40+0100";
            "(conflict) remote (Package -40): Last-Translator: Previous Lator <previous.lator@wherever>";
            "(conflict) remote (Package -40): Language: cs_CZ";
            "(conflict) remote (Package -40): X-Whatever: that"]
           [];
         Printed "foo" (TStr "") false false ["test.c:2"] [] [] []], 1).
Proof. vm_compute. reflexivity. Qed.

End Battery.

(** ** The merge of translations *)

Module TargetFacts.
Import FormatFacts.

(** One step of a computation in [M]: the first bind of the goal, whose
    left side reads the heap or lifts a result. *)
Ltac run_read := unfold mbind at 1; unfold mread at 1.
Ltac run_lift := unfold mbind at 1; unfold mlift at 1.

Section Facts.
Context `{CatalogLayer}.
#[local] Arguments Py.format : simpl never.

(** A true conflict: no two of the three translations are equivalent. *)
Definition true_conflict (h : heap) (base local remote : pounit) : Prop :=
  _PoFileDiff._equal_translation h base local = false
  ∧ _PoFileDiff._equal_translation h base remote = false
  ∧ _PoFileDiff._equal_translation h local remote = false.

(** The strictly better head is adopted, without a conflict. *)
Lemma merge_target_adopt_local out base local remote h :
  true_conflict h base local remote →
  _PoFileDiff.quality remote < _PoFileDiff.quality local →
  _PoFileDiff._merge_target out base local remote h =
    Ok ((_PoFileDiff.set_translation_from local out, 0), h).
Proof.
  intros (Ebl & Ebr & Elr) Hq. unfold _PoFileDiff._merge_target, mbind, mread.
  rewrite Ebl, Ebr, Elr. by rewrite decide_True.
Qed.

Lemma merge_target_adopt_remote out base local remote h :
  true_conflict h base local remote →
  _PoFileDiff.quality local < _PoFileDiff.quality remote →
  _PoFileDiff._merge_target out base local remote h =
    Ok ((_PoFileDiff.set_translation_from remote out, 0), h).
Proof.
  intros (Ebl & Ebr & Elr) Hq. unfold _PoFileDiff._merge_target, mbind, mread.
  rewrite Ebl, Ebr, Elr. rewrite decide_False by lia. by rewrite decide_True.
Qed.

(** On a tie the marker branch runs. *)
Lemma merge_target_tie out base local remote h :
  true_conflict h base local remote →
  _PoFileDiff.quality local = _PoFileDiff.quality remote →
  _PoFileDiff._merge_target out base local remote h =
    _PoFileDiff.conflict_marker out local remote h.
Proof.
  intros (Ebl & Ebr & Elr) Hq. unfold _PoFileDiff._merge_target, mbind, mread.
  rewrite Ebl, Ebr, Elr. by rewrite !decide_False by lia.
Qed.

(** The labels of the marker. *)
Definition label_file (unit : pounit) (other : string) : string :=
  _PoFileDiff.store_filename unit other.
Definition label_project (st : pofile) : string :=
  Py.get_default (parseheader st) "Project-Id-Version" "???".

(** The marker branch on two plain strings of an entry without plural,
    when no label holds a percent sign: the target is the marker of the
    specification, the unit is fuzzy, the count is 1, and the heap is as
    it was. *)
Lemma conflict_marker_plain out local remote h sl sr l r :
  _store local = Some sl → _store remote = Some sr →
  target local = TStr l → target remote = TStr r →
  hasplural local = false →
  no_percent (label_file local "local") = true →
  no_percent (label_project sl) = true →
  no_percent (label_file remote "remote") = true →
  no_percent (label_project sr) = true →
  _PoFileDiff.conflict_marker out local remote h =
    Ok ((Unit.markfuzzy true
           (Unit.settarget
              (TStr (marker (label_file local "local") (label_project sl)
                            (label_file remote "remote") (label_project sr) l r))
              out), 1), h).
Proof.
  intros Hsl Hsr Hl Hr Hpl Hp1 Hp2 Hp3 Hp4.
  unfold _PoFileDiff.conflict_marker, _PoFileDiff.store_project.
  rewrite Hsl, Hsr, Hl, Hr, Hpl. simpl rbind. rewrite format_marker_format.
  unfold mbind, mread, mlift, mret. simpl.
  fold (label_project sl). fold (label_project sr).
  fold (label_file local "local"). fold (label_file remote "remote").
  rewrite format_marker_template by done. done.
Qed.

(** The same branch when the local project version ends with a percent
    sign: the second [%] raises. *)
Lemma conflict_marker_percent out local remote h sl sr l r p :
  _store local = Some sl → _store remote = Some sr →
  target local = TStr l → target remote = TStr r →
  hasplural local = false →
  no_percent (label_file local "local") = true →
  label_project sl = p +:+ "%" → no_percent p = true →
  _PoFileDiff.conflict_marker out local remote h = Raise ValueError.
Proof.
  intros Hsl Hsr Hl Hr Hpl Hp1 Hp2 Hp.
  unfold _PoFileDiff.conflict_marker, _PoFileDiff.store_project.
  rewrite Hsl, Hsr, Hl, Hr, Hpl. simpl rbind. rewrite format_marker_format.
  unfold mbind, mread, mlift, mret. simpl.
  fold (label_project sl). fold (label_project sr).
  fold (label_file local "local"). fold (label_file remote "remote").
  rewrite Hp2. rewrite format_marker_template_percent by done. done.
Qed.

(** *** The heap in the marker branch *)

Lemma strings_at_insert_eq (h : heap) (l : loc) (ss : list string) :
  l < length h → Unit.strings_at (<[l := ss]> h) l = ss.
Proof.
  intros Hl. unfold Unit.strings_at, heap, loc in *.
  by rewrite list_lookup_insert_eq.
Qed.

Lemma strings_at_insert_ne (h : heap) (l l' : loc) (ss : list string) :
  l ≠ l' → Unit.strings_at (<[l' := ss]> h) l = Unit.strings_at h l.
Proof.
  intros Hl. unfold Unit.strings_at, heap, loc in *.
  by rewrite list_lookup_insert_ne.
Qed.

Lemma strings_at_alloc (h : heap) (l : loc) (ss : list string) :
  l < length h → Unit.strings_at (h ++ [ss]) l = Unit.strings_at h l.
Proof.
  intros Hl. unfold Unit.strings_at, heap, loc in *.
  by rewrite lookup_app_l.
Qed.

Lemma pad_to_shared (n : nat) (l : loc) (h : heap) :
  _PoFileDiff.pad_to n (_PoFileDiff.Shared l) h =
    Ok (_PoFileDiff.Shared l,
        <[l := Unit.strings_at h l
               ++ replicate (n - length (Unit.strings_at h l)) ""]> h).
Proof. reflexivity. Qed.

Lemma pad_to_fresh (n : nat) (ss : list string) (h : heap) :
  _PoFileDiff.pad_to n (_PoFileDiff.Fresh ss) h =
    Ok (_PoFileDiff.Fresh (ss ++ replicate (n - length ss) ""), h).
Proof. reflexivity. Qed.

(** Padding a list to a length it has already leaves the other lists of
    the heap as they are. *)
Lemma pad_to_keeps (n : nat) (rs : _PoFileDiff.strings_ref) (h : heap) (l : loc) :
  (∀ l', rs = _PoFileDiff.Shared l' → l' ≠ l) →
  ∃ rs' h',
    _PoFileDiff.pad_to n rs h = Ok (rs', h')
    ∧ Unit.strings_at h' l = Unit.strings_at h l
    ∧ length h' = length h.
Proof.
  intros Hne. destruct rs as [l'|ss].
  - rewrite pad_to_shared. eexists _, _. split_and!; [done| |].
    + apply strings_at_insert_ne. intros ->. by eapply Hne.
    + unfold heap, loc in *. by rewrite length_insert.
  - rewrite pad_to_fresh. by eexists _, _.
Qed.

(** The marker branch pads the shorter list in place.  When the target
    of the local unit is a multistring with fewer strings than the
    remote target has, the [strings] of that multistring are longer
    after the branch than before: the unit of the input has changed. *)
Lemma conflict_marker_pads_local out local remote h l res h' :
  target local = TMulti l → l < length h →
  length (Unit.strings_at h l)
    < length (_PoFileDiff.ref_strings h (_PoFileDiff.getattr_strings (target remote))) →
  _PoFileDiff.conflict_marker out local remote h = Ok (res, h') →
  Unit.strings_at h' l =
    Unit.strings_at h l
    ++ replicate
         (length (_PoFileDiff.ref_strings h
                    (_PoFileDiff.getattr_strings (target remote)))
          - length (Unit.strings_at h l)) "".
Proof.
  intros Hl Hvalid Hlen. unfold _PoFileDiff.conflict_marker. rewrite Hl.
  change (_PoFileDiff.getattr_strings (TMulti l)) with (_PoFileDiff.Shared l).
  set (rs := _PoFileDiff.getattr_strings (target remote)) in *.
  set (n := length (_PoFileDiff.ref_strings h rs)) in *.
  set (ls' := Unit.strings_at h l ++ replicate (n - length (Unit.strings_at h l)) "").
  assert (∀ l', rs = _PoFileDiff.Shared l' → l' ≠ l) as Hne.
  { intros l' Ers ->. unfold n in Hlen. rewrite Ers in Hlen. simpl in Hlen. lia. }
  run_lift.
  destruct (rbind (_PoFileDiff.store_project local) _) as [tmpl|e]; [|done].
  run_read. fold n.
  unfold mbind at 1. rewrite pad_to_shared. fold ls'.
  run_read.
  unfold mbind at 1.
  match goal with
  | |- context [_PoFileDiff.pad_to ?n0 rs ?h1] =>
      destruct (pad_to_keeps n0 rs h1 l Hne) as (rs' & h2 & E2 & Hh2 & Hlen2);
      rewrite E2; clear E2
  end.
  rewrite strings_at_insert_eq in Hh2 by done.
  assert (l < length h2) as Hvalid2.
  { rewrite Hlen2. unfold heap, loc in *. by rewrite length_insert. }
  run_read.
  run_read.
  unfold mbind at 1.
  destruct (hasplural local).
  - run_lift.
    destruct (_PoFileDiff.format_pairs _ _ _) as [ss|e]; [|done].
    unfold _PoFileDiff.multistring. destruct ss as [|s0 ss]; [done|].
    unfold mbind, malloc, mret. intros [= _ <-].
    rewrite strings_at_alloc by done. done.
  - run_lift.
    destruct (_PoFileDiff.first _) as [l0|e]; [|done].
    run_lift.
    destruct (_PoFileDiff.first _) as [r0|e]; [|done].
    run_lift.
    destruct (Py.format tmpl _) as [s|e]; [|done].
    unfold mret. intros [= _ <-]. done.
Qed.

(** On a true conflict the strictly better head is adopted, with no
    conflict counted; on a tie between two plain strings of an entry
    without plural, in catalogs whose labels hold no percent sign, the
    target is the conflict marker of the two, the unit is fuzzy and one
    conflict is counted. *)
Theorem merge_target_true_conflict out base local remote h :
  true_conflict h base local remote →
  (_PoFileDiff.quality remote < _PoFileDiff.quality local →
     _PoFileDiff._merge_target out base local remote h =
       Ok ((_PoFileDiff.set_translation_from local out, 0), h))
  ∧ (_PoFileDiff.quality local < _PoFileDiff.quality remote →
     _PoFileDiff._merge_target out base local remote h =
       Ok ((_PoFileDiff.set_translation_from remote out, 0), h))
  ∧ (_PoFileDiff.quality local = _PoFileDiff.quality remote →
     ∀ sl sr l r,
       _store local = Some sl → _store remote = Some sr →
       target local = TStr l → target remote = TStr r →
       hasplural local = false →
       no_percent (label_file local "local") = true →
       no_percent (label_project sl) = true →
       no_percent (label_file remote "remote") = true →
       no_percent (label_project sr) = true →
       _PoFileDiff._merge_target out base local remote h =
         Ok ((Unit.markfuzzy true
                (Unit.settarget
                   (TStr (marker (label_file local "local") (label_project sl)
                            (label_file remote "remote") (label_project sr) l r))
                   out), 1), h)).
Proof.
  intros Hc. split_and!.
  - by apply merge_target_adopt_local.
  - by apply merge_target_adopt_remote.
  - intros Hq sl sr l r Hsl Hsr Hl Hr Hpl Hp1 Hp2 Hp3 Hp4.
    rewrite merge_target_tie by done. by eapply conflict_marker_plain.
Qed.

End Facts.

Import Battery.
#[local] Existing Instance PyPo.layer.
#[local] Existing Instance PyPo.utc.

(** C3, on the code: the marker is made with two [%] operations, the
    first of which puts the file names and project versions into the
    format of the second.  With a project version of [100%] in the local
    catalog, the three translations [bar], [baz], [qyzzy] conflict, both
    heads score 2, and the second [%] meets [%)]: [_merge_target] raises
    [ValueError], sets no marker and returns no count. *)
Theorem C3_conflict_marker_percent_raises :
  let base := entry "foo" "bar" in
  let local := in_catalog [("Project-Id-Version", "100%")] (entry "foo" "baz") in
  let remote := entry "foo" "qyzzy" in
  let out := _PoFileDiff.empty_unit local in
  isheader local = false
  ∧ _PoFileDiff._equal_translation [] base local = false
  ∧ _PoFileDiff._equal_translation [] base remote = false
  ∧ _PoFileDiff._equal_translation [] local remote = false
  ∧ _PoFileDiff.quality local = 2 ∧ _PoFileDiff.quality remote = 2
  ∧ _PoFileDiff._merge_target out base local remote [] = Raise ValueError
  ∧ _PoFileDiff.merge [base] [local] [remote] [] = Raise ValueError.
Proof. cbv zeta. split_and!; vm_compute; reflexivity. Qed.

Lemma merge_target_true_conflict_witness :
  let base := entry "foo" "bar" in
  let local := entry "foo" "baz" in
  let remote := entry "foo" "qyzzy" in
  let out := _PoFileDiff.empty_unit local in
  true_conflict [] base local remote
  ∧ _PoFileDiff.quality local = _PoFileDiff.quality remote
  ∧ _PoFileDiff._merge_target out base local remote [] =
      Ok ((Unit.markfuzzy true
             (Unit.settarget
                (TStr (marker "local" "???" "remote" "???" "baz" "qyzzy")) out),
           1), []).
Proof.
  cbv zeta.
  assert (true_conflict [] (entry "foo" "bar") (entry "foo" "baz")
            (entry "foo" "qyzzy")) as Hc by (split_and!; vm_compute; reflexivity).
  split; [exact Hc|]. split; [reflexivity|].
  refine (proj2 (proj2 (merge_target_true_conflict _ _ _ _ _ Hc)) eq_refl
            (MkPofile None []) (MkPofile None []) "baz" "qyzzy"
            eq_refl eq_refl eq_refl eq_refl eq_refl eq_refl eq_refl eq_refl eq_refl).
Defined.

(** The template of the marker for that catalog, and what the second
    [%] makes of it; with a version without [%] the marker is the one of
    the specification. *)
Example marker_template_percent :
  Py.format _PoFileDiff.marker_format ["local"; "100%"; "remote"; "???"]
  = Ok (text ["#-#-#-#-#  local (100%)  #-#-#-#-#"; "%s";
              "#-#-#-#-#  remote (???)  #-#-#-#-#"; "%s"])
  ∧ Py.format (text ["#-#-#-#-#  local (100%)  #-#-#-#-#"; "%s";
                     "#-#-#-#-#  remote (???)  #-#-#-#-#"; "%s"])
      ["baz"; "qyzzy"]
    = Raise ValueError
  ∧ Py.format (text ["#-#-#-#-#  local (1.0)  #-#-#-#-#"; "%s";
                     "#-#-#-#-#  remote (???)  #-#-#-#-#"; "%s"])
      ["baz"; "qyzzy"]
    = Ok (text ["#-#-#-#-#  local (1.0)  #-#-#-#-#"; "baz";
                "#-#-#-#-#  remote (???)  #-#-#-#-#"; "qyzzy"]).
Proof. split_and!; vm_compute; reflexivity. Qed.


(** Where one head only changed the translation, the output unit has the
    multistring of that head as its target: the two units share the
    list of strings. *)
Example merge_shares_target :
  let h := [["x"]; ["x"]; ["y"; "z"]] in
  let base := plural_entry "foo" "foos" 0 in
  let local := plural_entry "foo" "foos" 1 in
  let remote := plural_entry "foo" "foos" 2 in
  ∃ out,
    _PoFileDiff.merge [base] [local] [remote] h = Ok (([out], 0), h)
    ∧ target out = target remote.
Proof. cbv zeta. eexists. split; vm_compute; reflexivity. Qed.

End TargetFacts.

(** ** The merge of headers *)

Module HeaderFacts.
Import FormatFacts MergeListFacts.

Lemma append_nil_r (s : string) : s +:+ "" = s.
Proof.
  induction s as [|c s IH]; [done|].
  change (String c s +:+ "") with (String c (s +:+ "")). by rewrite IH.
Qed.

Section Facts.
Context `{CatalogLayer} `{Clock}.
#[local] Arguments Py.format : simpl never.

(** The three header dictionaries, the two heads, and what the two
    arbitrations answer: [pot] by [POT-Creation-Date], [rev] by
    [PO-Revision-Date]. *)
Variables (bd ld rd : Py.dict) (local remote : pounit) (pot rev : bool).

(** A key conflicts when its three values, [None] for a missing one, are
    pairwise distinct. *)
Definition conflicting (key : string) : Prop :=
  Py.get bd key ≠ Py.get ld key
  ∧ Py.get bd key ≠ Py.get rd key
  ∧ Py.get ld key ≠ Py.get rd key.

#[global] Instance conflicting_dec key : Decision (conflicting key).
Proof. unfold conflicting. apply _. Defined.

(** Whether local wins a conflict on [key]. *)
Definition use_local (key : string) : bool :=
  if Py.mem key _PoFileDiff._template_headers then pot else rev.

(** The value the merged header has for [key]. *)
Definition resolve (key : string) : option string :=
  if decide (Py.get bd key = Py.get ld key) then Py.get rd key
  else if decide (Py.get bd key = Py.get rd key ∨ Py.get ld key = Py.get rd key)
       then Py.get ld key
  else if use_local key then Py.get ld key else Py.get rd key.

Definition header_line (key : string) : string :=
  match resolve key with
  | Some value => key +:+ ": " +:+ value +:+ Py.nl
  | None => ""
  end.

Fixpoint header_text (keys : list string) : string :=
  match keys with
  | [] => ""
  | key :: keys' => header_line key +:+ header_text keys'
  end.

Hypothesis newer_pot :
  _PoFileDiff.newer ld rd "POT-Creation-Date" = Ok pot.
Hypothesis newer_rev :
  _PoFileDiff.newer ld rd "PO-Revision-Date" = Ok rev.

Lemma target_addnote text o u : target (Unit.addnote text o u) = target u.
Proof. unfold Unit.addnote. destruct (Unit.is_blank_text text), o; done. Qed.

Lemma fuzzy_addnote text o u : fuzzy (Unit.addnote text o u) = fuzzy u.
Proof. unfold Unit.addnote. destruct (Unit.is_blank_text text), o; done. Qed.

(** One round of the loop of [_merge_header]. *)
Lemma merge_header_key_spec key out c h s :
  target out = TStr s →
  ∃ out',
    _PoFileDiff.merge_header_key bd ld rd local remote key (out, c) h =
      Ok ((out', if decide (conflicting key) then 1 else c), h)
    ∧ target out' = TStr (s +:+ header_line key)
    ∧ fuzzy out' = fuzzy out.
Proof.
  intros Hs. unfold _PoFileDiff.merge_header_key, header_line, resolve, conflicting.
  assert (∀ (res : option string) (o : pounit) (n : nat),
    target o = TStr s → fuzzy o = fuzzy out →
    ∃ out',
      match res with
      | Some res =>
          (line ← mlift (Py.format ("%s: %s" +:+ Py.nl) [key; res]);
           out ← mread (λ h, _PoFileDiff.target_append h line o);
           mret (out, n))%M
      | None => mret (o, n)
      end h = Ok ((out', n), h)
      ∧ target out' =
          TStr (s +:+ match res with
                      | Some value => key +:+ ": " +:+ value +:+ Py.nl
                      | None => ""
                      end)
      ∧ fuzzy out' = fuzzy out) as Hfin.
  { intros [v|] o n Ho Hf.
    - rewrite format_header_line. unfold mbind, mlift, mread, mret.
      eexists. split; [reflexivity|]. unfold _PoFileDiff.target_append.
      rewrite Ho. done.
    - exists o. unfold mret. rewrite append_nil_r. done. }
  unfold mbind at 1.
  destruct (decide (Py.get bd key = Py.get ld key)) as [Ebl|Ebl].
  { rewrite decide_False by tauto. unfold mret at 1. by apply Hfin. }
  destruct (decide (Py.get bd key = Py.get rd key ∨ Py.get ld key = Py.get rd key))
    as [Er|Er].
  { rewrite decide_False by tauto. unfold mret at 1. by apply Hfin. }
  rewrite decide_True by tauto.
  unfold use_local.
  destruct (Py.mem key _PoFileDiff._template_headers).
  - rewrite newer_pot. unfold mbind at 1. unfold mlift at 1.
    destruct pot; unfold mret at 1; apply Hfin;
      by rewrite ?target_addnote, ?fuzzy_addnote.
  - rewrite newer_rev. unfold mbind at 1. unfold mlift at 1.
    destruct rev; unfold mret at 1; apply Hfin;
      by rewrite ?target_addnote, ?fuzzy_addnote.
Qed.

(** The whole loop: the count ends at 1 when a key conflicts and is
    what it was otherwise. *)
Lemma merge_header_keys_spec allkeys out c h s :
  target out = TStr s →
  ∃ out',
    _PoFileDiff.merge_header_keys bd ld rd local remote allkeys (out, c) h =
      Ok ((out', if decide (Exists conflicting allkeys) then 1 else c), h)
    ∧ target out' = TStr (s +:+ header_text allkeys)
    ∧ fuzzy out' = fuzzy out.
Proof.
  revert out c s. induction allkeys as [|key allkeys IH]; intros out c s Hs.
  - exists out. simpl. rewrite append_nil_r. split_and!; done.
  - destruct (merge_header_key_spec key out c h s Hs) as (out1 & E1 & Ht1 & Hf1).
    destruct (IH out1 (if decide (conflicting key) then 1 else c) _ Ht1)
      as (out' & E' & Ht' & Hf').
    exists out'. split_and!.
    + change (_PoFileDiff.merge_header_keys bd ld rd local remote
                (key :: allkeys) (out, c) h)
        with (mbind (_PoFileDiff.merge_header_key bd ld rd local remote key (out, c))
                (λ st, _PoFileDiff.merge_header_keys bd ld rd local remote
                         allkeys st) h).
      unfold mbind. rewrite E1, E'. do 3 f_equal.
      destruct (decide (conflicting key)) as [Hk|Hk].
      * rewrite (decide_True (P := Exists conflicting (key :: allkeys)));
          [by case_decide|]. by apply Exists_cons_hd.
      * destruct (decide (Exists conflicting allkeys)) as [Hks|Hks].
        -- rewrite decide_True; [done|]. by apply Exists_cons_tl.
        -- rewrite decide_False; [done|]. rewrite Exists_cons. tauto.
    + rewrite Ht'. simpl. by rewrite append_assoc.
    + by rewrite Hf', Hf1.
Qed.

(** On a conflicting key the value written is local's exactly when
    local is newer by the field of the key. *)
Lemma resolve_conflicting key :
  conflicting key →
  resolve key = (if use_local key then Py.get ld key else Py.get rd key)
  ∧ Py.get ld key ≠ Py.get rd key.
Proof.
  intros (Hbl & Hbr & Hlr). unfold resolve.
  rewrite decide_False by done. rewrite decide_False by tauto. done.
Qed.

End Facts.

Section Header.
Context `{CatalogLayer} `{Clock}.

(** The merge of three headers when the two arbitrations can be made
    (each of the two date fields is present in both heads and the clock
    knows the times): the merge returns; the count is 1 when a key of the
    merged key list conflicts and 0 otherwise; the text is made of the
    lines of the merged keys, where a conflicting key has the value of
    local if and only if local is newer by the field of the key; the
    merged keys are the keys that both heads have, or that one head has
    and the base has not. *)
Theorem merge_header_count (out base local remote : pounit) (h : heap)
    (pot rev : bool) :
  let bd := parseheaderstring (Unit.target_text h (target base)) in
  let ld := parseheaderstring (Unit.target_text h (target local)) in
  let rd := parseheaderstring (Unit.target_text h (target remote)) in
  _PoFileDiff.newer ld rd "POT-Creation-Date" = Ok pot →
  _PoFileDiff.newer ld rd "PO-Revision-Date" = Ok rev →
  ∃ allkeys out',
    DiffUtils.merge_list (Py.keys bd) (Py.keys ld) (Py.keys rd) = Ok allkeys
    ∧ NoDup allkeys
    ∧ (∀ key, key ∈ allkeys ↔ kept (Py.keys bd) (Py.keys ld) (Py.keys rd) key)
    ∧ _PoFileDiff._merge_header out base local remote h =
        Ok ((out', if decide (Exists (conflicting bd ld rd) allkeys) then 1 else 0), h)
    ∧ target out' = TStr (header_text bd ld rd pot rev allkeys)
    ∧ fuzzy out' =
        (if bool_decide (fuzzy base = fuzzy remote) then fuzzy local
         else fuzzy remote).
Proof.
  intros bd ld rd Hpot Hrev.
  destruct (merge_list_returns (Py.keys bd) (Py.keys ld) (Py.keys rd))
    as (allkeys & Ekeys & Hnd & Hin).
  destruct (merge_header_keys_spec bd ld rd local remote pot rev Hpot Hrev
              allkeys (Unit.settarget (TStr "") out) 0 h "" eq_refl)
    as (out1 & E1 & Ht1 & Hf1).
  exists allkeys, (Unit.markfuzzy
                     (if bool_decide (fuzzy base = fuzzy remote) then fuzzy local
                      else fuzzy remote) out1).
  split_and!; [done|done|done| |done|done].
  unfold _PoFileDiff._merge_header, mbind, mread, mlift, mret.
  fold bd ld rd. rewrite Ekeys, E1.
  unfold Unit.isfuzzy. rewrite MergeSimpleFacts.merge_simple_bool. done.
Qed.

End Header.

Import Battery.
#[local] Existing Instance PyPo.layer.
#[local] Existing Instance PyPo.utc.

(** The headers of [test_header_conflicts]: local is newer by
    [PO-Revision-Date] and remote by [POT-Creation-Date]; six keys
    conflict and the count is 1. *)
Lemma merge_header_count_witness :
  let out := _PoFileDiff.empty_unit header_local in
  let bd := parseheaderstring (Unit.target_text [] (target header_base)) in
  let ld := parseheaderstring (Unit.target_text [] (target header_local)) in
  let rd := parseheaderstring (Unit.target_text [] (target header_remote)) in
  _PoFileDiff.newer ld rd "POT-Creation-Date" = Ok false
  ∧ _PoFileDiff.newer ld rd "PO-Revision-Date" = Ok true
  ∧ ∃ allkeys out',
      DiffUtils.merge_list (Py.keys bd) (Py.keys ld) (Py.keys rd) = Ok allkeys
      ∧ NoDup allkeys
      ∧ (∀ key, key ∈ allkeys ↔ kept (Py.keys bd) (Py.keys ld) (Py.keys rd) key)
      ∧ _PoFileDiff._merge_header out header_base header_local header_remote [] =
          Ok ((out', if decide (Exists (conflicting bd ld rd) allkeys) then 1 else 0),
              [])
      ∧ target out' = TStr (header_text bd ld rd false true allkeys)
      ∧ fuzzy out' =
          (if bool_decide (fuzzy header_base = fuzzy header_remote)
           then fuzzy header_local else fuzzy header_remote).
Proof.
  cbv zeta.
  assert (_PoFileDiff.newer
            (parseheaderstring (Unit.target_text [] (target header_local)))
            (parseheaderstring (Unit.target_text [] (target header_remote)))
            "POT-Creation-Date" = Ok false) as Hpot by (vm_compute; reflexivity).
  assert (_PoFileDiff.newer
            (parseheaderstring (Unit.target_text [] (target header_local)))
            (parseheaderstring (Unit.target_text [] (target header_remote)))
            "PO-Revision-Date" = Ok true) as Hrev by (vm_compute; reflexivity).
  split; [exact Hpot|]. split; [exact Hrev|].
  exact (merge_header_count (_PoFileDiff.empty_unit header_local)
           header_base header_local header_remote [] false true Hpot Hrev).
Defined.

Example header_conflicts_count :
  ∃ out',
    _PoFileDiff._merge_header (_PoFileDiff.empty_unit header_local)
      header_base header_local header_remote [] = Ok ((out', 1), []).
Proof. eexists. vm_compute. reflexivity. Qed.

(** C4, on the code: the three headers differ on [Language], and the
    local one has no [PO-Revision-Date].  The arbitration reads the field
    with [dict.get], gets [None], and [_get_time] raises [TypeError]:
    [_merge_header] returns no count. *)
Theorem C4_merge_header_absent_date_raises :
  let base := header_entry ["Language: "] in
  let local := header_entry ["Language: cs"] in
  let remote :=
    header_entry ["PO-Revision-Date: 2013-12-11 11:40+0100"; "Language: cs_CZ"] in
  let out := _PoFileDiff.empty_unit local in
  isheader base = true ∧ isheader local = true ∧ isheader remote = true
  ∧ _PoFileDiff._merge_header out base local remote [] = Raise TypeError
  ∧ _PoFileDiff.merge [base] [local] [remote] [] = Raise TypeError.
Proof. cbv zeta. split_and!; vm_compute; reflexivity. Qed.

End HeaderFacts.

(** ** The catalog merger *)

Module MergeFacts.
Import Matcher3Facts.

(** The matcher on a base of one unit and two empty heads. *)
Lemma match3_base_only {U K : Type} `{Countable K}
    (keyfunc : U → K) (deletedfunc : U → bool) (u : U) :
  SetMatcher3.match_ keyfunc deletedfunc [u] [] [] = ([(Some u, None, None)], Ok tt).
Proof.
  destruct (match_spec keyfunc deletedfunc [u] [] []) as (ks & E & Hnd & Hks).
  assert (ks = [keyfunc u]) as ->.
  { assert (∀ k, k ∈ ks ↔ k = keyfunc u) as Hone.
    { intros k. rewrite Hks. unfold in_inputs. simpl. split.
      - intros [Hk|[Hk|Hk]]; [by apply list_elem_of_singleton in Hk| |];
          by apply elem_of_nil in Hk.
      - intros ->. left. by apply list_elem_of_singleton. }
    destruct ks as [|x [|y ks]].
    - exfalso. eapply elem_of_nil, Hone. done.
    - f_equal. apply Hone. by left.
    - exfalso. apply NoDup_cons in Hnd as [Hx _]. apply Hx.
      assert (x = keyfunc u) as -> by (apply Hone; by left).
      assert (y = keyfunc u) as -> by (apply Hone; right; by left).
      by left. }
  rewrite E. simpl. unfold triple_of_key. simpl. by rewrite decide_True.
Qed.

Section Facts.
Context `{CatalogLayer} `{Clock}.

(** *** A unit of the base that both heads lack *)

(** The merge of one live unit of the base that no head has. *)
Lemma merge_base_only_live_raises
    (src plural ctx : string) (tgt : target_t) (fz : bool)
    (locs dev tr types pc pi pp : list string) (st : option pofile) (h : heap) :
  _PoFileDiff.merge
    [MkUnit src plural ctx tgt fz false locs dev tr types pc pi pp st] [] [] h
  = Raise AttributeError.
Proof.
  unfold _PoFileDiff.merge, DiffUtils.merge. by rewrite match3_base_only.
Qed.

(** The triple of a live unit of the base alone: [merge_unit] clones
    [None] and calls [makeobsolete] on the clone. *)
Lemma merge_step_base_only_live (bk : DiffUtils.buckets) (u : pounit) (h : heap) :
  obsolete u = false →
  DiffUtils.merge_step _PoFileDiff.empty_unit _PoFileDiff._merge_unit bk
    (Some u, None, None) h = Raise AttributeError.
Proof.
  intros Hu. unfold DiffUtils.merge_step, DiffUtils.merge_unit, mbind. simpl.
  unfold Unit.isobsolete. by rewrite Hu.
Qed.

(** The loop of [merge] raises when its body raises on one of the
    triples, whatever the state it is reached in. *)
Lemma merge_loop_raises ts t bk h :
  t ∈ ts →
  (∀ bk h, ∃ e, DiffUtils.merge_step _PoFileDiff.empty_unit
                  _PoFileDiff._merge_unit bk t h = Raise e) →
  ∃ e, DiffUtils.merge_loop _PoFileDiff.empty_unit _PoFileDiff._merge_unit
         bk ts h = Raise e.
Proof.
  intros Hin Hraise. revert bk h.
  induction ts as [|t' ts IH]; intros bk h; [by apply elem_of_nil in Hin|].
  simpl. unfold mbind at 1.
  apply elem_of_cons in Hin as [<-|Hin].
  - destruct (Hraise bk h) as [e ->]. by eexists.
  - destruct (DiffUtils.merge_step _ _ bk t' h) as [[bk1 h1]|e]; [|by eexists].
    by apply IH.
Qed.

(** C2, on the code: when the base [b] holds a live unit whose key no
    unit of [x] has, [merge(b, x, x)] returns no catalog.  The matcher
    yields the triple [(unit, None, None)]; [merge_unit] clones [None]
    and calls [makeobsolete] on it, an [AttributeError], unless an
    earlier triple has raised already. *)
Theorem C2_merge_live_base_unit_raises (b x : list pounit) (u : pounit) (h : heap) :
  NoDup (Unit.getid <$> b) → NoDup (Unit.getid <$> x) →
  u ∈ b → obsolete u = false → Unit.getid u ∉ Unit.getid <$> x →
  ∃ e, _PoFileDiff.merge b x x h = Raise e.
Proof.
  intros Hb Hx Hu Hlive Hkey.
  destruct (match_spec Unit.getid Unit.isobsolete b x x) as (ks & E & Hnd & Hks).
  unfold _PoFileDiff.merge, DiffUtils.merge. rewrite E.
  destruct (merge_loop_raises (triple_of_key Unit.getid b x x <$> ks)
              (Some u, None, None) (DiffUtils.MkBuckets [] [] [] 0) h)
    as [e He].
  - apply list_elem_of_fmap. exists (Unit.getid u). split.
    + unfold triple_of_key. rewrite find_key_NoDup by done.
      assert (find_key Unit.getid (Unit.getid u) x = None) as ->
        by by apply find_key_None.
      done.
    + apply Hks. left. by apply list_elem_of_fmap_2.
  - intros bk h0. exists AttributeError. by apply merge_step_base_only_live.
  - exists e. unfold mbind. by rewrite He.
Qed.

(** An obsolete unit of the base that both heads lack is dropped. *)
Lemma merge_base_only_obsolete
    (src plural ctx : string) (tgt : target_t) (fz : bool)
    (locs dev tr types pc pi pp : list string) (st : option pofile) (h : heap) :
  _PoFileDiff.merge
    [MkUnit src plural ctx tgt fz true locs dev tr types pc pi pp st] [] [] h
  = Ok (([], 0), h).
Proof.
  unfold _PoFileDiff.merge, DiffUtils.merge. by rewrite match3_base_only.
Qed.

(** *** The bands of the output *)

(** The band [merge] puts a unit in: headers, then the live entries,
    then the obsolete ones. *)
Definition band (u : pounit) : nat :=
  if isheader u then 0 else if Unit.isobsolete u then 2 else 1.

(** The units [merge_unit] returns for the triples, in the order of the
    triples, and the sum of the conflicts. *)
Fixpoint merge_units (ts : list (option pounit * option pounit * option pounit))
    : M (list pounit * nat) :=
  match ts with
  | [] => mret ([], 0)
  | (b, l, r) :: ts' =>
      ('(u, c) ← _PoFileDiff.merge_unit b l r;
       '(us, cs) ← merge_units ts';
       mret (match u with Some u => u :: us | None => us end, c + cs))%M
  end.

Definition in_band (n : nat) (u : pounit) : Prop := band u = n.

#[global] Instance in_band_dec n u : Decision (in_band n u).
Proof. unfold in_band. apply _. Defined.

Lemma filter_in_band_singleton n u :
  filter (in_band n) [u] = if Nat.eqb (band u) n then [u] else [].
Proof.
  rewrite filter_cons, filter_nil. unfold in_band.
  case_decide as Hd.
  - apply Nat.eqb_eq in Hd. by rewrite Hd.
  - apply Nat.eqb_neq in Hd. by rewrite Hd.
Qed.

Lemma merge_loop_spec ts bk h bk' h' :
  DiffUtils.merge_loop _PoFileDiff.empty_unit _PoFileDiff._merge_unit bk ts h
    = Ok (bk', h') →
  ∃ us c,
    merge_units ts h = Ok ((us, c), h')
    ∧ DiffUtils.headers bk' = DiffUtils.headers bk ++ filter (in_band 0) us
    ∧ DiffUtils.normal bk' = DiffUtils.normal bk ++ filter (in_band 1) us
    ∧ DiffUtils.obsolete_units bk' =
        DiffUtils.obsolete_units bk ++ filter (in_band 2) us
    ∧ DiffUtils.conflicts bk' = DiffUtils.conflicts bk + c.
Proof.
  revert bk h. induction ts as [|[[b l] r] ts IH]; intros bk h.
  - simpl. unfold mret. intros [= <- <-]. exists [], 0.
    rewrite !filter_nil, !app_nil_r. split_and!; [done..|lia].
  - simpl. unfold mbind at 1. unfold DiffUtils.merge_step.
    unfold mbind at 1. unfold _PoFileDiff.merge_unit.
    destruct (DiffUtils.merge_unit _ _ b l r h) as [[[u c] h1]|e] eqn:Emu; [|done].
    assert (∃ bk1,
      (match u with
       | Some u =>
           if isheader u
           then mret (DiffUtils.MkBuckets (DiffUtils.headers bk ++ [u])
                        (DiffUtils.normal bk) (DiffUtils.obsolete_units bk)
                        (DiffUtils.conflicts bk))
           else if Unit.isobsolete u
           then mret (DiffUtils.MkBuckets (DiffUtils.headers bk)
                        (DiffUtils.normal bk) (DiffUtils.obsolete_units bk ++ [u])
                        (DiffUtils.conflicts bk))
           else mret (DiffUtils.MkBuckets (DiffUtils.headers bk)
                        (DiffUtils.normal bk ++ [u]) (DiffUtils.obsolete_units bk)
                        (DiffUtils.conflicts bk))
       | None => mret bk
       end) h1 = Ok (bk1, h1)
      ∧ let us := match u with Some u => [u] | None => [] end in
        DiffUtils.headers bk1 = DiffUtils.headers bk ++ filter (in_band 0) us
        ∧ DiffUtils.normal bk1 = DiffUtils.normal bk ++ filter (in_band 1) us
        ∧ DiffUtils.obsolete_units bk1 =
            DiffUtils.obsolete_units bk ++ filter (in_band 2) us
        ∧ DiffUtils.conflicts bk1 = DiffUtils.conflicts bk) as (bk1 & E1 & Hh & Hn & Ho & Hc).
    { destruct u as [u|]; simpl.
      - rewrite !filter_in_band_singleton. unfold band.
        destruct (isheader u) eqn:Hhd; [|destruct (Unit.isobsolete u) eqn:Hob];
          (eexists; split; [reflexivity|]); simpl; by rewrite ?app_nil_r.
      - exists bk. by rewrite !app_nil_r. }
    unfold mbind at 1. rewrite E1. unfold mret at 1.
    intros Hloop. apply IH in Hloop as (us & cs & Eus & Hh' & Hn' & Ho' & Hc').
    simpl in Hh', Hn', Ho', Hc'.
    exists (match u with Some u => u :: us | None => us end), (c + cs).
    split_and!.
    + simpl. unfold mbind at 1. unfold _PoFileDiff.merge_unit. rewrite Emu.
      unfold mbind. rewrite Eus. done.
    + rewrite Hh', Hh. destruct u; simpl; rewrite ?filter_cons, ?app_nil_r; [|done].
      case_decide; by rewrite <- ?app_assoc.
    + rewrite Hn', Hn. destruct u; simpl; rewrite ?filter_cons, ?app_nil_r; [|done].
      case_decide; by rewrite <- ?app_assoc.
    + rewrite Ho', Ho. destruct u; simpl; rewrite ?filter_cons, ?app_nil_r; [|done].
      case_decide; by rewrite <- ?app_assoc.
    + rewrite Hc', Hc. lia.
Qed.


Lemma band_le_2 (u : pounit) : band u ≤ 2.
Proof. unfold band. destruct (isheader u), (Unit.isobsolete u); lia. Qed.




End Facts.

(** A catalog whose local head has an obsolete entry first and the
    header last: the merged units come in that order, and [merge] puts
    the header first and the obsolete entry last. *)
Definition bands_base : list pounit :=
  [Battery.header_entry ["Language: cs"]; Battery.entry "foo" "FOO";
   Battery.entry "bar" "bar"].
Definition bands_local : list pounit :=
  [Battery.obsolete_ (Battery.entry "bar" "bar"); Battery.entry "foo" "FOO";
   Battery.header_entry ["Language: cs"]].

Definition bands_out : list pounit :=
  Eval vm_compute in
    match @_PoFileDiff.merge PyPo.layer PyPo.utc bands_base bands_local bands_base [] with
    | Ok ((out, _), _) => out
    | Raise _ => []
    end.

Example bands_out_printed :
  Battery.print <$> bands_out =
    [Battery.Printed "" (TStr (Battery.text ["Language: cs"])) false false [] [] [] [];
     Battery.plain "foo" "FOO";
     Battery.Printed "bar" (TStr "bar") false true [] [] [] []].
Proof. vm_compute. reflexivity. Qed.

(** A header that the remote head lacks is made obsolete; it is a header
    still, and stays in the first band, before the live entries. *)
Example obsolete_header_in_header_band :
  Battery.run [Battery.header_entry ["Language: cs"]; Battery.entry "foo" "FOO"]
    [Battery.entry "foo" "FOO"; Battery.header_entry ["Language: cs"]]
    [Battery.entry "foo" "FOO"]
  = Ok ([Battery.Printed "" (TStr (Battery.text ["Language: cs"])) false true
           [] [] [] [];
         Battery.plain "foo" "FOO"], 0).
Proof. vm_compute. reflexivity. Qed.

(** [merge(b, x, x)] where [b] has the live entry [bar] and [x] has not. *)
Example merge_convergence_raises :
  Battery.run [Battery.entry "foo" "FOO"; Battery.entry "bar" "BAR"]
    [Battery.entry "foo" "FOO"] [Battery.entry "foo" "FOO"]
  = Raise AttributeError.
Proof. vm_compute. reflexivity. Qed.

Lemma C2_merge_live_base_unit_raises_witness :
  let b := [Battery.entry "foo" "FOO"; Battery.entry "bar" "BAR"] in
  let x := [Battery.entry "foo" "FOO"] in
  NoDup (Unit.getid <$> b) ∧ NoDup (Unit.getid <$> x)
  ∧ Battery.entry "bar" "BAR" ∈ b
  ∧ obsolete (Battery.entry "bar" "BAR") = false
  ∧ (Unit.getid (Battery.entry "bar" "BAR") ∉ Unit.getid <$> x)
  ∧ ∃ e, @_PoFileDiff.merge PyPo.layer PyPo.utc b x x [] = Raise e.
Proof.
  cbv zeta.
  assert (NoDup (Unit.getid <$> [Battery.entry "foo" "FOO"; Battery.entry "bar" "BAR"]))
    as Hb by (refine (bool_decide_unpack _ _); vm_compute; exact I).
  assert (NoDup (Unit.getid <$> [Battery.entry "foo" "FOO"]))
    as Hx by (refine (bool_decide_unpack _ _); vm_compute; exact I).
  assert (Battery.entry "bar" "BAR"
            ∈ [Battery.entry "foo" "FOO"; Battery.entry "bar" "BAR"]) as Hu
    by (right; left).
  assert (Unit.getid (Battery.entry "bar" "BAR")
            ∉ Unit.getid <$> [Battery.entry "foo" "FOO"]) as Hk
    by (refine (bool_decide_unpack _ _); vm_compute; exact I).
  split; [exact Hb|]. split; [exact Hx|]. split; [exact Hu|].
  split; [reflexivity|]. split; [exact Hk|].
  exact (@C2_merge_live_base_unit_raises PyPo.layer PyPo.utc _ _ _ [] Hb Hx Hu
           eq_refl Hk).
Defined.

End MergeFacts.

(** ** Laws of the scalar and list merges *)

Module MergeLaws.
Import Matcher3Facts MergeListFacts.

Section Matcher.
Context {U K : Type} `{Countable K}.
Variable keyfunc : U → K.
Variable deletedfunc : U → bool.

(** [SetMatcher3.match] ends without raising on any three sequences,
    also with repeated keys: it yields one triple for each key of the
    inputs, the triple of the last unit of each input with that key, and
    no key twice; its closing assertions hold. *)
Theorem match3_returns (base local remote : list U) :
  ∃ ks,
    SetMatcher3.match_ keyfunc deletedfunc base local remote =
      (triple_of_key keyfunc base local remote <$> ks, Ok tt)
    ∧ NoDup ks
    ∧ (∀ k, k ∈ ks ↔ in_inputs keyfunc base local remote k).
Proof. apply match_spec. Qed.

End Matcher.

Section Lists.
Context {A : Type} `{Countable A}.

(** [merge_list] never raises: it returns, without repetition, the
    elements that both heads have, or that one head has and the base has
    not. *)
Theorem merge_list_total (base local remote : list A) :
  ∃ merged,
    DiffUtils.merge_list base local remote = Ok merged
    ∧ NoDup merged
    ∧ (∀ x, x ∈ merged ↔ kept base local remote x).
Proof. apply merge_list_returns. Qed.

Lemma kept_comm (base local remote : list A) (x : A) :
  kept base local remote x ↔ kept base remote local x.
Proof. unfold kept. tauto. Qed.

(** The two heads can be exchanged: [merge_simple] answers the same,
    value or exception, and [merge_list] returns the same elements
    (their order may differ). *)
Theorem merge_heads_commute (b l r : A) (base local remote : list A) :
  DiffUtils.merge_simple b l r = DiffUtils.merge_simple b r l
  ∧ ∃ m1 m2,
      DiffUtils.merge_list base local remote = Ok m1
      ∧ DiffUtils.merge_list base remote local = Ok m2
      ∧ (∀ x, x ∈ m1 ↔ x ∈ m2).
Proof.
  split.
  - unfold DiffUtils.merge_simple.
    destruct (decide (b = r)), (decide (b = l)), (decide (l = r)),
      (decide (r = l)); congruence.
  - destruct (merge_list_returns base local remote) as (m1 & E1 & _ & H1).
    destruct (merge_list_returns base remote local) as (m2 & E2 & _ & H2).
    exists m1, m2. split_and!; [done..|].
    intros x. rewrite H1, H2. apply kept_comm.
Qed.

End Lists.
End MergeLaws.

(** ** The order of the triples *)

Module Matcher3Order.
Import SetMatcher3 Matcher3Facts.

Section Step.
Context {U K : Type} `{Countable K}.
Variable keyfunc : U → K.
Variable deletedfunc : U → bool.

Local Abbreviation imap := (gmap K (_Item3 U)).
Local Abbreviation triple := (@SetMatcher3.triple U).
Implicit Types (m : imap) (u : U) (k : K) (w lw rw bw : list U).

(** The sweep passes units that are done, and nothing else. *)
Lemma skip_done_prefix m w w' :
  skip_done keyfunc m w = Ok w' →
  ∃ pre, w = pre ++ w' ∧ ∀ u, u ∈ pre → dn m (keyfunc u) = true.
Proof.
  revert w'. induction w as [|x w IH]; intros w'; simpl.
  - intros [= <-]. exists []. split; [done|]. intros u Hu. by apply elem_of_nil in Hu.
  - unfold _item. destruct (m !! keyfunc x) as [i|] eqn:Hi; simpl; [|done].
    destruct (i3_done i) eqn:Hd.
    + intros E. apply IH in E as (pre & -> & Hpre). exists (x :: pre). split; [done|].
      intros u Hu. apply elem_of_cons in Hu as [->|Hu]; [|by apply Hpre].
      unfold dn. by rewrite Hi.
    + intros [= <-]. exists []. split; [done|]. intros u Hu. by apply elem_of_nil in Hu.
Qed.

(** The sweep stays where it is when no unit ahead is done. *)
Lemma skip_done_stay m w :
  (∀ u, u ∈ w → is_Some (m !! keyfunc u)) →
  (∀ u, u ∈ w → dn m (keyfunc u) = false) →
  skip_done keyfunc m w = Ok w.
Proof.
  intros Hdom Hfresh. destruct w as [|x w]; [done|]. simpl.
  destruct (Hdom x) as [i Hi]; [by left|]. unfold _item. rewrite Hi. simpl.
  pose proof (Hfresh x) as Hd. unfold dn in Hd. rewrite Hi in Hd.
  by rewrite Hd by by left.
Qed.

(** One round of the main loop. *)
Lemma main_loop_step fuel m lw rw :
  loop_inv keyfunc m lw rw → ¬ (lw = [] ∧ rw = []) →
  ∃ u i (inject : bool) lw1 rw1 lw2 rw2,
    m !! keyfunc u = Some i ∧ i3_done i = false
    ∧ (if inject
       then rw = u :: rw1 ∧ lw1 = lw ∧ not_local keyfunc deletedfunc m u = Ok true
       else lw = u :: lw1 ∧ rw1 = rw)
    ∧ skip_done keyfunc (<[keyfunc u := set_done i]> m) rw1 = Ok rw2
    ∧ skip_done keyfunc (<[keyfunc u := set_done i]> m) lw1 = Ok lw2
    ∧ loop_inv keyfunc (<[keyfunc u := set_done i]> m) lw2 rw2
    ∧ length lw2 ≤ length lw1 ∧ length rw2 ≤ length rw1
    ∧ main_loop keyfunc deletedfunc (S fuel) m lw rw =
        (slot_of i
           :: (main_loop keyfunc deletedfunc fuel (<[keyfunc u := set_done i]> m)
                 lw2 rw2).1,
         (main_loop keyfunc deletedfunc fuel (<[keyfunc u := set_done i]> m)
            lw2 rw2).2).
Proof.
  intros Hinv Hne.
  assert (main_loop keyfunc deletedfunc (S fuel) m lw rw =
    (inject ← glift (match _Walker.get rw with
                     | Some unit => not_local keyfunc deletedfunc m unit
                     | None => Ok false
                     end);
     '(item_map, lw, rw) ←
       (if inject : bool then
          match _Walker.get rw with
          | Some unit =>
              item_map ← emit keyfunc m unit;
              gret (item_map, lw, _Walker.next rw)
          | None => glift (Raise TypeError)
          end
        else
          match _Walker.get lw with
          | Some unit =>
              item_map ← emit keyfunc m unit;
              gret (item_map, _Walker.next lw, rw)
          | None => gret (m, lw, rw)
          end);
     rw ← glift (skip_done keyfunc item_map rw);
     lw ← glift (skip_done keyfunc item_map lw);
     main_loop keyfunc deletedfunc fuel item_map lw rw)%gen) as ->.
  { destruct lw, rw; try done. exfalso. by apply Hne. }
  assert (∃ u i lw1 rw1 (inject : bool),
    (match _Walker.get rw with
     | Some unit => not_local keyfunc deletedfunc m unit
     | None => Ok false
     end) = Ok inject
    ∧ m !! keyfunc u = Some i ∧ i3_done i = false
    ∧ (if inject
       then rw = u :: rw1 ∧ lw1 = lw ∧ not_local keyfunc deletedfunc m u = Ok true
       else lw = u :: lw1 ∧ rw1 = rw))
    as (u & i & lw1 & rw1 & inject & Einj & Hi & Hd & Hbranch).
  { destruct rw as [|r rw'].
    - destruct lw as [|l lw']; [by destruct Hne|].
      destruct (inv_dom_l _ _ _ _ Hinv l) as [i Hi]; [by left|].
      exists l, i, lw', [], false.
      refine (conj _ (conj _ (conj _ _))); [done|done| |done].
      pose proof (inv_head_l _ _ _ _ Hinv l eq_refl) as Hd.
      unfold dn in Hd. by rewrite Hi in Hd.
    - simpl. destruct (not_local_ok keyfunc deletedfunc m r) as (b & Eb & Hb).
      { apply (inv_dom_r _ _ _ _ Hinv). by left. }
      destruct b.
      + destruct (inv_dom_r _ _ _ _ Hinv r) as (i & Hi & _); [by left|].
        exists r, i, lw, rw', true.
        refine (conj _ (conj _ (conj _ _))); [done|done| |done].
        pose proof (inv_head_r _ _ _ _ Hinv r eq_refl) as Hd.
        unfold dn in Hd. by rewrite Hi in Hd.
      + destruct (Hb eq_refl) as (j & Hj & Hlj).
        pose proof (inv_head_r _ _ _ _ Hinv r eq_refl) as Hd.
        unfold dn in Hd. rewrite Hj in Hd.
        pose proof (inv_ahead_l _ _ _ _ Hinv _ _ Hj Hlj Hd) as Hahead.
        destruct lw as [|l lw'].
        { by apply elem_of_nil in Hahead. }
        destruct (inv_dom_l _ _ _ _ Hinv l) as [i Hi]; [by left|].
        exists l, i, lw', (r :: rw'), false.
        refine (conj _ (conj _ (conj _ _))); [done|done| |done].
        pose proof (inv_head_l _ _ _ _ Hinv l eq_refl) as Hdl.
        unfold dn in Hdl. by rewrite Hi in Hdl. }
  rewrite Einj.
  destruct (loop_inv_advance keyfunc m lw rw u i lw1 rw1 Hinv Hi)
    as (lw2 & rw2 & Er & El & Hinv2 & Hl2 & Hr2).
  { destruct inject; [destruct Hbranch as (-> & -> & _)|destruct Hbranch as [-> ->]];
      [done|]. intros x Hx. by right. }
  { destruct inject; [destruct Hbranch as (-> & -> & _)|destruct Hbranch as [-> ->]];
      [|done]. intros x Hx. by right. }
  { destruct inject; [destruct Hbranch as (-> & -> & _)|destruct Hbranch as [-> ->]];
      [done|]. apply keys_tail_ne. }
  { destruct inject; [destruct Hbranch as (-> & -> & _)|destruct Hbranch as [-> ->]];
      [|done]. apply keys_tail_ne. }
  exists u, i, inject, lw1, rw1, lw2, rw2.
  split_and!; [done|done|done|done|done|done|done|done|].
  destruct (main_loop keyfunc deletedfunc fuel _ lw2 rw2) as [out r] eqn:Eloop.
  destruct inject; [destruct Hbranch as (-> & -> & _)|destruct Hbranch as [-> ->]];
    simpl; rewrite (emit_eq _ _ _ _ Hi Hd); simpl; rewrite Er; simpl; rewrite El;
    simpl; rewrite Eloop; by destruct r.
Qed.

End Step.

Section Order.
Context {U K : Type} `{Countable K}.
Variable keyfunc : U → K.
Variable deletedfunc : U → bool.
Variables base local remote : list U.

Local Abbreviation imap := (gmap K (_Item3 U)).
Local Abbreviation triple := (@SetMatcher3.triple U).
Implicit Types (m : imap) (u : U) (k : K) (w lw rw bw : list U).

Hypothesis nodup_base : NoDup (keyfunc <$> base).
Hypothesis nodup_local : NoDup (keyfunc <$> local).
Hypothesis nodup_remote : NoDup (keyfunc <$> remote).

(** No unit that is deleted in [local] is live in [remote]. *)
Hypothesis not_resurrected :
  ∀ l r, l ∈ local → r ∈ remote → keyfunc l = keyfunc r →
    deletedfunc l = true → deletedfunc r = true.

Local Abbreviation m0 := (initial_map keyfunc base local remote).

(** The local and the remote component of a triple. *)
Definition local_of (t : triple) : option U := t.1.2.
Definition remote_of (t : triple) : option U := t.2.

(** A remote unit whose key no local unit has. *)
Definition remote_only (r : U) : Prop := find_key keyfunc (keyfunc r) local = None.

(** A unit of the base whose key no head has. *)
Definition base_only (b : U) : Prop :=
  (keyfunc b ∉ keyfunc <$> local) ∧ (keyfunc b ∉ keyfunc <$> remote).

(** What the rounds of the main loop keep, besides [loop_inv]: the slots
    are those of the start, the walkers are at suffixes of the two heads,
    no local unit ahead is done, and no remote unit ahead that local
    lacks is done. *)
Record order_inv m lw rw : Prop := {
  oi_inv : loop_inv keyfunc m lw rw;
  oi_sl : ∀ k, sl m k = sl m0 k;
  oi_lw : lw `suffix_of` local;
  oi_rw : rw `suffix_of` remote;
  oi_fresh_l : ∀ u, u ∈ lw → dn m (keyfunc u) = false;
  oi_fresh_r : ∀ u, u ∈ rw → remote_only u → dn m (keyfunc u) = false;
}.

Lemma slot_of_lookup m k i :
  (∀ k, sl m k = sl m0 k) → m !! k = Some i →
  slot_of i = triple_of_key keyfunc base local remote k.
Proof.
  intros Hsl Hi. specialize (Hsl k). unfold sl in Hsl. rewrite Hi in Hsl.
  destruct (m0 !! k) as [i0|] eqn:E0; [|done].
  apply initial_map_lookup_inv in E0 as [_ ->]. simpl in Hsl.
  injection Hsl as Hb Hl Hr. unfold slot_of, triple_of_key. by rewrite Hb, Hl, Hr.
Qed.

Lemma suffix_elem_of {A} (w l : list A) (x : A) : w `suffix_of` l → x ∈ w → x ∈ l.
Proof. intros [pre ->] Hx. apply elem_of_app. by right. Qed.

Lemma suffix_NoDup_keys w l :
  w `suffix_of` l → NoDup (keyfunc <$> l) → NoDup (keyfunc <$> w).
Proof.
  intros [pre ->]. rewrite fmap_app. intros Hnd.
  apply NoDup_app in Hnd as (_ & _ & Hnd). exact Hnd.
Qed.

Lemma suffix_tail {A} (x : A) (w l : list A) : x :: w `suffix_of` l → w `suffix_of` l.
Proof. intros [pre ->]. exists (pre ++ [x]). by rewrite <- app_assoc. Qed.

(** A remote unit is put before the local ones only when local has no
    unit of its key. *)
Lemma not_local_true m u :
  (∀ k, sl m k = sl m0 k) → not_local keyfunc deletedfunc m u = Ok true →
  remote_only u.
Proof.
  intros Hsl. unfold not_local, _item.
  destruct (m !! keyfunc u) as [i|] eqn:Hi; simpl; [|done].
  pose proof (slot_of_lookup m _ i Hsl Hi) as Hslot.
  unfold slot_of, triple_of_key in Hslot. injection Hslot as _ Hl Hr.
  unfold remote_only. rewrite <- Hl.
  destruct (i3_local i) as [l|] eqn:El; [|done].
  destruct (deletedfunc l) eqn:Edl; [|done].
  destruct (i3_remote i) as [r|] eqn:Er; [|done].
  symmetry in Hl, Hr. apply find_key_Some in Hl as [Hkl Hinl].
  apply find_key_Some in Hr as [Hkr Hinr].
  rewrite (not_resurrected l r Hinl Hinr) by congruence. done.
Qed.

Lemma dn_mark_ne m k0 i k :
  k ≠ k0 → dn (<[k0 := set_done i]> m) k = dn m k.
Proof. intros Hne. rewrite dn_mark. by rewrite decide_False. Qed.

(** The main loop: the local components of the triples it yields are
    the local units ahead, in their order; the triples without a local
    component hold the remote units ahead that local lacks, in their
    order. *)
Lemma filter_none {A} (P : A → Prop) `{∀ x, Decision (P x)} (l : list A) :
  (∀ x, x ∈ l → ¬ P x) → filter P l = [].
Proof.
  induction l as [|x l IH]; intros Hl; [done|].
  rewrite filter_cons, decide_False by (apply Hl; by left).
  apply IH. intros y Hy. apply Hl. by right.
Qed.

Lemma main_loop_order fuel m lw rw :
  order_inv m lw rw → length lw + length rw ≤ fuel →
  ∃ out m',
    main_loop keyfunc deletedfunc fuel m lw rw = (out, Ok (m', [], []))
    ∧ omap local_of out = lw
    ∧ omap remote_of (filter (λ t, local_of t = None) out) = filter remote_only rw
    ∧ (∀ k, sl m' k = sl m0 k)
    ∧ (∀ k, dn m' k = true →
            dn m k = true ∨ k ∈ keyfunc <$> lw ∨ k ∈ keyfunc <$> rw)
    ∧ loop_inv keyfunc m' [] [].
Proof.
  revert m lw rw. induction fuel as [|fuel IH]; intros m lw rw Hoi Hlen;
    pose proof Hoi as [Hinv Hsl Hsufl0 Hsufr0 Hfl0 Hfr0].
  - destruct lw, rw; simpl in Hlen; try lia.
    exists [], m. split_and!; [done|done|done|done|by left|done].
  - destruct (decide (lw = [] ∧ rw = [])) as [[-> ->]|Hne].
    { exists [], m. split_and!; [done|done|done|done|by left|done]. }
    destruct (main_loop_step keyfunc deletedfunc fuel m lw rw Hinv Hne)
      as (u & i & inject & lw1 & rw1 & lw2 & rw2 & Hi & Hd & Hbranch & Er & El
          & Hinv2 & Hl2 & Hr2 & Estep).
    set (m1 := <[keyfunc u := set_done i]> m) in *.
    pose proof (slot_of_lookup m _ i Hsl Hi) as Hslot.
    assert (∀ k, sl m1 k = sl m0 k) as Hsl1.
    { intros k. unfold m1. rewrite sl_mark by done. apply Hsl. }
    assert (lw1 `suffix_of` local ∧ (∀ x, x ∈ lw1 → dn m1 (keyfunc x) = false)
            ∧ rw1 `suffix_of` remote
            ∧ (∀ x, x ∈ rw1 → remote_only x → dn m1 (keyfunc x) = false)
            ∧ omap local_of [slot_of i] ++ lw1 = lw
            ∧ omap remote_of (filter (λ t, local_of t = None) [slot_of i])
              ++ filter remote_only rw1 = filter remote_only rw
            ∧ (∀ k, k = keyfunc u ∨ k ∈ keyfunc <$> lw1 ∨ k ∈ keyfunc <$> rw1 →
                    k ∈ keyfunc <$> lw ∨ k ∈ keyfunc <$> rw)
            ∧ (∀ x, x ∈ lw1 → x ∈ lw))
      as (Hsufl & Hfl & Hsufr & Hfr & Houtl & Houtr & Hkeys & Hsub).
    { destruct inject.
      - destruct Hbranch as (-> & -> & Hnl).
        pose proof (not_local_true m u Hsl Hnl) as Hro.
        assert (u ∈ remote) as Hur.
        { eapply suffix_elem_of; [exact Hsufr0|by left]. }
        assert (NoDup (keyfunc <$> u :: rw1)) as Hnd
          by (eapply suffix_NoDup_keys; [exact Hsufr0|done]).
        rewrite fmap_cons in Hnd. apply NoDup_cons in Hnd as [Hu1 _].
        assert (slot_of i = (find_key keyfunc (keyfunc u) base, None, Some u))
          as ->.
        { rewrite Hslot. unfold triple_of_key. unfold remote_only in Hro.
          by rewrite Hro, (find_key_NoDup keyfunc remote u). }
        split_and!.
        + done.
        + intros x Hx. unfold m1. rewrite dn_mark_ne; [by apply Hfl0|].
          intros Hk. assert (x ∈ local) as Hxl
            by (eapply suffix_elem_of; [exact Hsufl0|done]).
          unfold remote_only in Hro. rewrite <- Hk in Hro.
          by rewrite (find_key_NoDup keyfunc local x) in Hro.
        + by eapply suffix_tail.
        + intros x Hx Hxo. unfold m1. rewrite dn_mark_ne.
          * apply Hfr0; [by right|done].
          * intros Hk. apply Hu1. rewrite <- Hk. by apply list_elem_of_fmap_2.
        + done.
        + rewrite filter_cons, decide_True by done.
          rewrite filter_nil. rewrite filter_cons, decide_True by done. done.
        + intros k [->|[Hk|Hk]]; [right; rewrite fmap_cons; by left|by left|].
          right. rewrite fmap_cons. by right.
        + done.
      - destruct Hbranch as [-> ->].
        assert (u ∈ local) as Hul.
        { eapply suffix_elem_of; [exact Hsufl0|by left]. }
        assert (NoDup (keyfunc <$> u :: lw1)) as Hnd
          by (eapply suffix_NoDup_keys; [exact Hsufl0|done]).
        rewrite fmap_cons in Hnd. apply NoDup_cons in Hnd as [Hu1 _].
        assert (find_key keyfunc (keyfunc u) local = Some u) as Hfind
          by by apply find_key_NoDup.
        assert (local_of (slot_of i) = Some u) as Hloc.
        { rewrite Hslot. unfold triple_of_key, local_of. simpl. done. }
        split_and!.
        + by eapply suffix_tail.
        + intros x Hx. unfold m1. rewrite dn_mark_ne.
          * apply Hfl0. by right.
          * intros Hk. apply Hu1. rewrite <- Hk. by apply list_elem_of_fmap_2.
        + done.
        + intros x Hx Hxo. unfold m1. rewrite dn_mark_ne; [by apply Hfr0|].
          intros Hk. unfold remote_only in Hxo. rewrite Hk in Hxo. congruence.
        + simpl. by rewrite Hloc.
        + rewrite filter_cons, decide_False by (rewrite Hloc; done).
          by rewrite filter_nil.
        + intros k [->|[Hk|Hk]]; [left; rewrite fmap_cons; by left| |by right].
          left. rewrite fmap_cons. by right.
        + intros x Hx. by right. }
    assert (lw2 = lw1) as ->.
    { assert (skip_done keyfunc m1 lw1 = Ok lw1) as E; [|congruence].
      apply skip_done_stay; [|done]. intros x Hx.
      apply is_Some_lookup_mark. apply (inv_dom_l _ _ _ _ Hinv). by apply Hsub. }
    apply skip_done_prefix in Er as (pre & -> & Hpre).
    assert (filter remote_only pre = []) as Hprenil.
    { apply filter_none. intros x Hx Hxo.
      assert (dn m1 (keyfunc x) = false) as Hf
        by (apply Hfr; [apply elem_of_app; by left|done]).
      rewrite Hpre in Hf; done. }
    destruct (IH m1 lw1 rw2) as (out & m' & Eloop & Houtl' & Houtr' & Hsl' & Hdn' & Hfin).
    { split; [done|done|done| |done|].
      - destruct Hsufr as [p ->]. exists (p ++ pre). by rewrite <- app_assoc.
      - intros x Hx. apply Hfr. apply elem_of_app. by right. }
    { destruct inject; [destruct Hbranch as (Hb1 & Hb2 & _)|destruct Hbranch as [Hb1 Hb2]];
        rewrite Hb1 in Hlen; rewrite ?Hb2, <- ?Hb2 in Hlen;
        simpl in Hlen; rewrite ?length_app in Hlen; lia. }
    exists (slot_of i :: out), m'. rewrite Estep, Eloop. cbn [fst snd].
    split_and!; [done| | |done| |done].
    + change (slot_of i :: out) with ([slot_of i] ++ out).
      rewrite omap_app, Houtl'. exact Houtl.
    + change (slot_of i :: out) with ([slot_of i] ++ out).
      rewrite filter_app, omap_app, Houtr'. rewrite <- Houtr.
      f_equal. by rewrite filter_app, Hprenil.
    + intros k Hk. apply Hdn' in Hk as [Hk|Hk].
      * unfold m1 in Hk. rewrite dn_mark in Hk.
        case_decide as Hku; [|by left]. right. apply Hkeys. left. by rewrite Hku.
      * right. apply Hkeys. right. destruct Hk as [Hk|Hk]; [by left|].
        right. rewrite fmap_app. apply elem_of_app. by right.
Qed.

(** The base drain: the units of the base that no head has, in their
    order, each alone in its triple. *)
Lemma drain_base_order bw m :
  bw `suffix_of` base → (∀ k, sl m k = sl m0 k) →
  (∀ u, u ∈ bw → dn m (keyfunc u) = true ↔ ¬ base_only u) →
  ∃ m',
    drain_base keyfunc m bw =
      ((λ b, (Some b, None, None)) <$> filter base_only bw, Ok (m', [])).
Proof.
  revert m. induction bw as [|u bw IH]; intros m Hsuf Hsl Hdn.
  - by exists m.
  - assert (u ∈ base) as Hub by (eapply suffix_elem_of; [exact Hsuf|by left]).
    assert (NoDup (keyfunc <$> u :: bw)) as Hnd
      by (eapply suffix_NoDup_keys; [exact Hsuf|done]).
    rewrite fmap_cons in Hnd. apply NoDup_cons in Hnd as [Hu1 _].
    assert (∃ i, m !! keyfunc u = Some i) as [i Hi].
    { pose proof (Hsl (keyfunc u)) as E. unfold sl in E.
      rewrite (initial_map_lookup keyfunc base local remote) in E
        by (left; by apply list_elem_of_fmap_2).
      destruct (m !! keyfunc u) as [i|]; [by eexists|done]. }
    pose proof (slot_of_lookup m _ i Hsl Hi) as Hslot.
    destruct (IH (<[keyfunc u := set_done i]> m)) as (m' & E').
    { by eapply suffix_tail. }
    { intros k. rewrite sl_mark by done. apply Hsl. }
    { intros x Hx. rewrite dn_mark_ne; [apply Hdn; by right|].
      intros Hk. apply Hu1. rewrite <- Hk. by apply list_elem_of_fmap_2. }
    exists m'. simpl. unfold _item. rewrite Hi. simpl.
    pose proof (Hdn u) as Hdu. unfold dn in Hdu. rewrite Hi in Hdu.
    rewrite filter_cons. destruct (i3_done i) eqn:Hd; simpl; rewrite E'.
    + rewrite decide_False; [done|]. apply Hdu; [by left|done].
    + assert (base_only u) as Hbo.
      { destruct (decide (base_only u)) as [?|Hn]; [done|].
        apply Hdu in Hn; [done|by left]. }
      rewrite decide_True by done. rewrite fmap_cons. do 2 f_equal.
      fold (slot_of i). rewrite Hslot. unfold triple_of_key.
      destruct Hbo as [Hl Hr]. apply find_key_None in Hl, Hr.
      by rewrite Hl, Hr, (find_key_NoDup keyfunc base u).
Qed.

Lemma match_order :
  ∃ main,
    match_ keyfunc deletedfunc base local remote =
      (main ++ ((λ b, (Some b, None, None)) <$> filter base_only base), Ok tt)
    ∧ omap local_of main = local
    ∧ omap remote_of (filter (λ t, local_of t = None) main) =
        filter (λ r, keyfunc r ∉ keyfunc <$> local) remote.
Proof.
  destruct (main_loop_order (length local + length remote) m0 local remote)
    as (out1 & m1 & E1 & Hlocal & Hremote & Hsl1 & Hdn1 & Hfin); [|done|].
  { assert (∀ k, dn m0 k = false) as Hfresh.
    { intros k. unfold dn. destruct (m0 !! k) as [i|] eqn:E; [|done].
      by apply initial_map_lookup_inv in E as [_ ->]. }
    split; [apply initial_loop_inv|done|done|done|by intros|by intros]. }
  destruct (drain_base_order base m1) as (m2 & E2); [done|done| |].
  { assert (∀ k, dn m0 k = false) as Hfresh.
    { intros k. unfold dn. destruct (m0 !! k) as [i|] eqn:E; [|done].
      by apply initial_map_lookup_inv in E as [_ ->]. }
    intros u Hu. unfold base_only. split.
    - intros Hd [Hl Hr]. apply Hdn1 in Hd as [Hd|[Hd|Hd]]; [|done..].
      by rewrite Hfresh in Hd.
    - intros Hn.
      assert (in_inputs keyfunc base local remote (keyfunc u)) as Hin.
      { left. by apply list_elem_of_fmap_2. }
      pose proof (Hsl1 (keyfunc u)) as E. unfold sl in E.
      rewrite (initial_map_lookup keyfunc base local remote) in E by done.
      unfold dn. destruct (m1 !! keyfunc u) as [i|] eqn:Hi; [|done].
      simpl in E. injection E as Hb Hl Hr.
      destruct (i3_done i) eqn:Hd; [done|]. exfalso.
      destruct (decide (keyfunc u ∈ keyfunc <$> local)) as [Hkl|Hkl].
      + apply find_key_is_Some in Hkl. rewrite <- Hl in Hkl.
        pose proof (inv_ahead_l _ _ _ _ Hfin _ _ Hi Hkl Hd) as Hnil.
        by apply elem_of_nil in Hnil.
      + destruct (decide (keyfunc u ∈ keyfunc <$> remote)) as [Hkr|Hkr]; [|tauto].
        apply find_key_is_Some in Hkr. rewrite <- Hr in Hkr.
        pose proof (inv_ahead_r _ _ _ _ Hfin _ _ Hi Hkr Hd) as Hnil.
        by apply elem_of_nil in Hnil. }
  exists out1. split_and!; [|done|].
  - destruct (match_spec keyfunc deletedfunc base local remote) as (ks & E & _ & _).
    unfold match_ in *. fold m0 in E |- *. unfold _Walker.init in *.
    rewrite E1 in E |- *. simpl in E |- *. rewrite E2 in E |- *. simpl in E |- *.
    destruct (all_done m2); simpl in E |- *; [|by injection E].
    by rewrite app_nil_r.
  - rewrite Hremote. apply list_filter_iff. intros r. unfold remote_only.
    apply find_key_None.
Qed.

(** On inputs without a repeated key, when no unit deleted in [local] is
    live in [remote], [SetMatcher3.match] ends without raising and the
    order of the triples it yields is this: the local units come in the
    order of [local], one in each triple that has a local component;
    the remote units that local lacks come in the order of [remote],
    one in each triple without a local component; and the units of the
    base that no head has come last, in the order of [base], each alone
    in its triple. *)
Theorem match3_order :
  ∃ main,
    match_ keyfunc deletedfunc base local remote =
      (main ++ ((λ b, (Some b, None, None)) <$> filter base_only base), Ok tt)
    ∧ omap local_of main = local
    ∧ omap remote_of (filter (λ t, local_of t = None) main) =
        filter (λ r, keyfunc r ∉ keyfunc <$> local) remote.
Proof. apply match_order. Qed.

End Order.

(** The inputs of [test_set_matcher3], with an element that only the
    base has and two that only remote has. *)
Lemma match3_order_witness :
  let base := ["a"; "z"; "b"] in
  let local := ["b"; "~a"; "e"] in
  let remote := ["x"; "~a"; "y"; "b"] in
  NoDup (test_keyfunc <$> base) ∧ NoDup (test_keyfunc <$> local)
  ∧ NoDup (test_keyfunc <$> remote)
  ∧ (∀ l r, l ∈ local → r ∈ remote → test_keyfunc l = test_keyfunc r →
       test_deletedfunc l = true → test_deletedfunc r = true)
  ∧ ∃ main,
      match_ test_keyfunc test_deletedfunc base local remote =
        (main ++ ((λ b, (Some b, None, None))
                    <$> filter (base_only test_keyfunc local remote) base), Ok tt)
      ∧ omap local_of main = local
      ∧ omap remote_of (filter (λ t, local_of t = None) main) =
          filter (λ r, test_keyfunc r ∉ test_keyfunc <$> local) remote.
Proof.
  cbv zeta.
  assert (NoDup (test_keyfunc <$> ["a"; "z"; "b"])) as Hb
    by (refine (bool_decide_unpack _ _); vm_compute; exact I).
  assert (NoDup (test_keyfunc <$> ["b"; "~a"; "e"])) as Hl
    by (refine (bool_decide_unpack _ _); vm_compute; exact I).
  assert (NoDup (test_keyfunc <$> ["x"; "~a"; "y"; "b"])) as Hr
    by (refine (bool_decide_unpack _ _); vm_compute; exact I).
  assert (∀ l r, l ∈ ["b"; "~a"; "e"] → r ∈ ["x"; "~a"; "y"; "b"] →
            test_keyfunc l = test_keyfunc r →
            test_deletedfunc l = true → test_deletedfunc r = true) as Hres.
  { assert (Forall (λ l, Forall (λ r, test_keyfunc l = test_keyfunc r →
                                      test_deletedfunc l = true →
                                      test_deletedfunc r = true)
                           ["x"; "~a"; "y"; "b"]) ["b"; "~a"; "e"]) as Hall
      by (refine (bool_decide_unpack _ _); vm_compute; exact I).
    intros l r Hl' Hr'.
    eapply Forall_forall in Hall; [|exact Hl'].
    eapply Forall_forall in Hall; [|exact Hr']. exact Hall. }
  split; [exact Hb|]. split; [exact Hl|]. split; [exact Hr|]. split; [exact Hres|].
  exact (match3_order test_keyfunc test_deletedfunc _ _ _ Hb Hl Hr Hres).
Defined.

(** The triples of that run. *)
Example match3_order_run :
  match_ test_keyfunc test_deletedfunc
    ["a"; "z"; "b"] ["b"; "~a"; "e"] ["x"; "~a"; "y"; "b"]
  = ([(None, None, Some "x"); (Some "b", Some "b", Some "b");
      (Some "a", Some "~a", Some "~a"); (None, None, Some "y");
      (None, Some "e", None); (Some "z", None, None)], Ok tt).
Proof. vm_compute. reflexivity. Qed.

End Matcher3Order.

(** ** The order of a merged list *)

Module MergeListOrder.
Import Matcher3Facts MergeListFacts Matcher3Order.

Section Facts.
Context {A : Type} `{Countable A}.
Variables base local remote : list A.
Implicit Types (x : A) (ks : list A).

Local Abbreviation tk := (triple_of_key (λ y : A, y) base local remote).

Lemma local_of_tk x : local_of (tk x) = opt_in x local.
Proof. unfold local_of, triple_of_key. simpl. apply find_key_id. Qed.

Lemma remote_of_tk x : remote_of (tk x) = opt_in x remote.
Proof. unfold remote_of, triple_of_key. simpl. apply find_key_id. Qed.

Lemma omap_cons_eq {B C} (f : B → option C) (b : B) (l : list B) :
  omap f (b :: l) = match f b with Some c => c :: omap f l | None => omap f l end.
Proof. done. Qed.

Lemma local_of_keys ks :
  omap local_of (tk <$> ks) = filter (λ x, x ∈ local) ks.
Proof.
  induction ks as [|x ks IH]; [done|].
  rewrite fmap_cons, filter_cons, omap_cons_eq, local_of_tk, IH.
  unfold opt_in. by case_decide.
Qed.

Lemma local_of_tk_None x : local_of (tk x) = None ↔ x ∉ local.
Proof. rewrite local_of_tk. unfold opt_in. by case_decide. Qed.

Lemma remote_of_keys ks :
  omap remote_of (filter (λ t, local_of t = None) (tk <$> ks)) =
    filter (λ x, (x ∉ local) ∧ x ∈ remote) ks.
Proof.
  induction ks as [|x ks IH]; [done|].
  rewrite fmap_cons, !filter_cons.
  destruct (decide (x ∈ local)) as [Hl|Hl].
  - rewrite decide_False by (rewrite local_of_tk_None; tauto).
    rewrite decide_False by tauto. done.
  - rewrite decide_True by by apply local_of_tk_None.
    rewrite omap_cons_eq, remote_of_tk, IH.
    unfold opt_in. destruct (decide (x ∈ remote)) as [Hr|Hr].
    + by rewrite decide_True by done.
    + by rewrite decide_False by tauto.
Qed.

(** The triples of the units that only the base has hold no local and
    no remote unit. *)
Lemma local_of_base_only (bs : list A) :
  omap local_of ((λ b : A, (Some b, @None A, @None A)) <$> bs) = [].
Proof.
  induction bs as [|b bs IH]; [done|]. rewrite fmap_cons, omap_cons_eq. exact IH.
Qed.

Lemma remote_of_base_only
    `{∀ t : @SetMatcher3.triple A, Decision (local_of t = None)} (bs : list A) :
  omap remote_of
    (filter (λ t, local_of t = None)
       ((λ b : A, (Some b, @None A, @None A)) <$> bs)) = [].
Proof.
  induction bs as [|b bs IH]; [done|].
  rewrite fmap_cons, filter_cons, decide_True by done.
  rewrite omap_cons_eq. exact IH.
Qed.

(** On lists without a repeated element, [merge_list] keeps the order
    of its heads: the elements of [local] that it keeps come in the
    order of [local], and the elements that only [remote] adds come in
    the order of [remote]; the merged list is an interleaving of the
    two. *)
Theorem merge_list_order :
  NoDup base → NoDup local → NoDup remote →
  ∃ merged,
    DiffUtils.merge_list base local remote = Ok merged
    ∧ filter (λ x, x ∈ local) merged = filter (kept base local remote) local
    ∧ filter (λ x, x ∉ local) merged =
        filter (λ x, x ∉ base) (filter (λ x, x ∉ local) remote).
Proof.
  intros Hb Hl Hr.
  destruct (match_order (λ y : A, y) (λ _, false) base local remote)
    as (main & Emain & Hlocal & Hremote);
    [by rewrite list_fmap_id..|done|].
  destruct (match_spec (λ y : A, y) (λ _, false) base local remote)
    as (ks & E & Hnd & Hks).
  rewrite E in Emain. injection Emain as Eks.
  assert (filter (λ x, x ∈ local) ks = local) as F1.
  { rewrite <- local_of_keys, Eks, omap_app, Hlocal, local_of_base_only.
    by rewrite app_nil_r. }
  assert (filter (λ x, (x ∉ local) ∧ x ∈ remote) ks = filter (λ x, x ∉ local) remote)
    as F2.
  { rewrite <- remote_of_keys, Eks, filter_app, omap_app, Hremote.
    rewrite remote_of_base_only.
    rewrite app_nil_r. apply list_filter_iff. intros x. by rewrite list_fmap_id. }
  exists (filter (kept base local remote) ks). split_and!.
  - unfold DiffUtils.merge_list. rewrite E. by rewrite merge_triples_of_keys.
  - transitivity (filter (kept base local remote) (filter (λ x, x ∈ local) ks));
      [|by rewrite F1].
    rewrite !list_filter_filter. apply list_filter_iff. intros x. tauto.
  - transitivity (filter (λ x, x ∉ base)
                    (filter (λ x, (x ∉ local) ∧ x ∈ remote) ks)); [|by rewrite F2].
    rewrite !list_filter_filter. apply list_filter_iff. intros x. unfold kept.
    destruct (decide (x ∈ local)); tauto.
Qed.

End Facts.

(** The locations of an entry: local has moved one and added one,
    remote has added two and dropped one. *)
Lemma merge_list_order_witness :
  let base := ["a.c:1"; "b.c:2"; "c.c:3"] in
  let local := ["b.c:2"; "a.c:1"; "c.c:3"; "l.c:7"] in
  let remote := ["r.c:8"; "a.c:1"; "s.c:9"; "b.c:2"] in
  NoDup base ∧ NoDup local ∧ NoDup remote
  ∧ DiffUtils.merge_list base local remote
    = Ok ["r.c:8"; "b.c:2"; "a.c:1"; "s.c:9"; "l.c:7"]
  ∧ ∃ merged,
      DiffUtils.merge_list base local remote = Ok merged
      ∧ filter (λ x, x ∈ local) merged = filter (kept base local remote) local
      ∧ filter (λ x, x ∉ local) merged =
          filter (λ x, x ∉ base) (filter (λ x, x ∉ local) remote).
Proof.
  cbv zeta.
  assert (NoDup ["a.c:1"; "b.c:2"; "c.c:3"]) as Hb
    by (refine (bool_decide_unpack _ _); vm_compute; exact I).
  assert (NoDup ["b.c:2"; "a.c:1"; "c.c:3"; "l.c:7"]) as Hl
    by (refine (bool_decide_unpack _ _); vm_compute; exact I).
  assert (NoDup ["r.c:8"; "a.c:1"; "s.c:9"; "b.c:2"]) as Hr
    by (refine (bool_decide_unpack _ _); vm_compute; exact I).
  split; [exact Hb|]. split; [exact Hl|]. split; [exact Hr|].
  split; [vm_compute; reflexivity|].
  exact (merge_list_order _ _ _ Hb Hl Hr).
Defined.

End MergeListOrder.

(** ** The two-way matcher on two sequences over the same keys *)

Module Matcher2Same.
Import SetMatcher2 Matcher3Facts.

Section Facts.
Context {U K : Type} `{Countable K}.
Variable keyfunc : U → K.
Variable deletedfunc : U → bool.
Variables old new : list U.

Local Abbreviation imap := (gmap K (_Item2 U)).
Local Abbreviation pair := (@SetMatcher2.pair U).
Implicit Types (m : imap) (u : U) (k : K) (w ow nw pre : list U).

Hypothesis nodup_old : NoDup (keyfunc <$> old).
Hypothesis same_keys : ∀ k, k ∈ keyfunc <$> old ↔ k ∈ keyfunc <$> new.

(** No unit that is deleted in [old] is live in [new]. *)
Hypothesis not_resurrected :
  ∀ o n, o ∈ old → n ∈ new → keyfunc o = keyfunc n →
    deletedfunc o = true → deletedfunc n = true.

Definition item_at m k : _Item2 U :=
  match m !! k with Some i => i | None => new_item end.

Lemma setattr2_setattr2 (i : _Item2 U) f u u' :
  setattr (setattr i f u) f u' = setattr i f u'.
Proof. by destruct f. Qed.

(** What [_fill_item_map] stores under each key. *)
Lemma fill2_lookup f units m k :
  _fill_item_map keyfunc f units m !! k =
    match find_key keyfunc k units with
    | Some u => Some (setattr (item_at m k) f u)
    | None => m !! k
    end.
Proof.
  revert m. induction units as [|x units IH]; intros m; simpl; [done|].
  rewrite IH. destruct (find_key keyfunc k units) as [y|].
  - f_equal. unfold item_at at 1. rewrite lookup_insert. case_decide as Hk.
    + subst k. unfold item_at. by rewrite setattr2_setattr2.
    + done.
  - rewrite lookup_insert. case_decide as Hk; [subst k|]; done.
Qed.

(** The slots when the units of [pre] are done: the pair of a key of
    the inputs, done when a unit of [pre] has the key. *)
Definition slots (pre : list U) (k : K) : option (_Item2 U) :=
  if decide (k ∈ keyfunc <$> old)
  then Some (MkItem2 (bool_decide (k ∈ keyfunc <$> pre))
               (find_key keyfunc k old) (find_key keyfunc k new))
  else None.

Lemma initial_slots k :
  _fill_item_map keyfunc Fnew new (_fill_item_map keyfunc Fold old ∅) !! k
  = slots [] k.
Proof.
  rewrite fill2_lookup. unfold item_at. rewrite !fill2_lookup, lookup_empty.
  unfold slots. rewrite bool_decide_eq_false_2
    by (intros Hk; by apply elem_of_nil in Hk).
  destruct (decide (k ∈ keyfunc <$> old)) as [Hk|Hk].
  - pose proof Hk as Hk'. apply same_keys in Hk'.
    apply find_key_is_Some in Hk as [o Ho], Hk' as [n Hn]. by rewrite Ho, Hn.
  - assert (k ∉ keyfunc <$> new) as Hk' by by rewrite <- same_keys.
    apply find_key_None in Hk, Hk'. by rewrite Hk, Hk'.
Qed.

Lemma slots_mark pre u i m :
  (∀ k, m !! k = slots pre k) → m !! keyfunc u = Some i → u ∈ old →
  ∀ k, <[keyfunc u := set_done i]> m !! k = slots (pre ++ [u]) k.
Proof.
  intros Hm Hi Hu k. rewrite lookup_insert. rewrite Hm in Hi.
  destruct (decide (keyfunc u = k)) as [<-|Hne].
  - unfold slots in *.
    rewrite decide_True in Hi |- * by by apply list_elem_of_fmap_2.
    injection Hi as <-. unfold set_done. simpl. do 2 f_equal.
    symmetry. apply bool_decide_eq_true_2. rewrite fmap_app. apply elem_of_app.
    right. by left.
  - rewrite Hm. unfold slots. case_decide; [|done]. do 2 f_equal.
    apply bool_decide_ext. rewrite fmap_app, elem_of_app.
    split; [by left|]. intros [?|Hku]; [done|].
    apply list_elem_of_singleton in Hku. congruence.
Qed.

(** The sweep passes the units whose key a unit of [pre] has, and stops
    at the first other unit. *)
Lemma skip_done_slots pre m w :
  (∀ k, m !! k = slots pre k) → (∀ u, u ∈ w → keyfunc u ∈ keyfunc <$> old) →
  ∃ p w',
    skip_done keyfunc m w = Ok w' ∧ w = p ++ w'
    ∧ (∀ u, u ∈ p → keyfunc u ∈ keyfunc <$> pre)
    ∧ (∀ u, head w' = Some u → keyfunc u ∉ keyfunc <$> pre).
Proof.
  intros Hm. induction w as [|x w IH]; intros Hdom.
  - exists [], []. split_and!; [done|done| |done].
    intros u Hu. by apply elem_of_nil in Hu.
  - simpl. unfold _item. rewrite Hm. unfold slots.
    rewrite decide_True by (apply Hdom; by left). simpl.
    case_bool_decide as Hx.
    + destruct IH as (p & w' & E & -> & Hp & Hw').
      { intros u Hu. apply Hdom. by right. }
      exists (x :: p), w'. split_and!; [done|done| |done].
      intros u Hu. apply elem_of_cons in Hu as [->|Hu]; [done|by apply Hp].
    + exists [], (x :: w). split_and!; [done|done| |].
      * intros u Hu. by apply elem_of_nil in Hu.
      * by intros u [= <-].
Qed.

(** The pairs of the units of [ow]. *)
Definition pairs_of (ow : list U) : list pair :=
  (λ o, (Some o, find_key keyfunc (keyfunc o) new)) <$> ow.

(** The loop from a state in which the units of [pre] are done: the
    units of [old] that are left are paired in their order, and both
    walkers are exhausted at the end. *)
Lemma main_loop_same fuel m pre ow npre nw :
  old = pre ++ ow → new = npre ++ nw →
  (∀ k, m !! k = slots pre k) →
  (∀ u, u ∈ npre → keyfunc u ∈ keyfunc <$> pre) →
  (∀ u, head nw = Some u → keyfunc u ∉ keyfunc <$> pre) →
  length ow ≤ fuel →
  ∃ m',
    main_loop keyfunc deletedfunc fuel m ow nw = (pairs_of ow, Ok (m', [], []))
    ∧ (∀ k, m' !! k = slots old k).
Proof.
  revert m pre ow npre nw.
  induction fuel as [|fuel IH]; intros m pre ow npre nw Hold Hnew Hm Hnpre Hhead Hlen.
  - destruct ow; [|simpl in Hlen; lia]. rewrite app_nil_r in Hold. subst pre.
    destruct nw as [|n nw].
    + exists m. by split.
    + exfalso. apply (Hhead n eq_refl). apply same_keys. rewrite Hnew.
      rewrite fmap_app. apply elem_of_app. right. rewrite fmap_cons. by left.
  - destruct ow as [|o ow].
    { rewrite app_nil_r in Hold. subst pre. destruct nw as [|n nw].
      - exists m. by split.
      - exfalso. apply (Hhead n eq_refl). apply same_keys. rewrite Hnew.
        rewrite fmap_app. apply elem_of_app. right. rewrite fmap_cons. by left. }
    assert (o ∈ old) as Ho by (rewrite Hold; apply elem_of_app; right; by left).
    assert ((keyfunc o ∉ keyfunc <$> pre) ∧ (keyfunc o ∉ keyfunc <$> ow)
            ∧ (∀ x, x ∈ ow → keyfunc x ∉ keyfunc <$> pre))
      as (Hopre & Hoow & Howpre).
    { pose proof nodup_old as Hnd. rewrite Hold, fmap_app, fmap_cons in Hnd.
      apply NoDup_app in Hnd as (_ & Hdisj & Hnd). apply NoDup_cons in Hnd as [? _].
      split_and!; [|done|].
      - intros Hin. apply (Hdisj _ Hin). by left.
      - intros x Hx Hin. apply (Hdisj _ Hin). right. by apply list_elem_of_fmap_2. }
    (* the new walker is not exhausted *)
    destruct nw as [|n nw].
    { exfalso. assert (keyfunc o ∈ keyfunc <$> new) as Hin
        by (apply same_keys; by apply list_elem_of_fmap_2).
      rewrite Hnew, app_nil_r in Hin. apply list_elem_of_fmap in Hin as (x & Hx & Hin).
      apply Hopre. rewrite Hx. by apply Hnpre. }
    assert (n ∈ new) as Hn by (rewrite Hnew; apply elem_of_app; right; by left).
    assert (keyfunc n ∈ keyfunc <$> old) as Hnold
      by (apply same_keys; by apply list_elem_of_fmap_2).
    (* the unit under the new walker is not put first *)
    assert (not_old keyfunc deletedfunc m n = Ok false) as Enot.
    { unfold not_old, _item. rewrite Hm. unfold slots. rewrite decide_True by done.
      simpl. pose proof Hnold as Hko. apply find_key_is_Some in Hko as [o' Ho'].
      rewrite Ho'. destruct (deletedfunc o') eqn:Edo; [|done].
      assert (keyfunc n ∈ keyfunc <$> new) as Hkn by by apply list_elem_of_fmap_2.
      apply find_key_is_Some in Hkn as [n' Hn']. rewrite Hn'.
      apply find_key_Some in Ho' as [Hko' Hino']. apply find_key_Some in Hn' as [Hkn' Hinn'].
      rewrite (not_resurrected o' n') by (done || congruence). done. }
    (* the unit under the old walker is emitted *)
    set (i := MkItem2 false (Some o) (find_key keyfunc (keyfunc o) new)).
    assert (m !! keyfunc o = Some i) as Hi.
    { rewrite Hm. unfold slots. rewrite decide_True by by apply list_elem_of_fmap_2.
      rewrite bool_decide_eq_false_2 by done.
      by rewrite (find_key_NoDup keyfunc old o). }
    set (m1 := <[keyfunc o := set_done i]> m).
    assert (∀ k, m1 !! k = slots (pre ++ [o]) k) as Hm1
      by by apply slots_mark.
    destruct (skip_done_slots (pre ++ [o]) m1 (n :: nw) Hm1)
      as (p & nw2 & Enw & Hp & Hpdone & Hhead2).
    { intros u Hu. apply same_keys. apply list_elem_of_fmap_2.
      rewrite Hnew. apply elem_of_app. by right. }
    destruct (skip_done_slots (pre ++ [o]) m1 ow Hm1)
      as (q & ow2 & Eow & Hq & Hqdone & _).
    { intros u Hu. apply list_elem_of_fmap_2. rewrite Hold.
      apply elem_of_app. right. by right. }
    assert (q = [] ∧ ow2 = ow) as [-> ->].
    { destruct q as [|x q]; [by rewrite Hq|]. exfalso.
      assert (keyfunc x ∈ keyfunc <$> pre ++ [o]) as Hx by (apply Hqdone; by left).
      assert (x ∈ ow) as Hxow by (rewrite Hq; by left).
      rewrite fmap_app in Hx. apply elem_of_app in Hx as [Hx|Hx].
      - by apply (Howpre x).
      - apply list_elem_of_singleton in Hx. apply Hoow. rewrite <- Hx.
        by apply list_elem_of_fmap_2. }
    destruct (IH m1 (pre ++ [o]) ow (npre ++ p) nw2) as (m' & Eloop & Hm').
    { by rewrite <- app_assoc. }
    { by rewrite <- app_assoc, <- Hp. }
    { done. }
    { intros u Hu. apply elem_of_app in Hu as [Hu|Hu]; [|by apply Hpdone].
      rewrite fmap_app. apply elem_of_app. left. by apply Hnpre. }
    { done. }
    { simpl in Hlen. lia. }
    exists m'. split; [|done].
    change (main_loop keyfunc deletedfunc (S fuel) m (o :: ow) (n :: nw)) with
      (inject ← glift (not_old keyfunc deletedfunc m n);
       '(item_map, ow, nw) ←
         (if inject : bool then
            item_map ← emit keyfunc m n;
            gret (item_map, o :: ow, nw)
          else
            item_map ← emit keyfunc m o;
            gret (item_map, ow, n :: nw));
       nw ← glift (skip_done keyfunc item_map nw);
       ow ← glift (skip_done keyfunc item_map ow);
       main_loop keyfunc deletedfunc fuel item_map ow nw)%gen.
    rewrite Enot. simpl. unfold emit, _item. rewrite Hi. simpl.
    fold m1.
    change (rbind (_item keyfunc m1 n) _) with (skip_done keyfunc m1 (n :: nw)).
    rewrite Enw, Eow, Eloop. done.
Qed.

(** On two sequences over the same keys, the first without a repeated
    key, when no unit deleted in [old] is live in [new],
    [SetMatcher2.match] ends without raising: it yields one pair for
    each unit of [old], in the order of [old], with the last unit of
    [new] that has the same key. *)
Theorem match2_same_keys :
  match_ keyfunc deletedfunc old new = (pairs_of old, Ok tt).
Proof.
  destruct (main_loop_same (length old + length new)
              (_fill_item_map keyfunc Fnew new (_fill_item_map keyfunc Fold old ∅))
              [] old [] new) as (m' & E & Hm'); [done|done| | | |lia|].
  - apply initial_slots.
  - intros u Hu. by apply elem_of_nil in Hu.
  - intros u _ Hu. by apply elem_of_nil in Hu.
  - unfold match_, _Walker.init. rewrite E. simpl.
    assert (all_done m' = true) as ->.
    { apply bool_decide_eq_true. intros k i Hi. rewrite Hm' in Hi.
      unfold slots in Hi. case_decide as Hk; [|done]. injection Hi as <-.
      simpl. by apply bool_decide_eq_true_2. }
    simpl. by rewrite app_nil_r.
Qed.

End Facts.

(** Two orders of the same three keys, one of them deleted in both. *)
Lemma match2_same_keys_witness :
  let old := ["a"; "~b"; "c"] in
  let new := ["c"; "a"; "~b"] in
  NoDup (test_keyfunc <$> old)
  ∧ (∀ k, k ∈ test_keyfunc <$> old ↔ k ∈ test_keyfunc <$> new)
  ∧ (∀ o n, o ∈ old → n ∈ new → test_keyfunc o = test_keyfunc n →
       test_deletedfunc o = true → test_deletedfunc n = true)
  ∧ match_ test_keyfunc test_deletedfunc old new =
      ([(Some "a", Some "a"); (Some "~b", Some "~b"); (Some "c", Some "c")], Ok tt).
Proof.
  cbv zeta.
  assert (NoDup (test_keyfunc <$> ["a"; "~b"; "c"])) as Hnd
    by (refine (bool_decide_unpack _ _); vm_compute; exact I).
  assert (∀ k, k ∈ test_keyfunc <$> ["a"; "~b"; "c"]
               ↔ k ∈ test_keyfunc <$> ["c"; "a"; "~b"]) as Hkeys.
  { intros k. change (test_keyfunc <$> ["a"; "~b"; "c"]) with ["a"; "b"; "c"].
    change (test_keyfunc <$> ["c"; "a"; "~b"]) with ["c"; "a"; "b"].
    rewrite !elem_of_cons. pose proof (elem_of_nil k). tauto. }
  assert (∀ o n, o ∈ ["a"; "~b"; "c"] → n ∈ ["c"; "a"; "~b"] →
            test_keyfunc o = test_keyfunc n →
            test_deletedfunc o = true → test_deletedfunc n = true) as Hres.
  { assert (Forall (λ o, Forall (λ n, test_keyfunc o = test_keyfunc n →
                                      test_deletedfunc o = true →
                                      test_deletedfunc n = true)
                           ["c"; "a"; "~b"]) ["a"; "~b"; "c"]) as Hall
      by (refine (bool_decide_unpack _ _); vm_compute; exact I).
    intros o n Ho Hn.
    eapply Forall_forall in Hall; [|exact Ho].
    eapply Forall_forall in Hall; [|exact Hn]. exact Hall. }
  split; [exact Hnd|]. split; [exact Hkeys|]. split; [exact Hres|].
  exact (match2_same_keys test_keyfunc test_deletedfunc _ _ Hnd Hkeys Hres).
Defined.

End Matcher2Same.

(** ** The time stamps the pattern accepts *)

Module StampFacts.
Import Time Re FormatFacts.

(** Every character of [s] is in the class [p]. *)
Fixpoint all (p : ascii → bool) (s : string) : bool :=
  match s with
  | EmptyString => true
  | String c s' => p c && all p s'
  end.

(** A field of [n] decimal digits. *)
Definition digits (n : nat) (s : string) : Prop :=
  String.length s = n ∧ all is_digit s = true.

(** What the code adds for the zone [sg HH MM]: the hours of the zone
    as hours and once more as minutes, whose sign is the sign of the
    zone once and squared once; the minutes of the zone are not used. *)
Definition zone_seconds (sg : ascii) (hh : string) : Z :=
  if Ascii.eqb sg "+" then (int_digits hh 0 * 3660)%Z
  else (- (int_digits hh 0 * 3540))%Z.

Section Backtracking.
Context {R : Type}.

(** A greedy repetition that can take [max] characters and whose
    continuation accepts takes them all. *)
Lemma rep_all (p : ascii → bool) (a : string) :
  ∀ (min max : nat) (rest acc : string) (k : string → string → option R) (r : R),
    all p a = true → String.length a = max → min ≤ max →
    k (acc +:+ a) rest = Some r →
    rep p min max (a +:+ rest) acc k = Some r.
Proof.
  induction a as [|c a IH]; intros min max rest acc k r Hp Hlen Hmin Hk.
  - simpl in Hlen. subst max. assert (min = 0) as -> by lia.
    rewrite HeaderFacts.append_nil_r in Hk. exact Hk.
  - simpl in Hp, Hlen. apply andb_true_iff in Hp as [Hc Hp].
    destruct max as [|max]; [done|].
    change (String c a +:+ rest) with (String c (a +:+ rest)).
    simpl. rewrite Hc.
    rewrite (IH (pred min) max rest (acc +:+ String c "") k r); [done|done|lia|lia|].
    rewrite append_assoc. exact Hk.
Qed.

Lemma star_stop (p : ascii → bool) (c : ascii) (s : string)
    (k : string → option R) :
  p c = false → star p (String c s) k = k (String c s).
Proof. intros Hc. simpl. by rewrite Hc. Qed.

End Backtracking.

Lemma digit_not_space (c : ascii) : is_digit c = true → is_space c = false.
Proof. destruct c as [[] [] [] [] [] [] [] []]; done. Qed.

Lemma digits_cons (n : nat) (s : string) :
  digits (S n) s → ∃ c s', s = String c s' ∧ is_digit c = true ∧ digits n s'.
Proof.
  intros [Hlen Hall]. destruct s as [|c s']; [done|].
  simpl in Hlen, Hall. apply andb_true_iff in Hall as [Hc Hall].
  exists c, s'. split_and!; [done|done|]. split; [lia|done].
Qed.

(** The groups of a stamp in the format of gettext,
    [YYYY-MM-DD HH:MM+ZZzz], whatever follows it. *)
Lemma time_pattern_stamp (y mo d hh mi zh zm rest : string) (sg : ascii) :
  digits 4 y → digits 2 mo → digits 2 d → digits 2 hh → digits 2 mi →
  is_sign sg = true → digits 2 zh → digits 2 zm →
  _time_pattern_match
    (y +:+ "-" +:+ mo +:+ "-" +:+ d +:+ " " +:+ hh +:+ ":" +:+ mi +:+
     String sg (zh +:+ zm +:+ rest))
  = Some (y, mo, d, hh, mi, String sg zh, zm).
Proof.
  intros [Ly Hy] [Lmo Hmo] [Ld Hd] Hhh [Lmi Hmi] Hsg [Lzh Hzh] [Lzm Hzm].
  pose proof Hhh as [Lhh Hhh'].
  apply digits_cons in Hhh as (h1 & hh' & -> & Hh1 & _).
  assert (Ascii.eqb sg ":" = false ∧ is_space sg = false) as [Hcolon Hspace].
  { unfold is_sign in Hsg. apply orb_true_iff in Hsg as [E|E];
      apply Ascii.eqb_eq in E; by subst sg. }
  unfold _time_pattern_match.
  apply rep_all; [done|done|lia|].
  change ("-" +:+ ?x) with (String "-" x). cbn [chr Ascii.eqb Bool.eqb].
  apply rep_all; [done|done|lia|].
  change ("-" +:+ ?x) with (String "-" x). cbn [chr Ascii.eqb Bool.eqb].
  apply rep_all; [done|done|lia|].
  change (" " +:+ ?x) with (String " " x).
  change (String h1 hh' +:+ ?x) with (String h1 (hh' +:+ x)).
  unfold plus. change (is_space " ") with true. cbv iota.
  rewrite star_stop by by apply digit_not_space.
  change (String h1 (hh' +:+ ?x)) with (String h1 hh' +:+ x).
  apply rep_all; [done|done|lia|].
  change (":" +:+ ?x) with (String ":" x). cbn [chr Ascii.eqb Bool.eqb].
  apply rep_all; [done|done|lia|].
  unfold opt. unfold chr at 1. rewrite Hcolon.
  rewrite star_stop by done.
  apply (rep_all is_sign (String sg "") 1 1); [simpl; by rewrite Hsg|done|lia|].
  apply rep_all; [done|done|lia|].
  apply rep_all; [done|done|lia|].
  done.
Qed.

Section Facts.
Context `{Clock}.

(** On a stamp in the format of gettext, [YYYY-MM-DD HH:MM] followed by
    a sign and the four digits of the zone, and by any text, [_get_time]
    asks the clock for the stated date and time, adds [time.timezone],
    and adds for the zone 3660 seconds for each of its hours when the
    sign is [+], and subtracts 3540 for each when it is [-]; the minutes
    of the zone and the text after the stamp have no effect, and the
    only exception is the one of the clock. *)
Theorem get_time_stamp (y mo d hh mi zh zm rest : string) (sg : ascii) :
  digits 4 y → digits 2 mo → digits 2 d → digits 2 hh → digits 2 mi →
  is_sign sg = true → digits 2 zh → digits 2 zm →
  _get_time
    (Some (y +:+ "-" +:+ mo +:+ "-" +:+ d +:+ " " +:+ hh +:+ ":" +:+ mi +:+
           String sg (zh +:+ zm +:+ rest)))
  = (t ← mktime (int y, int mo, int d, int hh, int mi, 0, 0, 0, 0)%Z;
     Ok (t + timezone + zone_seconds sg zh)%Z)%res.
Proof.
  intros Hy Hmo Hd Hhh Hmi Hsg Hzh Hzm.
  unfold _get_time. rewrite time_pattern_stamp by done.
  destruct (mktime _) as [t|e]; simpl; [|done].
  unfold is_sign in Hsg. unfold zone_seconds.
  apply orb_true_iff in Hsg as [E|E]; apply Ascii.eqb_eq in E; subst sg; simpl.
  - f_equal. lia.
  - f_equal. lia.
Qed.

End Facts.

(** A stamp with minutes in its zone and with text after it. *)
Lemma get_time_stamp_witness :
  digits 4 "2013" ∧ digits 2 "12" ∧ digits 2 "11" ∧ digits 2 "30"
  ∧ digits 2 "05" ∧ digits 2 "45" ∧ is_sign "-" = true
  ∧ @_get_time PyPo.utc (Some "2013-12-11 11:30-0545 (CET)")
    = Ok (1386761400 - 17700)%Z.
Proof.
  assert (∀ n s, String.length s = n → all is_digit s = true → digits n s)
    as Hdig by (intros n s ? ?; by split).
  do 7 (split; [first [apply Hdig; reflexivity | reflexivity]|]).
  exact (@get_time_stamp PyPo.utc "2013" "12" "11" "11" "30" "05" "45" " (CET)" "-"
           (Hdig 4 "2013" eq_refl eq_refl) (Hdig 2 "12" eq_refl eq_refl)
           (Hdig 2 "11" eq_refl eq_refl) (Hdig 2 "11" eq_refl eq_refl)
           (Hdig 2 "30" eq_refl eq_refl) eq_refl
           (Hdig 2 "05" eq_refl eq_refl) (Hdig 2 "45" eq_refl eq_refl)).
Defined.

End StampFacts.

(** ** The type comments *)

Module TypesFacts.
Import FormatFacts StampFacts.

(** The first and the last character of a text are word characters. *)
Definition first_is_word (t : string) : bool :=
  match t with
  | String c _ => PyPo.is_word c
  | EmptyString => false
  end.
Fixpoint last_is_word (t : string) : bool :=
  match t with
  | EmptyString => false
  | String c EmptyString => PyPo.is_word c
  | String _ t' => last_is_word t'
  end.

(** A type as [_get_types] returns them: word characters and hyphens,
    with a word character at both ends, and not the flag [fuzzy]. *)
Definition type_word (t : string) : Prop :=
  all PyPo.is_type_char t = true
  ∧ first_is_word t = true ∧ last_is_word t = true ∧ t ≠ "fuzzy".

(** The text of the one line [_set_types] writes. *)
Definition types_line (types : list string) : string :=
  "#, " +:+ Py.join ", " types +:+ Py.nl.

Lemma set_types_line (u : pounit) (t : string) (types : list string) :
  _PoFileDiff._set_types u (t :: types) =
    Ok (Unit.set_typecomments [types_line (t :: types)] u).
Proof.
  unfold _PoFileDiff._set_types, types_line.
  change ("#, %s" +:+ Py.nl) with ("#, " +:+ ("%s" +:+ Py.nl)).
  rewrite (format_plain_app "#, ") by done. rewrite format_s.
  reflexivity.
Qed.

Lemma runs_word (t s cur : string) :
  all PyPo.is_type_char t = true →
  PyPo.runs (t +:+ s) cur = PyPo.runs s (cur +:+ t).
Proof.
  revert cur. induction t as [|c t IH]; intros cur Ht.
  - by rewrite HeaderFacts.append_nil_r.
  - simpl in Ht. apply andb_true_iff in Ht as [Hc Ht].
    change (String c t +:+ s) with (String c (t +:+ s)).
    simpl. rewrite Hc. rewrite IH by done. by rewrite append_assoc.
Qed.

Lemma drop_hyphens_word (t : string) :
  first_is_word t = true → PyPo.drop_hyphens t = t.
Proof. destruct t as [|c t]; [done|]. simpl. by intros ->. Qed.

Lemma drop_hyphens_end_word (t : string) :
  last_is_word t = true → PyPo.drop_hyphens_end t = t.
Proof.
  induction t as [|c t IH]; [done|].
  destruct t as [|c' t].
  - simpl. by intros ->.
  - intros Hl. change (last_is_word (String c (String c' t)))
      with (last_is_word (String c' t)) in Hl.
    change (PyPo.drop_hyphens_end (String c (String c' t))) with
      (match PyPo.drop_hyphens_end (String c' t) with
       | EmptyString => if PyPo.is_word c then String c "" else ""
       | r => String c r
       end).
    by rewrite IH.
Qed.

Lemma type_word_nonempty (t : string) : type_word t → t ≠ "".
Proof. intros (_ & Hf & _) ->. done. Qed.

(** The tokens of the types of a line, after the leading [#, ]. *)
Lemma tokens_join (types : list string) (t : string) :
  Forall type_word (t :: types) →
  filter (λ x, x ≠ "")
    ((λ r, PyPo.drop_hyphens_end (PyPo.drop_hyphens r))
       <$> PyPo.runs (Py.join ", " (t :: types) +:+ Py.nl) "")
  = t :: types.
Proof.
  revert t. induction types as [|t' types IH]; intros t Hall.
  - apply Forall_cons in Hall as [Ht _].
    pose proof (type_word_nonempty t Ht) as Hne.
    destruct Ht as (Hc & Hf & Hl & _).
    change (Py.join ", " [t]) with t. rewrite runs_word by done.
    change ("" +:+ t) with t. simpl.
    rewrite drop_hyphens_word, drop_hyphens_end_word by done.
    rewrite filter_cons, decide_True by done. done.
  - apply Forall_cons in Hall as [Ht Hall].
    pose proof (type_word_nonempty t Ht) as Hne.
    destruct Ht as (Hc & Hf & Hl & _).
    change (Py.join ", " (t :: t' :: types))
      with (t +:+ ", " +:+ Py.join ", " (t' :: types)).
    rewrite !append_assoc. rewrite runs_word by done.
    change ("" +:+ t) with t.
    change (", " +:+ ?s) with (String "," (String " " s)).
    change (PyPo.runs (String "," (String " " ?s)) t)
      with (t :: "" :: PyPo.runs s "").
    rewrite !fmap_cons.
    rewrite drop_hyphens_word, drop_hyphens_end_word by done.
    rewrite filter_cons, decide_True by done.
    rewrite filter_cons, decide_False by (simpl; by intros []).
    by rewrite IH.
Qed.

(** What [_set_types] writes, [_get_types] reads back: for types made of
    word characters and hyphens with a word character at both ends,
    none of them [fuzzy], the types of the unit after [_set_types] are
    the types given, in their order; [_set_types] does not raise. *)
Theorem types_round_trip (u : pounit) (types : list string) :
  Forall type_word types →
  ∃ u',
    _PoFileDiff._set_types u types = Ok u'
    ∧ @_PoFileDiff._get_types PyPo.layer u' = types.
Proof.
  intros Hall. destruct types as [|t types].
  - eexists. split; [reflexivity|]. reflexivity.
  - rewrite set_types_line. eexists. split; [reflexivity|].
    unfold _PoFileDiff._get_types. simpl typecomments.
    change (Py.join Py.nl [types_line (t :: types)]) with (types_line (t :: types)).
    unfold types_line.
    change (findall_types ?s) with (PyPo.findall_types s).
    unfold PyPo.findall_types.
    change ("#, " +:+ ?s) with (String "#" (String "," (String " " s))).
    change (PyPo.runs (String "#" (String "," (String " " ?s))) "")
      with ("" :: "" :: "" :: PyPo.runs s "").
    rewrite !fmap_cons.
    change (PyPo.drop_hyphens_end (PyPo.drop_hyphens "")) with "".
    rewrite !filter_cons. rewrite !decide_False by (simpl; by intros []).
    rewrite tokens_join by done.
    induction Hall as [|x xs Hx _ IH]; [done|].
    rewrite filter_cons, decide_True by apply Hx. by rewrite IH.
Qed.

(** The types of an entry of a C source. *)
Lemma types_round_trip_witness :
  Forall type_word ["c-format"; "no-wrap"]
  ∧ ∃ u',
      _PoFileDiff._set_types (Battery.entry "foo" "bar") ["c-format"; "no-wrap"]
        = Ok u'
      ∧ @_PoFileDiff._get_types PyPo.layer u' = ["c-format"; "no-wrap"].
Proof.
  assert (Forall type_word ["c-format"; "no-wrap"]) as Hall.
  { assert (∀ t, all PyPo.is_type_char t = true → first_is_word t = true →
              last_is_word t = true → t ≠ "fuzzy" → type_word t) as Hw
      by (intros t ? ? ? ?; by split_and!).
    apply Forall_cons. split; [apply Hw; [reflexivity..|discriminate]|].
    apply Forall_cons. split; [apply Hw; [reflexivity..|discriminate]|].
    constructor. }
  split; [exact Hall|].
  exact (types_round_trip (Battery.entry "foo" "bar") _ Hall).
Defined.

End TypesFacts.

(** ** The merge of one unit *)

Module UnitMergeFacts.
Import FormatFacts MergeListFacts HeaderFacts TargetFacts TypesFacts.

(** *** Runs that return *)

Lemma mbind_Ok {A B} (x : M A) (f : A → M B) (h : heap) (b : B) (h' : heap) :
  mbind x f h = Ok (b, h') → ∃ a h1, x h = Ok (a, h1) ∧ f a h1 = Ok (b, h').
Proof.
  unfold mbind. destruct (x h) as [[a h1]|e]; [|done]. intros E. by exists a, h1.
Qed.

Lemma mlift_Ok {A} (r : result A) (h : heap) (a : A) (h' : heap) :
  mlift r h = Ok (a, h') → r = Ok a ∧ h' = h.
Proof. unfold mlift. destruct r; [|done]. by intros [= -> ->]. Qed.

Lemma mread_Ok {A} (f : heap → A) (h : heap) (a : A) (h' : heap) :
  mread f h = Ok (a, h') → a = f h ∧ h' = h.
Proof. unfold mread. by intros [= <- <-]. Qed.

Lemma mret_Ok {A} (x : A) (h : heap) (a : A) (h' : heap) :
  mret x h = Ok (a, h') → a = x ∧ h' = h.
Proof. unfold mret. by intros [= <- <-]. Qed.

(** *** The heap only grows *)

(** Every list of strings of [h] is in [h'] at its place, with some
    empty strings after it. *)
Definition heap_le (h h' : list (list string)) : Prop :=
  ∀ (l : nat) (ss : list string),
    h !! l = Some ss → ∃ k, h' !! l = Some (ss ++ replicate k "").

Lemma heap_le_refl (h : heap) : heap_le h h.
Proof. intros l ss Hl. exists 0. by rewrite app_nil_r. Qed.

Lemma heap_le_trans (h1 h2 h3 : heap) : heap_le h1 h2 → heap_le h2 h3 → heap_le h1 h3.
Proof.
  intros H12 H23 l ss Hl. destruct (H12 l ss Hl) as [k1 Hk1].
  destruct (H23 l _ Hk1) as [k2 Hk2]. exists (k1 + k2).
  by rewrite Hk2, <- app_assoc, replicate_add.
Qed.

Lemma heap_le_alloc (h : heap) (ss : list string) : heap_le h (h ++ [ss]).
Proof.
  intros l ss' Hl. exists 0. rewrite app_nil_r.
  unfold heap in *. by apply lookup_app_l_Some.
Qed.

Lemma heap_le_pad (h : heap) (l : loc) (n : nat) :
  heap_le h (<[l := Unit.strings_at h l ++ replicate n ""]> h).
Proof.
  intros l' ss Hl'. unfold Unit.strings_at, heap, loc in *.
  destruct (decide (l = l')) as [->|Hne].
  - exists n. rewrite Hl'. apply list_lookup_insert_eq. by eapply lookup_lt_Some.
  - exists 0. rewrite app_nil_r. by rewrite list_lookup_insert_ne.
Qed.


(** *** What the steps of a unit merge keep *)

(** The same entry: the identity, the plural of the source and the
    obsolete flag. *)
Definition same_entry (u v : pounit) : Prop :=
  source u = source v ∧ source_plural u = source_plural v
  ∧ context u = context v ∧ obsolete u = obsolete v.

Lemma same_entry_refl u : same_entry u u.
Proof. by split_and!. Qed.

Lemma same_entry_trans u v w : same_entry u v → same_entry v w → same_entry u w.
Proof.
  intros (? & ? & ? & ?) (? & ? & ? & ?). split_and!; congruence.
Qed.

Lemma same_entry_addnote text o u : same_entry (Unit.addnote text o u) u.
Proof. unfold Unit.addnote. destruct (Unit.is_blank_text text), o; by split_and!. Qed.

Lemma same_entry_set_translation_from unit out :
  same_entry (_PoFileDiff.set_translation_from unit out) out.
Proof.
  unfold _PoFileDiff.set_translation_from. destruct (prev_msgid unit); by split_and!.
Qed.

Lemma same_entry_getid u v : same_entry u v → Unit.getid u = Unit.getid v.
Proof. intros (Hs & _ & Hc & _). unfold Unit.getid. by rewrite Hs, Hc. Qed.

Section Facts.
Context `{CatalogLayer} `{Clock}.
#[local] Arguments Py.format : simpl never.

(** *** The header *)

Lemma merge_header_key_inv bd ld rd local remote key out c h out' c' h' :
  _PoFileDiff.merge_header_key bd ld rd local remote key (out, c) h
    = Ok ((out', c'), h') →
  h' = h ∧ (c' = c ∨ c' = 1) ∧ same_entry out' out.
Proof.
  unfold _PoFileDiff.merge_header_key. intros E.
  apply mbind_Ok in E as ([[res o1] c1] & h1 & E1 & E2).
  assert (h1 = h ∧ (c1 = c ∨ c1 = 1) ∧ same_entry o1 out) as (-> & Hc1 & Ho1).
  { destruct (decide (Py.get bd key = Py.get ld key)).
    { apply mret_Ok in E1 as [[= -> -> ->] ->].
      split_and!; [done|by left|apply same_entry_refl]. }
    destruct (decide (Py.get bd key = Py.get rd key ∨ Py.get ld key = Py.get rd key)).
    { apply mret_Ok in E1 as [[= -> -> ->] ->].
      split_and!; [done|by left|apply same_entry_refl]. }
    apply mbind_Ok in E1 as (use_local & h2 & E1 & E3).
    apply mlift_Ok in E1 as [_ ->].
    destruct use_local; apply mret_Ok in E3 as [[= -> -> ->] ->];
      (split_and!; [done|by right|apply same_entry_addnote]). }
  destruct res as [res|].
  - apply mbind_Ok in E2 as (line & h2 & E2 & E3). apply mlift_Ok in E2 as [_ ->].
    apply mbind_Ok in E3 as (o2 & h3 & E3 & E4). apply mread_Ok in E3 as [-> ->].
    apply mret_Ok in E4 as [[= -> ->] ->].
    split_and!; [done|done|]. eapply same_entry_trans; [|exact Ho1].
    by split_and!.
  - apply mret_Ok in E2 as [[= -> ->] ->]. by split_and!.
Qed.

Lemma merge_header_keys_inv bd ld rd local remote allkeys out c h out' c' h' :
  _PoFileDiff.merge_header_keys bd ld rd local remote allkeys (out, c) h
    = Ok ((out', c'), h') →
  h' = h ∧ (c' = c ∨ c' = 1) ∧ same_entry out' out.
Proof.
  revert out c. induction allkeys as [|key allkeys IH]; intros out c E.
  - apply mret_Ok in E as [[= -> ->] ->].
    split_and!; [done|by left|apply same_entry_refl].
  - change (_PoFileDiff.merge_header_keys bd ld rd local remote
              (key :: allkeys) (out, c) h)
      with (mbind (_PoFileDiff.merge_header_key bd ld rd local remote key (out, c))
              (λ st, _PoFileDiff.merge_header_keys bd ld rd local remote
                       allkeys st) h) in E.
    apply mbind_Ok in E as ([o1 c1] & h1 & E1 & E2).
    apply merge_header_key_inv in E1 as (-> & Hc1 & Ho1).
    apply IH in E2 as (-> & Hc' & Ho').
    split_and!; [done| |by eapply same_entry_trans].
    destruct Hc1 as [->| ->], Hc' as [->| ->]; auto.
Qed.

(** [_merge_header] leaves the heap as it is, counts at most one
    conflict, and keeps the entry. *)
Lemma merge_header_inv out base local remote h out' c h' :
  _PoFileDiff._merge_header out base local remote h = Ok ((out', c), h') →
  h' = h ∧ c ≤ 1 ∧ same_entry out' out.
Proof.
  unfold _PoFileDiff._merge_header. intros E.
  apply mbind_Ok in E as (bd & h1 & E1 & E). apply mread_Ok in E1 as [-> ->].
  apply mbind_Ok in E as (ld & h1 & E1 & E). apply mread_Ok in E1 as [-> ->].
  apply mbind_Ok in E as (rd & h1 & E1 & E). apply mread_Ok in E1 as [-> ->].
  apply mbind_Ok in E as (allkeys & h1 & E1 & E). apply mlift_Ok in E1 as [_ ->].
  apply mbind_Ok in E as ([o1 c1] & h1 & E1 & E).
  apply merge_header_keys_inv in E1 as (-> & Hc1 & Ho1).
  apply mbind_Ok in E as (fz & h1 & E1 & E). apply mlift_Ok in E1 as [_ ->].
  apply mret_Ok in E as [[= -> ->] ->].
  split_and!; [done|destruct Hc1 as [->| ->]; lia|].
  eapply same_entry_trans; [|eapply same_entry_trans; [exact Ho1|]]; by split_and!.
Qed.

(** *** The translation *)

Lemma pad_to_heap_le n xs h xs' h' :
  _PoFileDiff.pad_to n xs h = Ok (xs', h') → heap_le h h'.
Proof.
  destruct xs as [l|ss].
  - rewrite pad_to_shared. intros [= _ <-]. apply heap_le_pad.
  - rewrite pad_to_fresh. intros [= _ <-]. apply heap_le_refl.
Qed.

(** The marker branch counts one conflict and sets the target and the
    fuzzy flag of the unit. *)
Lemma conflict_marker_inv out local remote h out' c h' :
  _PoFileDiff.conflict_marker out local remote h = Ok ((out', c), h') →
  heap_le h h' ∧ c = 1 ∧ same_entry out' out.
Proof.
  unfold _PoFileDiff.conflict_marker. intros E.
  apply mbind_Ok in E as (tmpl & h1 & E1 & E). apply mlift_Ok in E1 as [_ ->].
  apply mbind_Ok in E as (n & h1 & E1 & E). apply mread_Ok in E1 as [_ ->].
  apply mbind_Ok in E as (ls & h1 & E1 & E). apply pad_to_heap_le in E1 as Hle1.
  apply mbind_Ok in E as (n' & h2 & E2 & E). apply mread_Ok in E2 as [_ ->].
  apply mbind_Ok in E as (rs & h2 & E2 & E). apply pad_to_heap_le in E2 as Hle2.
  apply mbind_Ok in E as (lss & h3 & E3 & E). apply mread_Ok in E3 as [_ ->].
  apply mbind_Ok in E as (rss & h3 & E3 & E). apply mread_Ok in E3 as [_ ->].
  apply mbind_Ok in E as (t & h3 & E3 & E).
  apply mret_Ok in E as [[= -> ->] ->].
  assert (heap_le h2 h3) as Hle3.
  { destruct (hasplural local).
    - apply mbind_Ok in E3 as (ss & h4 & E3 & E4). apply mlift_Ok in E3 as [_ ->].
      unfold _PoFileDiff.multistring in E4. destruct ss as [|s ss]; [done|].
      apply mbind_Ok in E4 as (l & h4 & E4 & E5).
      apply mret_Ok in E5 as [_ ->]. unfold malloc in E4.
      injection E4 as _ <-. apply heap_le_alloc.
    - apply mbind_Ok in E3 as (l0 & h4 & E3 & E4). apply mlift_Ok in E3 as [_ ->].
      apply mbind_Ok in E4 as (r0 & h4 & E4 & E5). apply mlift_Ok in E4 as [_ ->].
      apply mbind_Ok in E5 as (s & h4 & E5 & E6). apply mlift_Ok in E5 as [_ ->].
      apply mret_Ok in E6 as [_ ->]. apply heap_le_refl. }
  split_and!; [|done|by split_and!].
  eapply heap_le_trans; [exact Hle1|]. eapply heap_le_trans; [exact Hle2|done].
Qed.

(** [_merge_target] counts at most one conflict and keeps the entry;
    the heap only grows. *)
Lemma merge_target_inv out base local remote h out' c h' :
  _PoFileDiff._merge_target out base local remote h = Ok ((out', c), h') →
  heap_le h h' ∧ c ≤ 1 ∧ same_entry out' out.
Proof.
  unfold _PoFileDiff._merge_target. intros E.
  assert (∀ unit h0, mret (_PoFileDiff.set_translation_from unit out, 0) h0
                     = Ok ((out', c), h') →
          heap_le h0 h' ∧ c ≤ 1 ∧ same_entry out' out) as Hset.
  { intros unit h0 E0. apply mret_Ok in E0 as [[= -> ->] ->].
    split_and!; [apply heap_le_refl|lia|apply same_entry_set_translation_from]. }
  apply mbind_Ok in E as (eq_bl & h1 & E1 & E). apply mread_Ok in E1 as [_ ->].
  destruct eq_bl; [by eapply Hset|].
  apply mbind_Ok in E as (eq_br & h1 & E1 & E). apply mread_Ok in E1 as [_ ->].
  destruct eq_br; [by eapply Hset|].
  apply mbind_Ok in E as (eq_lr & h1 & E1 & E). apply mread_Ok in E1 as [_ ->].
  destruct eq_lr; [by eapply Hset|].
  destruct (decide _); [by eapply Hset|].
  destruct (decide _); [by eapply Hset|].
  apply conflict_marker_inv in E as (Hle & -> & Hsame). split_and!; [done|lia|done].
Qed.


(** *** The unit before its translation is merged *)

(** What [merge_list] returns. *)
Definition merged (base local remote : list string) : list string :=
  match DiffUtils.merge_list base local remote with
  | Ok l => l
  | Raise _ => []
  end.

(** The unit [_merge_unit] has made when it goes on to the header or to
    the translation: the entry of [local] with the merged locations,
    notes, types and obsolete flag. *)
Definition prepared (base local remote : pounit) : pounit :=
  let out := _PoFileDiff.empty_unit local in
  let out := foldl (λ out l, Unit.addlocation l out) out
               (merged (Unit.getlocations base) (Unit.getlocations local)
                  (Unit.getlocations remote)) in
  let out := foldl (λ out n, Unit.addnote n developer out) out
               (merged (Unit.getnotes_split developer base)
                  (Unit.getnotes_split developer local)
                  (Unit.getnotes_split developer remote)) in
  let out := foldl (λ out n, Unit.addnote n translator out) out
               (merged (Unit.getnotes_split translator base)
                  (Unit.getnotes_split translator local)
                  (Unit.getnotes_split translator remote)) in
  let types := merged (_PoFileDiff._get_types base) (_PoFileDiff._get_types local)
                 (_PoFileDiff._get_types remote) in
  let out := Unit.set_typecomments
               (match types with [] => [] | _ :: _ => [types_line types] end) out in
  if (if bool_decide (obsolete base = obsolete remote) then obsolete local
      else obsolete remote)
  then Unit.makeobsolete out else out.

Lemma merged_eq (base local remote : list string) :
  DiffUtils.merge_list base local remote = Ok (merged base local remote).
Proof.
  unfold merged. by destruct (merge_list_returns base local remote) as (m & -> & _).
Qed.

Lemma set_types_eq (out : pounit) (types : list string) :
  _PoFileDiff._set_types out types =
    Ok (Unit.set_typecomments
          (match types with [] => [] | _ :: _ => [types_line types] end) out).
Proof. destruct types; [reflexivity|apply set_types_line]. Qed.

(** The first part of [_merge_unit] never raises. *)
Lemma merge_unit_prepared base local remote h :
  _PoFileDiff._merge_unit base local remote h =
    if isheader local
    then _PoFileDiff._merge_header (prepared base local remote) base local remote h
    else _PoFileDiff._merge_target (prepared base local remote) base local remote h.
Proof.
  unfold _PoFileDiff._merge_unit, prepared.
  rewrite !merged_eq. unfold mbind at 1. unfold mlift at 1.
  unfold mbind at 1. unfold mlift at 1.
  unfold mbind at 1. unfold mlift at 1.
  unfold mbind at 1. unfold mlift at 1.
  rewrite set_types_eq. unfold mbind at 1. unfold mlift at 1.
  unfold Unit.isobsolete. rewrite MergeSimpleFacts.merge_simple_bool.
  unfold mbind at 1. unfold mlift at 1.
  by destruct (isheader local).
Qed.

Lemma foldl_proj {X T} (p : pounit → T) (g : pounit → X → pounit)
    (xs : list X) (u : pounit) :
  (∀ u x, p (g u x) = p u) → p (foldl g u xs) = p u.
Proof.
  intros Hg. revert u. induction xs as [|x xs IH]; intros u; [done|].
  simpl. by rewrite IH, Hg.
Qed.

Lemma proj_addnote {T} (p : pounit → T) text o u :
  (∀ l1 l2 v, p (MkUnit (source v) (source_plural v) (context v) (target v)
                   (fuzzy v) (obsolete v) (locations v) l1 l2 (typecomments v)
                   (prev_msgctxt v) (prev_msgid v) (prev_msgid_plural v) (_store v))
              = p v) →
  p (Unit.addnote text o u) = p u.
Proof.
  intros Hp. unfold Unit.addnote. destruct (Unit.is_blank_text text), o; by rewrite ?Hp.
Qed.

(** The entry, the obsolete flag and the blank translation of the
    prepared unit. *)
Lemma prepared_fields base local remote :
  let out := prepared base local remote in
  source out = source local ∧ source_plural out = source_plural local
  ∧ context out = context local
  ∧ obsolete out = (if bool_decide (obsolete base = obsolete remote)
                    then obsolete local else obsolete remote)
  ∧ target out = TStr "" ∧ fuzzy out = false ∧ prev_msgid out = [].
Proof.
  assert (∀ {T} (p : pounit → T),
    (∀ l v, p (Unit.addlocation l v) = p v) →
    (∀ l1 l2 v, p (MkUnit (source v) (source_plural v) (context v) (target v)
                     (fuzzy v) (obsolete v) (locations v) l1 l2 (typecomments v)
                     (prev_msgctxt v) (prev_msgid v) (prev_msgid_plural v) (_store v))
                = p v) →
    ∀ ls dev tr,
      p (foldl (λ out n, Unit.addnote n translator out)
           (foldl (λ out n, Unit.addnote n developer out)
              (foldl (λ out l, Unit.addlocation l out)
                 (_PoFileDiff.empty_unit local) ls) dev) tr)
      = p (_PoFileDiff.empty_unit local)) as Hkeep.
  { intros T p Hl Hn ls dev tr.
    rewrite (foldl_proj p) by (intros; by apply proj_addnote).
    rewrite (foldl_proj p) by (intros; by apply proj_addnote).
    by rewrite (foldl_proj p) by done. }
  unfold prepared. cbv zeta.
  destruct (if bool_decide (obsolete base = obsolete remote) then obsolete local
            else obsolete remote) eqn:Eobs; simpl;
    rewrite ?(Hkeep _ source), ?(Hkeep _ source_plural), ?(Hkeep _ context),
      ?(Hkeep _ target), ?(Hkeep _ fuzzy), ?(Hkeep _ prev_msgid),
      ?(Hkeep _ obsolete) by done; done.
Qed.

Lemma prepared_same_entry base local remote :
  Unit.getid (prepared base local remote) = Unit.getid local.
Proof.
  destruct (prepared_fields base local remote) as (Hs & _ & Hc & _).
  unfold Unit.getid. by rewrite Hs, Hc.
Qed.

(** [_merge_unit] counts at most one conflict; the unit it returns is
    the entry of [local], obsolete as the merge of the three flags says;
    the heap only grows. *)
Lemma merge_unit_inv base local remote h u c h' :
  _PoFileDiff._merge_unit base local remote h = Ok ((u, c), h') →
  heap_le h h' ∧ c ≤ 1 ∧ Unit.getid u = Unit.getid local
  ∧ obsolete u = (if bool_decide (obsolete base = obsolete remote)
                  then obsolete local else obsolete remote).
Proof.
  rewrite merge_unit_prepared.
  destruct (prepared_fields base local remote) as (Hs & _ & Hc & Ho & _).
  intros E.
  assert (heap_le h h' ∧ c ≤ 1 ∧ same_entry u (prepared base local remote))
    as (Hle & Hc1 & Hsame).
  { destruct (isheader local).
    - apply merge_header_inv in E as (-> & ? & ?).
      split_and!; [apply heap_le_refl|done|done].
    - by apply merge_target_inv in E. }
  split_and!; [done|done| |].
  - rewrite (same_entry_getid _ _ Hsame). apply prepared_same_entry.
  - destruct Hsame as (_ & _ & _ & ->). done.
Qed.

(** *** Two of the three units are the same *)

Lemma target_eq_refl (h : heap) (t : target_t) : Unit.target_eq h t t = true.
Proof. destruct t; by apply bool_decide_eq_true_2. Qed.

Lemma equal_translation_refl (h : heap) (u : pounit) :
  _PoFileDiff._equal_translation h u u = true.
Proof.
  unfold _PoFileDiff._equal_translation. rewrite target_eq_refl.
  by rewrite bool_decide_eq_true_2.
Qed.

(** The translation of the side that changed is taken, without a
    conflict. *)
Lemma merge_target_unchanged out base local remote h :
  base = local ∨ base = remote ∨ local = remote →
  ∃ unit,
    _PoFileDiff._merge_target out base local remote h =
      Ok ((_PoFileDiff.set_translation_from unit out, 0), h)
    ∧ (base = local → unit = remote)
    ∧ (_PoFileDiff._equal_translation h base local = false → unit = local).
Proof.
  intros Hsame. unfold _PoFileDiff._merge_target, mbind, mread.
  destruct (_PoFileDiff._equal_translation h base local) eqn:Ebl.
  { exists remote. by split_and!. }
  assert (base ≠ local) as Hne.
  { intros ->. by rewrite equal_translation_refl in Ebl. }
  destruct (_PoFileDiff._equal_translation h base remote) eqn:Ebr.
  { exists local. by split_and!. }
  destruct Hsame as [?|[->| ->]]; [done| |].
  { by rewrite equal_translation_refl in Ebr. }
  rewrite equal_translation_refl. exists remote. by split_and!.
Qed.

(** No key of the header conflicts. *)
Lemma merge_header_key_quiet bd ld rd local remote key out c h :
  ¬ conflicting bd ld rd key →
  ∃ out',
    _PoFileDiff.merge_header_key bd ld rd local remote key (out, c) h
      = Ok ((out', c), h).
Proof.
  intros Hq. unfold _PoFileDiff.merge_header_key.
  assert (∀ (res : option string) (o : pounit),
    ∃ out',
      match res with
      | Some res =>
          (line ← mlift (Py.format ("%s: %s" +:+ Py.nl) [key; res]);
           out ← mread (λ h, _PoFileDiff.target_append h line o);
           mret (out, c))%M
      | None => mret (o, c)
      end h = Ok ((out', c), h)) as Hfin.
  { intros [v|] o.
    - rewrite format_header_line. unfold mbind, mlift, mread, mret. by eexists.
    - by eexists. }
  unfold mbind at 1.
  destruct (decide (Py.get bd key = Py.get ld key)) as [Ebl|Ebl].
  { unfold mret at 1. apply Hfin. }
  destruct (decide (Py.get bd key = Py.get rd key ∨ Py.get ld key = Py.get rd key))
    as [Er|Er].
  { unfold mret at 1. apply Hfin. }
  exfalso. apply Hq. unfold conflicting. tauto.
Qed.

Lemma merge_header_keys_quiet bd ld rd local remote allkeys out c h :
  (∀ key, ¬ conflicting bd ld rd key) →
  ∃ out',
    _PoFileDiff.merge_header_keys bd ld rd local remote allkeys (out, c) h
      = Ok ((out', c), h).
Proof.
  intros Hq. revert out. induction allkeys as [|key allkeys IH]; intros out.
  - by exists out.
  - destruct (merge_header_key_quiet bd ld rd local remote key out c h (Hq key))
      as (o1 & E1).
    destruct (IH o1) as (out' & E'). exists out'.
    change (_PoFileDiff.merge_header_keys bd ld rd local remote
              (key :: allkeys) (out, c) h)
      with (mbind (_PoFileDiff.merge_header_key bd ld rd local remote key (out, c))
              (λ st, _PoFileDiff.merge_header_keys bd ld rd local remote
                       allkeys st) h).
    unfold mbind. by rewrite E1.
Qed.

Lemma merge_header_unchanged out base local remote h :
  base = local ∨ base = remote ∨ local = remote →
  ∃ out', _PoFileDiff._merge_header out base local remote h = Ok ((out', 0), h).
Proof.
  intros Hsame. unfold _PoFileDiff._merge_header.
  set (bd := parseheaderstring (Unit.target_text h (target base))).
  set (ld := parseheaderstring (Unit.target_text h (target local))).
  set (rd := parseheaderstring (Unit.target_text h (target remote))).
  assert (∀ key, ¬ conflicting bd ld rd key) as Hq.
  { intros key (Hbl & Hbr & Hlr). unfold bd, ld, rd in *.
    destruct Hsame as [->|[->| ->]]; done. }
  destruct (merge_header_keys_quiet bd ld rd local remote
              (merged (Py.keys bd) (Py.keys ld) (Py.keys rd))
              (Unit.settarget (TStr "") out) 0 h Hq) as (o1 & E1).
  unfold mbind, mread, mlift, mret. fold bd ld rd.
  rewrite merged_eq, E1. unfold Unit.isfuzzy.
  rewrite MergeSimpleFacts.merge_simple_bool. by eexists.
Qed.

Lemma merge_unit_quiet (base local remote : pounit) (h : heap) :
  base = local ∨ base = remote ∨ local = remote →
  ∃ out,
    _PoFileDiff._merge_unit base local remote h = Ok ((out, 0), h)
    ∧ Unit.getid out = Unit.getid local
    ∧ obsolete out = (if bool_decide (obsolete base = obsolete remote)
                      then obsolete local else obsolete remote).
Proof.
  intros Hsame.
  assert (∃ out, _PoFileDiff._merge_unit base local remote h = Ok ((out, 0), h))
    as [out E].
  { rewrite merge_unit_prepared. destruct (isheader local).
    - by apply merge_header_unchanged.
    - destruct (merge_target_unchanged (prepared base local remote)
                  base local remote h Hsame) as (unit & E & _).
      by eexists. }
  exists out. split; [done|].
  by apply merge_unit_inv in E as (_ & _ & ? & ?).
Qed.

(** When at most one of the two heads differs from the base, or the two
    heads are the same, [_merge_unit] returns without a conflict and
    leaves the heap as it is; the unit it returns is the entry of
    [local], obsolete as the merge of the three flags says. *)
Theorem merge_unit_no_conflict (base local remote : pounit) (h : heap) :
  base = local ∨ base = remote ∨ local = remote →
  ∃ out,
    _PoFileDiff._merge_unit base local remote h = Ok ((out, 0), h)
    ∧ Unit.getid out = Unit.getid local
    ∧ obsolete out = (if bool_decide (obsolete base = obsolete remote)
                      then obsolete local else obsolete remote).
Proof. apply merge_unit_quiet. Qed.

(** When one head has the translation of the base and the other one has
    changed it, the merged unit has the target (the very object), the
    fuzzy flag and the obsolete flag of the head that changed, and no
    conflict is counted. *)
Theorem merge_unit_takes_change (x y : pounit) (h : heap) :
  isheader x = false → isheader y = false →
  _PoFileDiff._equal_translation h x y = false →
  (∃ out,
     _PoFileDiff._merge_unit x x y h = Ok ((out, 0), h)
     ∧ target out = target y ∧ fuzzy out = fuzzy y ∧ obsolete out = obsolete y)
  ∧ (∃ out,
       _PoFileDiff._merge_unit x y x h = Ok ((out, 0), h)
       ∧ target out = target y ∧ fuzzy out = fuzzy y ∧ obsolete out = obsolete y).
Proof.
  intros Hx Hy Hxy.
  assert (∀ unit out, target (_PoFileDiff.set_translation_from unit out) = target unit
                      ∧ fuzzy (_PoFileDiff.set_translation_from unit out) = fuzzy unit)
    as Hset.
  { intros unit out. unfold _PoFileDiff.set_translation_from.
    by destruct (prev_msgid unit). }
  split.
  - destruct (merge_target_unchanged (prepared x x y) x x y h) as (unit & E & Hu & _);
      [by left|].
    rewrite (Hu eq_refl) in E.
    eexists. rewrite merge_unit_prepared, Hx. split; [exact E|].
    destruct (Hset y (prepared x x y)) as [-> ->]. split_and!; [done|done|].
    destruct (same_entry_set_translation_from y (prepared x x y)) as (_ & _ & _ & ->).
    destruct (prepared_fields x x y) as (_ & _ & _ & -> & _).
    by case_bool_decide.
  - destruct (merge_target_unchanged (prepared x y x) x y x h) as (unit & E & _ & Hu);
      [right; by left|].
    rewrite (Hu Hxy) in E.
    eexists. rewrite merge_unit_prepared, Hy. split; [exact E|].
    destruct (Hset y (prepared x y x)) as [-> ->]. split_and!; [done|done|].
    destruct (same_entry_set_translation_from y (prepared x y x)) as (_ & _ & _ & ->).
    destruct (prepared_fields x y x) as (_ & _ & _ & -> & _).
    by rewrite bool_decide_eq_true_2.
Qed.

End Facts.

(** Both heads have made the same change to an entry. *)
Lemma merge_unit_no_conflict_witness :
  let b := Battery.entry "foo" "bar" in
  let x := Battery.entry "foo" "baz" in
  (b = x ∨ b = x ∨ x = x)
  ∧ ∃ out,
      @_PoFileDiff._merge_unit PyPo.layer PyPo.utc b x x [] = Ok ((out, 0), [])
      ∧ Unit.getid out = Unit.getid x
      ∧ obsolete out = (if bool_decide (obsolete b = obsolete x)
                        then obsolete x else obsolete x).
Proof.
  cbv zeta.
  assert (Battery.entry "foo" "bar" = Battery.entry "foo" "baz"
          ∨ Battery.entry "foo" "bar" = Battery.entry "foo" "baz"
          ∨ Battery.entry "foo" "baz" = Battery.entry "foo" "baz") as Hs
    by (right; right; reflexivity).
  split; [exact Hs|].
  exact (@merge_unit_no_conflict PyPo.layer PyPo.utc _ _ _ [] Hs).
Defined.

(** The entry of [test_po_change_translation]. *)
Lemma merge_unit_takes_change_witness :
  let x := Battery.entry "original" "translation" in
  let y := Battery.entry "original" "modified" in
  @isheader PyPo.layer x = false ∧ @isheader PyPo.layer y = false
  ∧ _PoFileDiff._equal_translation [] x y = false
  ∧ (∃ out,
       @_PoFileDiff._merge_unit PyPo.layer PyPo.utc x x y [] = Ok ((out, 0), [])
       ∧ target out = target y ∧ fuzzy out = fuzzy y ∧ obsolete out = obsolete y)
  ∧ (∃ out,
       @_PoFileDiff._merge_unit PyPo.layer PyPo.utc x y x [] = Ok ((out, 0), [])
       ∧ target out = target y ∧ fuzzy out = fuzzy y ∧ obsolete out = obsolete y).
Proof.
  cbv zeta. split; [reflexivity|]. split; [reflexivity|]. split; [reflexivity|].
  exact (@merge_unit_takes_change PyPo.layer PyPo.utc
           (Battery.entry "original" "translation")
           (Battery.entry "original" "modified") [] eq_refl eq_refl eq_refl).
Defined.

End UnitMergeFacts.

(** ** Headers without a conflicting field *)

Module HeaderQuiet.
Import FormatFacts MergeListFacts HeaderFacts UnitMergeFacts.

Section Facts.
Context `{CatalogLayer} `{Clock}.
#[local] Arguments Py.format : simpl never.

Variables (bd ld rd : Py.dict) (local remote : pounit).

(** One round of the loop of [_merge_header] on a key that does not
    conflict: the dates of the heads are not read. *)
Lemma merge_header_key_calm key out c h s :
  ¬ conflicting bd ld rd key → target out = TStr s →
  ∃ out',
    _PoFileDiff.merge_header_key bd ld rd local remote key (out, c) h
      = Ok ((out', c), h)
    ∧ (∀ pot rev, target out' = TStr (s +:+ header_line bd ld rd pot rev key))
    ∧ fuzzy out' = fuzzy out.
Proof.
  intros Hq Hs. unfold _PoFileDiff.merge_header_key, header_line, resolve.
  assert (∀ (res : option string),
    ∃ out',
      match res with
      | Some res =>
          (line ← mlift (Py.format ("%s: %s" +:+ Py.nl) [key; res]);
           out ← mread (λ h, _PoFileDiff.target_append h line out);
           mret (out, c))%M
      | None => mret (out, c)
      end h = Ok ((out', c), h)
      ∧ target out' =
          TStr (s +:+ match res with
                      | Some value => key +:+ ": " +:+ value +:+ Py.nl
                      | None => ""
                      end)
      ∧ fuzzy out' = fuzzy out) as Hfin.
  { intros [v|].
    - rewrite format_header_line. unfold mbind, mlift, mread, mret.
      eexists. split; [reflexivity|]. unfold _PoFileDiff.target_append.
      rewrite Hs. done.
    - exists out. unfold mret. rewrite append_nil_r. done. }
  unfold mbind at 1.
  destruct (decide (Py.get bd key = Py.get ld key)) as [Ebl|Ebl].
  { unfold mret at 1. destruct (Hfin (Py.get rd key)) as (out' & E & Ht & Hf).
    exists out'. by split_and!. }
  destruct (decide (Py.get bd key = Py.get rd key ∨ Py.get ld key = Py.get rd key))
    as [Er|Er].
  { unfold mret at 1. destruct (Hfin (Py.get ld key)) as (out' & E & Ht & Hf).
    exists out'. by split_and!. }
  exfalso. apply Hq. unfold conflicting. tauto.
Qed.

Lemma merge_header_keys_calm allkeys out c h s :
  Forall (λ key, ¬ conflicting bd ld rd key) allkeys → target out = TStr s →
  ∃ out',
    _PoFileDiff.merge_header_keys bd ld rd local remote allkeys (out, c) h
      = Ok ((out', c), h)
    ∧ (∀ pot rev, target out' = TStr (s +:+ header_text bd ld rd pot rev allkeys))
    ∧ fuzzy out' = fuzzy out.
Proof.
  intros Hq. revert out s. induction Hq as [|key allkeys Hkey _ IH]; intros out s Hs.
  - exists out. simpl. rewrite append_nil_r. by split_and!.
  - destruct (merge_header_key_calm key out c h s Hkey Hs) as (out1 & E1 & Ht1 & Hf1).
    destruct (IH out1 _ (Ht1 true true)) as (out' & E' & Ht' & Hf').
    exists out'. split_and!.
    + change (_PoFileDiff.merge_header_keys bd ld rd local remote
                (key :: allkeys) (out, c) h)
        with (mbind (_PoFileDiff.merge_header_key bd ld rd local remote key (out, c))
                (λ st, _PoFileDiff.merge_header_keys bd ld rd local remote
                         allkeys st) h).
      unfold mbind. by rewrite E1.
    + intros pot rev. pose proof (Ht1 pot rev) as Ha. pose proof (Ht1 true true) as Hb.
      rewrite Ha in Hb. injection Hb as Hb.
      pose proof (Ht' pot rev) as Hc. rewrite Hc. simpl.
      by rewrite <- Hb, append_assoc.
    + by rewrite Hf', Hf1.
Qed.

End Facts.

Section Header.
Context `{CatalogLayer} `{Clock}.

(** The merge of three headers in which no merged key conflicts: the
    merge returns with a count of 0 and leaves the heap as it is, also
    when a date field is missing or unreadable in a head (the dates are
    read for a conflicting key only); the text is made of the lines of
    the merged keys, where a key has the value of the head that changed
    it; the fuzzy flag is the merge of the three flags. *)
Theorem merge_header_without_conflict (out base local remote : pounit) (h : heap)
    (allkeys : list string) :
  let bd := parseheaderstring (Unit.target_text h (target base)) in
  let ld := parseheaderstring (Unit.target_text h (target local)) in
  let rd := parseheaderstring (Unit.target_text h (target remote)) in
  DiffUtils.merge_list (Py.keys bd) (Py.keys ld) (Py.keys rd) = Ok allkeys →
  Forall (λ key, ¬ conflicting bd ld rd key) allkeys →
  ∃ out',
    _PoFileDiff._merge_header out base local remote h = Ok ((out', 0), h)
    ∧ (∀ pot rev, target out' = TStr (header_text bd ld rd pot rev allkeys))
    ∧ fuzzy out' =
        (if bool_decide (fuzzy base = fuzzy remote) then fuzzy local
         else fuzzy remote).
Proof.
  intros bd ld rd Ekeys Hq.
  destruct (merge_header_keys_calm bd ld rd local remote allkeys
              (Unit.settarget (TStr "") out) 0 h "" Hq eq_refl)
    as (out1 & E1 & Ht1 & Hf1).
  exists (Unit.markfuzzy
            (if bool_decide (fuzzy base = fuzzy remote) then fuzzy local
             else fuzzy remote) out1).
  split_and!; [|done|done].
  unfold _PoFileDiff._merge_header, mbind, mread, mlift, mret.
  fold bd ld rd. rewrite Ekeys, E1.
  unfold Unit.isfuzzy. rewrite MergeSimpleFacts.merge_simple_bool. done.
Qed.

End Header.

#[local] Existing Instance PyPo.layer.
#[local] Existing Instance PyPo.utc.

(** Three headers without dates: each head has changed one field. *)
Lemma merge_header_without_conflict_witness :
  let base := Battery.header_entry ["Language: "; "Language-Team: none"] in
  let local := Battery.header_entry ["Language: cs"; "Language-Team: none"] in
  let remote := Battery.header_entry ["Language: "; "Language-Team: Czech"] in
  let out := _PoFileDiff.empty_unit local in
  let bd := parseheaderstring (Unit.target_text [] (target base)) in
  let ld := parseheaderstring (Unit.target_text [] (target local)) in
  let rd := parseheaderstring (Unit.target_text [] (target remote)) in
  DiffUtils.merge_list (Py.keys bd) (Py.keys ld) (Py.keys rd)
    = Ok ["Language"; "Language-Team"]
  ∧ Forall (λ key, ¬ conflicting bd ld rd key) ["Language"; "Language-Team"]
  ∧ _PoFileDiff.newer ld rd "PO-Revision-Date" = Raise TypeError
  ∧ ∃ out',
      _PoFileDiff._merge_header out base local remote [] = Ok ((out', 0), [])
      ∧ (∀ pot rev, target out' =
           TStr (header_text bd ld rd pot rev ["Language"; "Language-Team"]))
      ∧ fuzzy out' =
          (if bool_decide (fuzzy base = fuzzy remote) then fuzzy local
           else fuzzy remote).
Proof.
  cbv zeta.
  set (base := Battery.header_entry ["Language: "; "Language-Team: none"]).
  set (local := Battery.header_entry ["Language: cs"; "Language-Team: none"]).
  set (remote := Battery.header_entry ["Language: "; "Language-Team: Czech"]).
  assert (DiffUtils.merge_list
            (Py.keys (parseheaderstring (Unit.target_text [] (target base))))
            (Py.keys (parseheaderstring (Unit.target_text [] (target local))))
            (Py.keys (parseheaderstring (Unit.target_text [] (target remote))))
          = Ok ["Language"; "Language-Team"]) as Ekeys by (vm_compute; reflexivity).
  assert (Forall (λ key,
            ¬ conflicting (parseheaderstring (Unit.target_text [] (target base)))
                (parseheaderstring (Unit.target_text [] (target local)))
                (parseheaderstring (Unit.target_text [] (target remote))) key)
            ["Language"; "Language-Team"]) as Hq
    by (refine (bool_decide_unpack _ _); vm_compute; exact I).
  split; [exact Ekeys|]. split; [exact Hq|]. split; [vm_compute; reflexivity|].
  exact (merge_header_without_conflict (_PoFileDiff.empty_unit local)
           base local remote [] _ Ekeys Hq).
Defined.

(** The header of that merge. *)
Example header_without_dates :
  Battery.run [Battery.header_entry ["Language: "; "Language-Team: none"]]
    [Battery.header_entry ["Language: cs"; "Language-Team: none"]]
    [Battery.header_entry ["Language: "; "Language-Team: Czech"]]
  = Ok ([Battery.Printed ""
           (TStr (Battery.text ["Language: cs"; "Language-Team: Czech"]))
           false false [] [] [] []], 0).
Proof. vm_compute. reflexivity. Qed.

End HeaderQuiet.

(** ** The conflict marker of a plural entry *)

Module PluralFacts.
Import FormatFacts TargetFacts.

Section Facts.
Context `{CatalogLayer}.
#[local] Arguments Py.format : simpl never.



End Facts.

#[local] Existing Instance PyPo.layer.
#[local] Existing Instance PyPo.utc.


End PluralFacts.

(** ** The catalog that [merge] returns *)

Module CatalogFacts.
Import Matcher3Facts MergeFacts UnitMergeFacts.

Section Facts.
Context `{CatalogLayer} `{Clock}.

(** *** One triple *)

Lemma clone_unit_spec (ou : option pounit) (h : heap) :
  ∃ ou' h',
    DiffUtils.clone_unit ou h = Ok (ou', h')
    ∧ heap_le h h'
    ∧ match ou with
      | Some u => ∃ u', ou' = Some u' ∧ same_entry u' u
      | None => ou' = None ∧ h' = h
      end.
Proof.
  destruct ou as [u|]; simpl.
  - destruct (target u) as [s|l].
    + eexists _, _. split_and!; [done|apply heap_le_refl|].
      exists u. split; [done|apply same_entry_refl].
    + eexists _, _. split_and!; [done|apply heap_le_alloc|].
      eexists. split; [done|]. by split_and!.
  - eexists _, _. split; [done|]. split; [apply heap_le_refl|done].
Qed.

(** [merge_unit] returns a unit if and only if a head has one; the unit
    has the identity of the head's unit and is counted for at most one
    conflict; the heap only grows. *)
Lemma merge_unit_opt_inv (ob ol or : option pounit) (h : heap)
    (ou : option pounit) (c : nat) (h' : heap) :
  _PoFileDiff.merge_unit ob ol or h = Ok ((ou, c), h') →
  heap_le h h'
  ∧ match ou with
    | Some u =>
        c ≤ 1 ∧ ∃ x, (ol = Some x ∨ (ol = None ∧ or = Some x))
                     ∧ Unit.getid u = Unit.getid x
    | None => c = 0 ∧ ol = None ∧ or = None
    end.
Proof.
  unfold _PoFileDiff.merge_unit, DiffUtils.merge_unit.
  assert (∀ (o : option pounit) (live : bool),
    (u ← DiffUtils.clone_unit o;
     u ← (if live then DiffUtils.makeobsolete u else mret u);
     mret (u, 0))%M h = Ok ((ou, c), h') →
    heap_le h h'
    ∧ c = 0
    ∧ match o with
      | Some x => ∃ u, ou = Some u ∧ Unit.getid u = Unit.getid x
      | None => ou = None
      end) as Hclone.
  { intros o live E.
    destruct (clone_unit_spec o h) as (o1 & h1 & E1 & Hle & Ho1).
    apply mbind_Ok in E as (o1' & h1' & E1' & E). rewrite E1 in E1'.
    injection E1' as <- <-.
    apply mbind_Ok in E as (o2 & h2 & E2 & E).
    apply mret_Ok in E as [[= -> ->] ->].
    destruct o as [x|].
    - destruct Ho1 as (u' & -> & Hsame).
      destruct live; simpl in E2.
      + apply mret_Ok in E2 as [-> ->]. split_and!; [done|done|].
        eexists. split; [done|]. by rewrite <- (same_entry_getid _ _ Hsame).
      + apply mret_Ok in E2 as [-> ->]. split_and!; [done|done|].
        eexists. split; [done|]. by apply same_entry_getid.
    - destruct Ho1 as [-> ->]. destruct live; simpl in E2; [done|].
      apply mret_Ok in E2 as [-> ->]. by split_and!. }
  assert (∀ b l r,
    ('(u, c) ← _PoFileDiff._merge_unit b l r; mret (Some u, c))%M h
      = Ok ((ou, c), h') →
    heap_le h h' ∧ c ≤ 1 ∧ ∃ u, ou = Some u ∧ Unit.getid u = Unit.getid l)
    as Hmerge.
  { intros b l r E. apply mbind_Ok in E as ([u c1] & h1 & E1 & E).
    apply mret_Ok in E as [[= -> ->] ->].
    apply merge_unit_inv in E1 as (Hle & Hc & Hid & _).
    split_and!; [done|done|]. by exists u. }
  destruct ob as [b|], ol as [l|], or as [r|]; intros E.
  - apply Hmerge in E as (Hle & Hc & u & -> & Hid).
    split; [done|]. split; [done|]. exists l. split; [by left|done].
  - apply Hclone in E as (Hle & -> & u & -> & Hid).
    split; [done|]. split; [lia|]. exists l. split; [by left|done].
  - apply Hclone in E as (Hle & -> & u & -> & Hid).
    split; [done|]. split; [lia|]. exists r. split; [by right|done].
  - apply Hclone in E as (Hle & -> & ->). by split_and!.
  - apply Hmerge in E as (Hle & Hc & u & -> & Hid).
    split; [done|]. split; [done|]. exists l. split; [by left|done].
  - assert ((u ← DiffUtils.clone_unit (Some l);
             u ← (if false then DiffUtils.makeobsolete u else mret u);
             mret (u, 0))%M h = Ok ((ou, c), h')) as E'.
    { rewrite <- E. unfold mbind.
      by destruct (DiffUtils.clone_unit (Some l) h) as [[? ?]|]. }
    apply Hclone in E' as (Hle & -> & u & -> & Hid).
    split; [done|]. split; [lia|]. exists l. split; [by left|done].
  - assert ((u ← DiffUtils.clone_unit (Some r);
             u ← (if false then DiffUtils.makeobsolete u else mret u);
             mret (u, 0))%M h = Ok ((ou, c), h')) as E'.
    { rewrite <- E. unfold mbind.
      by destruct (DiffUtils.clone_unit (Some r) h) as [[? ?]|]. }
    apply Hclone in E' as (Hle & -> & u & -> & Hid).
    split; [done|]. split; [lia|]. exists r. split; [by right|done].
  - done.
Qed.

(** *** The triples of the matcher *)

Lemma merge_units_inv (base local remote : list pounit) (ks : list (string * string))
    (h : heap) (us : list pounit) (c : nat) (h' : heap) :
  merge_units (triple_of_key Unit.getid base local remote <$> ks) h
    = Ok ((us, c), h') →
  heap_le h h'
  ∧ c ≤ length us
  ∧ Unit.getid <$> us =
      filter (λ k, k ∈ Unit.getid <$> local ∨ k ∈ Unit.getid <$> remote) ks.
Proof.
  revert h us c. induction ks as [|k ks IH]; intros h us c E.
  - apply mret_Ok in E as [[= -> ->] ->].
    split_and!; [apply heap_le_refl|done|done].
  - rewrite fmap_cons in E. unfold triple_of_key at 1 in E.
    change (merge_units ((?b, ?l, ?r) :: ?ts) h)
      with (('(u, c) ← _PoFileDiff.merge_unit b l r;
             '(us, cs) ← merge_units ts;
             mret (match u with Some u => u :: us | None => us end, c + cs))%M h)
      in E.
    apply mbind_Ok in E as ([ou c1] & h1 & E1 & E).
    apply mbind_Ok in E as ([us1 cs] & h2 & E2 & E).
    apply mret_Ok in E as [[= -> ->] ->].
    apply IH in E2 as (Hle2 & Hcs & Hids).
    apply merge_unit_opt_inv in E1 as (Hle1 & Hou).
    split; [by eapply heap_le_trans|].
    rewrite filter_cons. destruct ou as [u|].
    + destruct Hou as (Hc1 & x & Hx & Hid).
      assert (Unit.getid x = k ∧ (k ∈ Unit.getid <$> local ∨ k ∈ Unit.getid <$> remote))
        as [Hk Hin].
      { destruct Hx as [El|[_ Er]].
        - split; [by apply find_key_Some in El as [? _]|].
          left. apply find_key_is_Some. by rewrite El.
        - split; [by apply find_key_Some in Er as [? _]|].
          right. apply find_key_is_Some. by rewrite Er. }
      rewrite decide_True by done. split; [simpl; lia|].
      by rewrite fmap_cons, Hid, Hk, Hids.
    + destruct Hou as (-> & El & Er).
      apply find_key_None in El, Er.
      rewrite decide_False by tauto. split; [lia|done].
Qed.

(** The three bands of a list make up the list. *)
Lemma bands_Permutation (us : list pounit) :
  filter (in_band 0) us ++ filter (in_band 1) us ++ filter (in_band 2) us ≡ₚ us.
Proof.
  induction us as [|u us IH]; [done|].
  rewrite !filter_cons. pose proof (band_le_2 u) as Hb.
  destruct (decide (in_band 0 u)) as [Hb0|Hb0], (decide (in_band 1 u)) as [Hb1|Hb1],
    (decide (in_band 2 u)) as [Hb2|Hb2]; unfold in_band in Hb0, Hb1, Hb2; try lia.
  - simpl. by rewrite IH.
  - simpl. rewrite <- Permutation_middle. by rewrite IH.
  - rewrite app_assoc, <- Permutation_middle, <- app_assoc. by rewrite IH.
Qed.

(** What a merge that returns has done: the triples of the matcher for
    a duplicate-free list of keys covering the inputs, and the units
    merged from them. *)
Lemma merge_Ok_inv (base local remote : list pounit) (h : heap)
    (out : list pounit) (c : nat) (h' : heap) :
  _PoFileDiff.merge base local remote h = Ok ((out, c), h') →
  ∃ ks us,
    NoDup ks
    ∧ (∀ k, k ∈ ks ↔ in_inputs Unit.getid base local remote k)
    ∧ merge_units (triple_of_key Unit.getid base local remote <$> ks) h
        = Ok ((us, c), h')
    ∧ out ≡ₚ us.
Proof.
  unfold _PoFileDiff.merge, DiffUtils.merge.
  destruct (match_spec Unit.getid Unit.isobsolete base local remote)
    as (ks & -> & Hnd & Hks).
  intros E. apply mbind_Ok in E as (bk & h1 & E1 & E).
  apply merge_loop_spec in E1 as (us & c' & Eus & Hh & Hn & Ho & Hc).
  simpl in Hh, Hn, Ho, Hc.
  apply mbind_Ok in E as ([] & h2 & E2 & E). apply mlift_Ok in E2 as [_ ->].
  apply mret_Ok in E as [[= -> ->] ->].
  exists ks, us. rewrite Hh, Hn, Ho, Hc. split_and!; [done|done|done|].
  apply bands_Permutation.
Qed.

(** Whenever [merge] returns a catalog, the catalog has exactly one
    unit for each identity (context and source) that a unit of [local]
    or of [remote] has, and no other unit: no identity comes twice, also
    when the inputs repeat one, and an identity that only the base has is
    not in the catalog. *)
Theorem merge_output_ids (base local remote : list pounit) (h : heap)
    (out : list pounit) (c : nat) (h' : heap) :
  _PoFileDiff.merge base local remote h = Ok ((out, c), h') →
  NoDup (Unit.getid <$> out)
  ∧ (∀ k, k ∈ Unit.getid <$> out
          ↔ k ∈ Unit.getid <$> local ∨ k ∈ Unit.getid <$> remote).
Proof.
  intros E. apply merge_Ok_inv in E as (ks & us & Hnd & Hks & Eus & Hperm).
  apply merge_units_inv in Eus as (_ & _ & Hids).
  split; [rewrite Hperm, Hids; by apply NoDup_filter|].
  intros k. rewrite Hperm, Hids, list_elem_of_filter, Hks. unfold in_inputs. tauto.
Qed.

(** Whenever [merge] returns, the number of conflicts it reports is at
    most the number of units of the catalog it returns: a unit counts
    for one conflict at most, however many fields of a header conflict,
    and a unit that is dropped counts for none. *)
Theorem merge_conflicts_bound (base local remote : list pounit) (h : heap)
    (out : list pounit) (c : nat) (h' : heap) :
  _PoFileDiff.merge base local remote h = Ok ((out, c), h') →
  c ≤ length out.
Proof.
  intros E. apply merge_Ok_inv in E as (ks & us & Hnd & Hks & Eus & Hperm).
  apply merge_units_inv in Eus as (_ & Hc & _). by rewrite Hperm.
Qed.



(** *** Merges that cannot conflict *)

(** The branches of [merge_unit] that copy a unit return, unless they
    are to make obsolete a unit that is not there. *)
Lemma merge_unit_clone_total (o : option pounit) (live : bool) (h : heap) :
  (o = None → live = false) →
  ∃ ou h',
    (u ← DiffUtils.clone_unit o;
     u ← (if live then DiffUtils.makeobsolete u else mret u);
     mret (u, 0))%M h = Ok ((ou, 0), h')
    ∧ heap_le h h' ∧ (o = None → h' = h).
Proof.
  intros Hlive. destruct (clone_unit_spec o h) as (o1 & h1 & E1 & Hle & Ho1).
  unfold mbind at 1. rewrite E1. destruct o as [x|].
  - destruct Ho1 as (u' & -> & _). destruct live; eexists _, _; by split_and!.
  - destruct Ho1 as [-> ->]. rewrite Hlive by done. eexists _, _. by split_and!.
Qed.

(** When every triple merges without a conflict, the loop of [merge]
    runs to its end and counts none. *)
Lemma merge_loop_quiet (R : heap → heap → Prop)
    (ts : list (option pounit * option pounit * option pounit)) :
  (∀ h, R h h) → (∀ h1 h2 h3, R h1 h2 → R h2 h3 → R h1 h3) →
  (∀ t, t ∈ ts → ∀ h, ∃ ou h',
     _PoFileDiff.merge_unit t.1.1 t.1.2 t.2 h = Ok ((ou, 0), h') ∧ R h h') →
  ∀ bk h, ∃ bk' h',
    DiffUtils.merge_loop _PoFileDiff.empty_unit _PoFileDiff._merge_unit bk ts h
      = Ok (bk', h')
    ∧ DiffUtils.conflicts bk' = DiffUtils.conflicts bk ∧ R h h'.
Proof.
  intros Hrefl Htrans. induction ts as [|[[b l] r] ts IH]; intros Hts bk h.
  - exists bk, h. by split_and!.
  - destruct (Hts (b, l, r)) with (h := h) as (ou & h1 & E1 & HR1); [by left|].
    simpl in E1. unfold _PoFileDiff.merge_unit in E1.
    assert (∃ bk1,
      DiffUtils.merge_step _PoFileDiff.empty_unit _PoFileDiff._merge_unit bk
        (b, l, r) h = Ok (bk1, h1)
      ∧ DiffUtils.conflicts bk1 = DiffUtils.conflicts bk) as (bk1 & Estep & Hc1).
    { unfold DiffUtils.merge_step. unfold mbind at 1. rewrite E1.
      destruct ou as [u|]; [destruct (isheader u); [|destruct (Unit.isobsolete u)]|];
        (eexists; split; [reflexivity|]); simpl; lia. }
    destruct (IH (λ t Ht, Hts t (list_elem_of_further _ _ _ Ht)) bk1 h1)
      as (bk' & h' & E' & Hc' & HR').
    exists bk', h'. split_and!; [|congruence|by eapply Htrans].
    change (DiffUtils.merge_loop ?e ?m bk ((b, l, r) :: ts) h)
      with (mbind (DiffUtils.merge_step e m bk (b, l, r))
              (λ bk, DiffUtils.merge_loop e m bk ts) h).
    unfold mbind at 1. by rewrite Estep.
Qed.

Lemma merge_quiet (R : heap → heap → Prop) (base local remote : list pounit)
    (h : heap) :
  (∀ h, R h h) → (∀ h1 h2 h3, R h1 h2 → R h2 h3 → R h1 h3) →
  (∀ k, in_inputs Unit.getid base local remote k → ∀ h, ∃ ou h',
     _PoFileDiff.merge_unit (find_key Unit.getid k base) (find_key Unit.getid k local)
       (find_key Unit.getid k remote) h = Ok ((ou, 0), h') ∧ R h h') →
  ∃ out h', _PoFileDiff.merge base local remote h = Ok ((out, 0), h') ∧ R h h'.
Proof.
  intros Hrefl Htrans Hks.
  destruct (match_spec Unit.getid Unit.isobsolete base local remote)
    as (ks & E & Hnd & Hin).
  destruct (merge_loop_quiet R (triple_of_key Unit.getid base local remote <$> ks)
              Hrefl Htrans) with (bk := DiffUtils.MkBuckets [] [] [] 0) (h := h)
    as (bk' & h' & E' & Hc' & HR').
  { intros t Ht. apply list_elem_of_fmap in Ht as (k & -> & Hk).
    apply Hks. by apply Hin. }
  unfold _PoFileDiff.merge, DiffUtils.merge. rewrite E.
  unfold mbind at 1. rewrite E'. simpl in Hc'. rewrite <- Hc'.
  eexists _, _. by split.
Qed.

(** A merge in which one head is the base itself always returns a
    catalog, and reports no conflict, whatever the other head is; the
    heap only grows. *)
Theorem merge_one_side_unchanged (x y : list pounit) (h : heap) :
  (∃ out h', _PoFileDiff.merge x x y h = Ok ((out, 0), h') ∧ heap_le h h')
  ∧ (∃ out h', _PoFileDiff.merge x y x h = Ok ((out, 0), h') ∧ heap_le h h').
Proof.
  split.
  - apply merge_quiet; [apply heap_le_refl|apply heap_le_trans|].
    intros k Hk h0. unfold _PoFileDiff.merge_unit, DiffUtils.merge_unit.
    destruct (find_key Unit.getid k x) as [u|] eqn:Ex,
             (find_key Unit.getid k y) as [v|] eqn:Ey.
    + destruct (merge_unit_quiet u u v h0) as (out & E & _); [by left|].
      unfold mbind. rewrite E. eexists _, _. split; [done|apply heap_le_refl].
    + destruct (merge_unit_clone_total (Some u) (negb (Unit.isobsolete u)) h0)
        as (ou & h' & E & Hle & _); [done|]. by exists ou, h'.
    + destruct (merge_unit_clone_total (Some v) false h0)
        as (ou & h' & E & Hle & _); [done|]. exists ou, h'. split; [|done].
      rewrite <- E. unfold mbind.
      by destruct (DiffUtils.clone_unit (Some v) h0) as [[? ?]|].
    + exfalso. apply find_key_None in Ex, Ey. unfold in_inputs in Hk. tauto.
  - apply merge_quiet; [apply heap_le_refl|apply heap_le_trans|].
    intros k Hk h0. unfold _PoFileDiff.merge_unit, DiffUtils.merge_unit.
    destruct (find_key Unit.getid k x) as [u|] eqn:Ex,
             (find_key Unit.getid k y) as [v|] eqn:Ey.
    + destruct (merge_unit_quiet u v u h0) as (out & E & _); [right; by left|].
      unfold mbind. rewrite E. eexists _, _. split; [done|apply heap_le_refl].
    + destruct (merge_unit_clone_total (Some u) (negb (Unit.isobsolete u)) h0)
        as (ou & h' & E & Hle & _); [done|]. by exists ou, h'.
    + destruct (merge_unit_clone_total (Some v) false h0)
        as (ou & h' & E & Hle & _); [done|]. exists ou, h'. split; [|done].
      rewrite <- E. unfold mbind.
      by destruct (DiffUtils.clone_unit (Some v) h0) as [[? ?]|].
    + exfalso. apply find_key_None in Ex, Ey. unfold in_inputs in Hk. tauto.
Qed.

(** When the two heads are the same catalog [x], and every unit of the
    base whose identity no unit of [x] has is obsolete, [merge] returns
    a catalog, reports no conflict and leaves the heap as it is. *)
Theorem merge_same_heads (b x : list pounit) (h : heap) :
  (∀ u, u ∈ b → Unit.getid u ∉ Unit.getid <$> x → obsolete u = true) →
  ∃ out, _PoFileDiff.merge b x x h = Ok ((out, 0), h).
Proof.
  intros Hobs.
  destruct (merge_quiet eq b x x h) as (out & h' & E & <-);
    [done|congruence| |by exists out].
  intros k Hk h0. unfold _PoFileDiff.merge_unit, DiffUtils.merge_unit.
  destruct (find_key Unit.getid k x) as [u|] eqn:Ex.
  - destruct (find_key Unit.getid k b) as [bu|].
    + destruct (merge_unit_quiet bu u u h0) as (out & E & _); [right; by right|].
      unfold mbind. rewrite E. by eexists _, _.
    + destruct (merge_unit_quiet (_PoFileDiff.empty_unit u) u u h0)
        as (out & E & _); [right; by right|].
      unfold mbind. rewrite E. by eexists _, _.
  - destruct (find_key Unit.getid k b) as [bu|] eqn:Eb.
    + apply find_key_Some in Eb as [Hkey Hin]. apply find_key_None in Ex.
      rewrite <- Hkey in Ex. unfold Unit.isobsolete. rewrite (Hobs bu Hin Ex).
      by eexists _, _.
    + exfalso. apply find_key_None in Ex, Eb. unfold in_inputs in Hk. tauto.
Qed.

End Facts.

#[local] Existing Instance PyPo.layer.
#[local] Existing Instance PyPo.utc.

(** The catalogs of [test_po_conflict], with an entry that only local
    has and a plural entry whose translations differ in length. *)
Definition ids_base : list pounit :=
  [Battery.entry "foo" "bar"; Battery.plural_entry "one" "many" 0].
Definition ids_local : list pounit :=
  [Battery.entry "foo" "baz"; Battery.entry "new" "NEW";
   Battery.plural_entry "one" "many" 1].
Definition ids_remote : list pounit :=
  [Battery.plural_entry "one" "many" 2; Battery.entry "foo" "qyzzy"].
Definition ids_heap : heap := [["x"]; ["a"]; ["b"; "c"]].

Definition ids_result : list pounit * nat * heap :=
  Eval vm_compute in
    match _PoFileDiff.merge ids_base ids_local ids_remote ids_heap with
    | Ok r => r
    | Raise _ => ([], 0, [])
    end.

Lemma ids_merge :
  _PoFileDiff.merge ids_base ids_local ids_remote ids_heap = Ok ids_result.
Proof. vm_compute. reflexivity. Qed.

Lemma merge_output_ids_witness :
  _PoFileDiff.merge ids_base ids_local ids_remote ids_heap
    = Ok ((ids_result.1.1, ids_result.1.2), ids_result.2)
  ∧ NoDup (Unit.getid <$> ids_result.1.1)
  ∧ (∀ k, k ∈ Unit.getid <$> ids_result.1.1
          ↔ k ∈ Unit.getid <$> ids_local ∨ k ∈ Unit.getid <$> ids_remote).
Proof.
  split; [exact ids_merge|].
  exact (merge_output_ids _ _ _ _ _ _ _ ids_merge).
Defined.

Lemma merge_conflicts_bound_witness :
  _PoFileDiff.merge ids_base ids_local ids_remote ids_heap
    = Ok ((ids_result.1.1, ids_result.1.2), ids_result.2)
  ∧ ids_result.1.2 = 2 ∧ length ids_result.1.1 = 3
  ∧ ids_result.1.2 ≤ length ids_result.1.1.
Proof.
  split; [exact ids_merge|]. split; [reflexivity|]. split; [reflexivity|].
  exact (merge_conflicts_bound _ _ _ _ _ _ _ ids_merge).
Defined.


(** The base has an obsolete entry that the heads have dropped. *)
Lemma merge_same_heads_witness :
  let b := [Battery.entry "foo" "FOO"; Battery.obsolete_ (Battery.entry "bar" "BAR")] in
  let x := [Battery.entry "foo" "Foo"] in
  (∀ u, u ∈ b → Unit.getid u ∉ Unit.getid <$> x → obsolete u = true)
  ∧ ∃ out, _PoFileDiff.merge b x x [] = Ok ((out, 0), []).
Proof.
  cbv zeta.
  assert (∀ u, u ∈ [Battery.entry "foo" "FOO";
                    Battery.obsolete_ (Battery.entry "bar" "BAR")] →
               Unit.getid u ∉ Unit.getid <$> [Battery.entry "foo" "Foo"] →
               obsolete u = true) as Hobs.
  { intros u Hu Hid. apply elem_of_cons in Hu as [->|Hu].
    - exfalso. apply Hid. by left.
    - apply list_elem_of_singleton in Hu as ->. reflexivity. }
  split; [exact Hobs|].
  exact (merge_same_heads _ _ [] Hobs).
Defined.

End CatalogFacts.

(** ** Entries that one head alone has *)

Module EntryFacts.
Import Matcher3Facts MergeFacts UnitMergeFacts CatalogFacts.

Section Facts.
Context `{CatalogLayer} `{Clock}.

(** The unit of the base is there and is not obsolete. *)
Definition live (ob : option pounit) : bool :=
  match ob with
  | Some b => negb (Unit.isobsolete b)
  | None => false
  end.






End Facts.

#[local] Existing Instance PyPo.layer.
#[local] Existing Instance PyPo.utc.





End EntryFacts.
